(** * cmdparse: command grammars compiled to a Thompson-style word VM

    A shallow embedding of the Go package [cmdparse]: the grammar lexer
    ([scanner]), the recursive-descent [parser], the [compiler] that lowers a
    parse tree to a flat program, the matching [vm], the user-input scanner
    ([cmdScanner]) and the [Cmds] facade that ties them together.

    Conventions.
    - A Go [int] is a [Z].  Program counters and jump targets are bounded by
      the length of the program and the generation counter by the number of
      input words, so no operation below leaves the range of a machine int.
    - A Go [string] is a Stdlib [string] (a sequence of bytes); a [rune] is a
      [Z] code point.  The conversion [[]rune(s)] is the boundary of the
      model: scanners take the rune sequence of their argument.
    - A pointer into a slice is the index it points at; a pointer to a
      [thread] is an address in an explicit store.
    - A Go function that may panic, and a loop that may not come back,
      return a [result]. *)

From Stdlib Require Import ZArith String Ascii Lia DecimalString.
From stdpp Require Import base list option numbers strings.

Local Open Scope Z_scope.

(** ** Outcomes *)

Inductive result (A : Type) : Type :=
  | Ok (a : A)
  | Panic
  | Timeout.
Arguments Ok {A} a.
Arguments Panic {A}.
Arguments Timeout {A}.

#[global] Instance result_ret : MRet result := @Ok.
#[global] Instance result_bind : MBind result := λ A B f m,
  match m with
  | Ok a => f a
  | Panic => Panic
  | Timeout => Timeout
  end.

#[global] Instance result_fmap : FMap result := λ A B f m,
  match m with
  | Ok a => Ok (f a)
  | Panic => Panic
  | Timeout => Timeout
  end.

(** [s[i]] on a Go slice: a run-time panic when [i] is out of range. *)
Definition index {A : Type} (l : list A) (i : Z) : result A :=
  if i <? 0 then Panic
  else match l !! Z.to_nat i with
       | Some a => Ok a
       | None => Panic
       end.

(** [len(s)] *)
Definition len {A : Type} (l : list A) : Z := Z.of_nat (length l).

(** ** Parse trees (parser.go, cmdparse.go)

    The tree is an [interface{}] in the source: [nilNode] is the nil
    interface, which the parser returns for "nothing parsed" and which
    may sit in any child position. *)

(** [Callback] values are opaque to the library: a handle names one. *)
Definition Callback := nat.

Inductive repOp : Type :=
  | repeatUnset
  | repeatZeroOrMore
  | repeatOneOrMore
  | repeatZeroOrOne.

Inductive node : Type :=
  | nilNode
  | alts (Left Right : node)
  | terms (Left Right : node)
  | rep (Op : repOp) (Term : node)
  | word (w : string)
  | variable (Name Type_ : string)
  | meta (data : option Callback) (ch : node).

(** [t == nil] *)
Definition is_nil (t : node) : bool :=
  match t with
  | nilNode => true
  | _ => false
  end.

(** ** Instructions and programs (compiler.go) *)

Inductive opcode : Type :=
  | opNop
  | opSplit
  | opJmp
  | opCmp
  | opSave
  | opMeta
  | opMatch.

#[global] Instance opcode_eq_dec : EqDecision opcode.
Proof. solve_decision. Defined.

Record instr : Type := mkInstr {
  instr_opcode : opcode;
  instr_ints0 : Z;
  instr_ints1 : Z;
  instr_strs0 : string;
  instr_strs1 : string;
  instr_intf : option Callback;
  instr_gen : Z
}.

Definition prog := list instr.

(** The zero value of [instr], as [make] fills a fresh slice. *)
Definition zeroInstr : instr := mkInstr opNop 0 0 "" "" None 0.

Definition set_opcode (o : opcode) (i : instr) : instr :=
  mkInstr o (instr_ints0 i) (instr_ints1 i) (instr_strs0 i) (instr_strs1 i)
          (instr_intf i) (instr_gen i).
Definition set_ints0 (a : Z) (i : instr) : instr :=
  mkInstr (instr_opcode i) a (instr_ints1 i) (instr_strs0 i) (instr_strs1 i)
          (instr_intf i) (instr_gen i).
Definition set_ints1 (b : Z) (i : instr) : instr :=
  mkInstr (instr_opcode i) (instr_ints0 i) b (instr_strs0 i) (instr_strs1 i)
          (instr_intf i) (instr_gen i).
Definition set_strs0 (s : string) (i : instr) : instr :=
  mkInstr (instr_opcode i) (instr_ints0 i) (instr_ints1 i) s (instr_strs1 i)
          (instr_intf i) (instr_gen i).
Definition set_strs1 (s : string) (i : instr) : instr :=
  mkInstr (instr_opcode i) (instr_ints0 i) (instr_ints1 i) (instr_strs0 i) s
          (instr_intf i) (instr_gen i).
Definition set_intf (d : option Callback) (i : instr) : instr :=
  mkInstr (instr_opcode i) (instr_ints0 i) (instr_ints1 i) (instr_strs0 i)
          (instr_strs1 i) d (instr_gen i).

(** ** The compiler *)

Module Compiler.

Record compiler : Type := mkCompiler {
  compiler_instr : prog;
  compiler_pc : Z
}.

(** [var c compiler] *)
Definition zero : compiler := mkCompiler [] 0.

(** [&c.instr[i]]: the bounds check happens when the address is taken. *)
Definition addr (c : compiler) (i : Z) : result Z :=
  _ ← index (compiler_instr c) i; Ok i.

(** A write through a pointer obtained from [addr].  [emit] never
    reallocates [c.instr], so the pointer stays the index. *)
Definition poke (ptr : Z) (f : instr → instr) (c : compiler) : compiler :=
  mkCompiler (alter f (Z.to_nat ptr) (compiler_instr c)) (compiler_pc c).

(** [c.pc++] *)
Definition incr_pc (c : compiler) : compiler :=
  mkCompiler (compiler_instr c) (compiler_pc c + 1).

Fixpoint countinstr (ptree : node) : result Z :=
  match ptree with
  | alts l r =>
      nl ← countinstr l; nr ← countinstr r; Ok (2 + nl + nr)
  | word _ => Ok 1
  | variable _ _ => Ok 1
  | rep op t =>
      match op with
      | repeatZeroOrMore => n ← countinstr t; Ok (2 + n)
      | repeatOneOrMore => n ← countinstr t; Ok (n + 1)
      | repeatZeroOrOne => n ← countinstr t; Ok (1 + n)
      | repeatUnset => Ok 0 (* no case of the inner switch: [return 0] *)
      end
  | terms l r =>
      nl ← countinstr l; nr ← countinstr r; Ok (nl + nr)
  | meta _ ch => n ← countinstr ch; Ok (1 + n)
  | nilNode => Panic (* default: unknown node type *)
  end.

Definition countinstrForProgram (ptree : node) : result Z :=
  n ← countinstr ptree; Ok (n + 1).

Section Emit.
(** The [emitX] methods call back into [emit]; the knot is tied below. *)
Variable emit : node → compiler → result compiler.

Definition emitAlts (l r : node) (c : compiler) : result compiler :=
  split ← addr c (compiler_pc c);
  let c := poke split (set_opcode opSplit) c in
  let c := poke split (set_ints0 (compiler_pc c + 1)) c in
  let c := incr_pc c in
  c ← emit l c;
  jmp ← addr c (compiler_pc c);
  let c := poke jmp (set_opcode opJmp) c in
  let c := incr_pc c in
  let c := poke split (set_ints1 (compiler_pc c)) c in
  c ← emit r c;
  Ok (poke jmp (set_ints0 (compiler_pc c)) c).

Definition emitTerms (l r : node) (c : compiler) : result compiler :=
  c ← emit l c; emit r c.

Definition emitZeroOrMore (t : node) (c : compiler) : result compiler :=
  let splitNdx := compiler_pc c in
  split ← addr c (compiler_pc c);
  let c := poke split (set_opcode opSplit) c in
  let c := poke split (set_ints0 (compiler_pc c + 1)) c in
  let c := incr_pc c in
  c ← emit t c;
  jmp ← addr c (compiler_pc c);
  let c := poke jmp (set_opcode opJmp) c in
  let c := poke jmp (set_ints0 splitNdx) c in
  let c := incr_pc c in
  Ok (poke split (set_ints1 (compiler_pc c)) c).

Definition emitOneOrMore (t : node) (c : compiler) : result compiler :=
  let splitDst1 := compiler_pc c in
  c ← emit t c;
  split ← addr c (compiler_pc c);
  let c := poke split (set_opcode opSplit) c in
  let c := poke split (set_ints0 splitDst1) c in
  let c := poke split (set_ints1 (compiler_pc c + 1)) c in
  Ok (incr_pc c).

Definition emitZeroOrOne (t : node) (c : compiler) : result compiler :=
  split ← addr c (compiler_pc c);
  let c := poke split (set_opcode opSplit) c in
  let c := poke split (set_ints0 (compiler_pc c + 1)) c in
  let c := incr_pc c in
  c ← emit t c;
  Ok (poke split (set_ints1 (compiler_pc c)) c).

Definition emitRep (op : repOp) (t : node) (c : compiler) : result compiler :=
  match op with
  | repeatZeroOrMore => emitZeroOrMore t c
  | repeatOneOrMore => emitOneOrMore t c
  | repeatZeroOrOne => emitZeroOrOne t c
  | repeatUnset => Ok c
  end.

Definition emitMeta (d : option Callback) (ch : node) (c : compiler)
  : result compiler :=
  i ← addr c (compiler_pc c);
  let c := poke i (set_opcode opMeta) c in
  let c := poke i (set_intf d) c in
  let c := incr_pc c in
  emit ch c.
End Emit.

Definition emitWord (w : string) (c : compiler) : result compiler :=
  i ← addr c (compiler_pc c);
  let c := poke i (set_opcode opCmp) c in
  let c := poke i (set_strs0 w) c in
  Ok (incr_pc c).

Definition emitVar (name type : string) (c : compiler) : result compiler :=
  i ← addr c (compiler_pc c);
  let c := poke i (set_opcode opSave) c in
  let c := poke i (set_strs0 name) c in
  let c := poke i (set_strs1 type) c in
  Ok (incr_pc c).

Definition emitMatch (c : compiler) : result compiler :=
  i ← addr c (compiler_pc c);
  let c := poke i (set_opcode opMatch) c in
  Ok (incr_pc c).

Fixpoint emit (ptree : node) (c : compiler) : result compiler :=
  match ptree with
  | alts l r => emitAlts emit l r c
  | word w => emitWord w c
  | variable n t => emitVar n t c
  | terms l r => emitTerms emit l r c
  | rep op t => emitRep emit op t c
  | meta d ch => emitMeta emit d ch c
  | nilNode => Panic (* default: unknown node type *)
  end.

(** [make([]instr, n)] *)
Definition make (n : Z) : result prog :=
  if n <? 0 then Panic else Ok (replicate (Z.to_nat n) zeroInstr).

Definition compile (ptree : node) (c : compiler) : result compiler :=
  match ptree with
  | nilNode => Ok c
  | _ =>
      n ← countinstrForProgram ptree;
      p ← make n;
      let c := mkCompiler p (compiler_pc c) in
      c ← emit ptree c;
      emitMatch c
  end.

(** [c.prog()] *)
Definition prog_of (c : compiler) : prog := compiler_instr c.

End Compiler.

(** ** Instruction counts, as the specification tabulates them *)

(** The trees of the specification: none of the six node kinds is nil and a
    repetition carries one of the three operators. *)
Fixpoint ast (t : node) : Prop :=
  match t with
  | nilNode => False
  | alts l r | terms l r => ast l ∧ ast r
  | rep op t' => op ≠ repeatUnset ∧ ast t'
  | word _ | variable _ _ => True
  | meta _ t' => ast t'
  end.

Fixpoint count (t : node) : Z :=
  match t with
  | word _ => 1
  | variable _ _ => 1
  | alts l r => 2 + count l + count r
  | terms l r => count l + count r
  | rep repeatZeroOrMore t' => 2 + count t'
  | rep repeatOneOrMore t' => 1 + count t'
  | rep repeatZeroOrOne t' => 1 + count t'
  | meta _ t' => 1 + count t'
  | rep repeatUnset _ | nilNode => 0
  end.

(** The instruction at [i] exists and satisfies [Q]. *)
Definition instr_at (P : prog) (i : Z) (Q : instr → Prop) : Prop :=
  0 ≤ i ∧ ∃ x, P !! Z.to_nat i = Some x ∧ Q x.

Definition is_split (a b : Z) (x : instr) : Prop :=
  instr_opcode x = opSplit ∧ instr_ints0 x = a ∧ instr_ints1 x = b.
Definition is_jmp (a : Z) (x : instr) : Prop :=
  instr_opcode x = opJmp ∧ instr_ints0 x = a.
Definition is_cmp (s : string) (x : instr) : Prop :=
  instr_opcode x = opCmp ∧ instr_strs0 x = s.
Definition is_save (n t : string) (x : instr) : Prop :=
  instr_opcode x = opSave ∧ instr_strs0 x = n ∧ instr_strs1 x = t.
Definition is_meta (d : option Callback) (x : instr) : Prop :=
  instr_opcode x = opMeta ∧ instr_intf x = d.

(** The emission patterns: [code_at P t p] reads "the code of [t] sits in
    [P] from address [p] on". *)
Fixpoint code_at (P : prog) (t : node) (p : Z) : Prop :=
  match t with
  | nilNode => False
  | word w => instr_at P p (is_cmp w)
  | variable n ty => instr_at P p (is_save n ty)
  | terms l r => code_at P l p ∧ code_at P r (p + count l)
  | alts l r =>
      instr_at P p (is_split (p + 1) (p + 2 + count l)) ∧
      code_at P l (p + 1) ∧
      instr_at P (p + 1 + count l) (is_jmp (p + 2 + count l + count r)) ∧
      code_at P r (p + 2 + count l)
  | rep repeatZeroOrMore t' =>
      instr_at P p (is_split (p + 1) (p + 2 + count t')) ∧
      code_at P t' (p + 1) ∧
      instr_at P (p + 1 + count t') (is_jmp p)
  | rep repeatOneOrMore t' =>
      code_at P t' p ∧
      instr_at P (p + count t') (is_split p (p + count t' + 1))
  | rep repeatZeroOrOne t' =>
      instr_at P p (is_split (p + 1) (p + 1 + count t')) ∧
      code_at P t' (p + 1)
  | rep repeatUnset _ => True
  | meta d t' => instr_at P p (is_meta d) ∧ code_at P t' (p + 1)
  end.

(** The trees the compiler accepts: no nil where it looks.  (It does not
    look below a repetition whose operator is unset.) *)
Fixpoint compilable (t : node) : Prop :=
  match t with
  | nilNode => False
  | alts l r | terms l r => compilable l ∧ compilable r
  | rep repeatUnset _ => True
  | rep _ t' => compilable t'
  | word _ | variable _ _ => True
  | meta _ t' => compilable t'
  end.

(** An instruction that [emit] has written: one of the five opcodes the
    emission patterns use. *)
Definition emitted_op (x : instr) : Prop :=
  instr_opcode x ≠ opNop ∧ instr_opcode x ≠ opMatch.

(** Notions used to state what [emit] does to the compiler state. *)
Module CompilerSpec.
Import Compiler.

(** [c.instr[i]], when in range *)
Definition get (c : compiler) (i : Z) : option instr :=
  compiler_instr c !! Z.to_nat i.

Definition keeps_gen (f : instr → instr) : Prop :=
  ∀ x, instr_gen (f x) = instr_gen x.

(** One call of [emit t] taking the compiler from [c] to [c']: the
    cursor moves by [count t], the slice keeps its length, only the cells
    under the cursor's path change, they hold the code of [t], and no [gen]
    field is touched. *)
Record emitted (t : node) (c c' : compiler) : Prop := {
  em_pc : compiler_pc c' = compiler_pc c + count t;
  em_len : length (compiler_instr c') = length (compiler_instr c);
  em_frame : ∀ i, 0 ≤ i →
    i < compiler_pc c ∨ compiler_pc c + count t ≤ i → get c' i = get c i;
  em_code : code_at (compiler_instr c') t (compiler_pc c);
  em_gen : instr_gen <$> compiler_instr c' = instr_gen <$> compiler_instr c
}.

End CompilerSpec.

(** ** The matching VM (vm.go) *)

Module VM.

Inductive item : Type :=
  | keywordValue (Name Value : string)
  | VarValue (Name Type_ Value : string).

(** [binding.instr] points into [v.prog] and [binding.val] into [v.input]:
    both are kept as the index pointed at. *)
Record binding : Type := mkBinding {
  binding_instr : Z;
  binding_val : nat
}.

Record thread : Type := mkThread {
  thread_pc : Z;
  thread_items : list binding;
  thread_meta : option Callback
}.

Record match_ : Type := mkMatch {
  match_items : list item;
  match_meta : option Callback
}.

(** The two thread lists a [*threadList] can point at. *)
Inductive listRef : Type := Current | Next.

(** [vm_heap] holds the [thread] objects allocated so far; a [*thread] is an
    address in it.  The thread lists hold such pointers, so the same thread
    object may be listed more than once and a write to it is seen through
    every entry.  [vm_traceWriter] records whether [traceWriter] is non-nil
    (what is written to it is not modelled). *)
Record vm : Type := mkVm {
  vm_prog : prog;
  vm_input : list string;
  vm_heap : list thread;
  vm_currentThreads : list nat;
  vm_nextThreads : list nat;
  vm_matches : list match_;
  vm_gen : Z;
  vm_thread : option nat;
  vm_wordIndex : nat;
  vm_traceWriter : bool
}.

(** [var v vm] *)
Definition zero (trace : bool) : vm :=
  mkVm [] [] [] [] [] [] 0 None 0 trace.

Definition set_prog (p : prog) (v : vm) : vm :=
  mkVm p (vm_input v) (vm_heap v) (vm_currentThreads v) (vm_nextThreads v)
       (vm_matches v) (vm_gen v) (vm_thread v) (vm_wordIndex v)
       (vm_traceWriter v).
Definition set_input (i : list string) (v : vm) : vm :=
  mkVm (vm_prog v) i (vm_heap v) (vm_currentThreads v) (vm_nextThreads v)
       (vm_matches v) (vm_gen v) (vm_thread v) (vm_wordIndex v)
       (vm_traceWriter v).
Definition set_heap (h : list thread) (v : vm) : vm :=
  mkVm (vm_prog v) (vm_input v) h (vm_currentThreads v) (vm_nextThreads v)
       (vm_matches v) (vm_gen v) (vm_thread v) (vm_wordIndex v)
       (vm_traceWriter v).
Definition set_currentThreads (l : list nat) (v : vm) : vm :=
  mkVm (vm_prog v) (vm_input v) (vm_heap v) l (vm_nextThreads v)
       (vm_matches v) (vm_gen v) (vm_thread v) (vm_wordIndex v)
       (vm_traceWriter v).
Definition set_nextThreads (l : list nat) (v : vm) : vm :=
  mkVm (vm_prog v) (vm_input v) (vm_heap v) (vm_currentThreads v) l
       (vm_matches v) (vm_gen v) (vm_thread v) (vm_wordIndex v)
       (vm_traceWriter v).
Definition set_matches (m : list match_) (v : vm) : vm :=
  mkVm (vm_prog v) (vm_input v) (vm_heap v) (vm_currentThreads v)
       (vm_nextThreads v) m (vm_gen v) (vm_thread v) (vm_wordIndex v)
       (vm_traceWriter v).
Definition set_gen (g : Z) (v : vm) : vm :=
  mkVm (vm_prog v) (vm_input v) (vm_heap v) (vm_currentThreads v)
       (vm_nextThreads v) (vm_matches v) g (vm_thread v) (vm_wordIndex v)
       (vm_traceWriter v).
Definition set_thread (t : option nat) (v : vm) : vm :=
  mkVm (vm_prog v) (vm_input v) (vm_heap v) (vm_currentThreads v)
       (vm_nextThreads v) (vm_matches v) (vm_gen v) t (vm_wordIndex v)
       (vm_traceWriter v).
Definition set_wordIndex (i : nat) (v : vm) : vm :=
  mkVm (vm_prog v) (vm_input v) (vm_heap v) (vm_currentThreads v)
       (vm_nextThreads v) (vm_matches v) (vm_gen v) (vm_thread v) i
       (vm_traceWriter v).

(** *** Thread objects *)

(** [&thread{...}]: a fresh object, at the next free address. *)
Definition alloc (th : thread) (v : vm) : nat * vm :=
  (length (vm_heap v), set_heap (vm_heap v ++ [th]) v).

(** [*t] *)
Definition load (t : nat) (v : vm) : result thread :=
  match vm_heap v !! t with
  | Some th => Ok th
  | None => Panic
  end.

(** A write to the object [t] points at. *)
Definition update (t : nat) (f : thread → thread) (v : vm) : vm :=
  set_heap (alter f t (vm_heap v)) v.

Definition with_pc (pc : Z) (th : thread) : thread :=
  mkThread pc (thread_items th) (thread_meta th).
Definition with_meta (m : option Callback) (th : thread) : thread :=
  mkThread (thread_pc th) (thread_items th) m.

(** [t.clone()]: a new object with a copy of the binding list. *)
Definition clone (t : nat) (v : vm) : result (nat * vm) :=
  th ← load t v;
  Ok (alloc (mkThread (thread_pc th) (thread_items th) (thread_meta th)) v).

(** [t.bind(instr, val)].  Both branches of the source leave [t.items]
    holding the old bindings followed by the new one: the first builds the
    one-element slice when [items] is nil, the second appends. *)
Definition bind (instr : Z) (val : nat) (th : thread) : thread :=
  match thread_items th with
  | [] => mkThread (thread_pc th) [mkBinding instr val] (thread_meta th)
  | its => mkThread (thread_pc th) (its ++ [mkBinding instr val])
                    (thread_meta th)
  end.

(** *** Thread lists *)

Definition makeThreadLists (v : vm) : vm :=
  set_nextThreads [] (set_currentThreads [] v).

Definition swap (v : vm) : vm :=
  set_nextThreads (vm_currentThreads v)
    (set_currentThreads (vm_nextThreads v) v).

Definition clear (l : listRef) (v : vm) : vm :=
  match l with
  | Current => set_currentThreads [] v
  | Next => set_nextThreads [] v
  end.

(** [*l = append( *l, t)] *)
Definition append (l : listRef) (t : nat) (v : vm) : vm :=
  match l with
  | Current => set_currentThreads (vm_currentThreads v ++ [t]) v
  | Next => set_nextThreads (vm_nextThreads v ++ [t]) v
  end.

Definition addThread (l : listRef) (t : nat) (v : vm) : result vm :=
  if decide (len (vm_prog v) = 0) then Ok v
  else
    th ← load t v;
    instr ← index (vm_prog v) (thread_pc th);
    if decide (instr_gen instr = vm_gen v) then Ok v (* already on the list *)
    else Ok (append l t v).

(** *** Instructions *)

(** [v.thread], which [processWord] sets before every [continu] *)
Definition current (v : vm) : result nat :=
  match vm_thread v with
  | Some t => Ok t
  | None => Panic
  end.

(** [v.currentinstr()]: the address [&v.prog[v.thread.pc]] and what it
    holds. *)
Definition currentinstr (v : vm) : result (Z * instr) :=
  t ← current v;
  th ← load t v;
  i ← index (vm_prog v) (thread_pc th);
  Ok (thread_pc th, i).

(** [v.trace()] and [v.traceBind()]: with a trace writer set, both read
    [v.input[v.wordIndex]] before printing. *)
Definition trace (v : vm) : result unit :=
  if vm_traceWriter v then
    _ ← currentinstr v;
    _ ← index (vm_input v) (Z.of_nat (vm_wordIndex v));
    Ok ()
  else Ok ().

Definition traceBind (v : vm) : result unit :=
  if vm_traceWriter v then
    _ ← index (vm_input v) (Z.of_nat (vm_wordIndex v)); Ok ()
  else Ok ().

Definition doJmp (instr : instr) (v : vm) : result vm :=
  t ← current v;
  let v := update t (with_pc (instr_ints0 instr)) v in
  addThread Current t v.

Definition doSplit (instr : instr) (v : vm) : result vm :=
  t ← current v;
  '(t2, v) ← clone t v;
  let v := update t2 (with_pc (instr_ints1 instr)) v in
  let v := update t (with_pc (instr_ints0 instr)) v in
  v ← addThread Current t v;
  addThread Current t2 v.

(** [strings.HasPrefix(s, prefix)]: [prefix] is an initial segment of the
    bytes of [s]. *)
Fixpoint HasPrefix (s prefix : string) {struct prefix} : bool :=
  match prefix, s with
  | EmptyString, _ => true
  | String b p, String a s' => if Ascii.eqb a b then HasPrefix s' p else false
  | String _ _, EmptyString => false
  end.

(** [word] is a [*string] into [v.input], or nil. *)
Definition doCmp (ip : Z) (instr : instr) (word : option nat) (v : vm)
  : result vm :=
  match word with
  | None => Ok v
  | Some w =>
      s ← index (vm_input v) (Z.of_nat w);
      if HasPrefix (instr_strs0 instr) s then
        t ← current v;
        let v := update t (bind ip w) v in
        _ ← traceBind v;
        th ← load t v;
        let v := update t (with_pc (thread_pc th + 1)) v in
        addThread Next t v
      else Ok v
  end.

Definition doSave (ip : Z) (instr : instr) (word : option nat) (v : vm)
  : result vm :=
  match word with
  | None => Ok v
  | Some w =>
      t ← current v;
      let v := update t (bind ip w) v in
      _ ← traceBind v;
      th ← load t v;
      let v := update t (with_pc (thread_pc th + 1)) v in
      addThread Next t v
  end.

Definition doMeta (instr : instr) (v : vm) : result vm :=
  t ← current v;
  let v := update t (with_meta (instr_intf instr)) v in
  th ← load t v;
  let v := update t (with_pc (thread_pc th + 1)) v in
  addThread Current t v.

(** One binding turned into a match item. *)
Definition finalize (v : vm) (b : binding) : result item :=
  i ← index (vm_prog v) (binding_instr b);
  val ← index (vm_input v) (Z.of_nat (binding_val b));
  match instr_opcode i with
  | opCmp => Ok (keywordValue (instr_strs0 i) val)
  | opSave => Ok (VarValue (instr_strs0 i) (instr_strs1 i) val)
  | _ => Panic (* Unsupported opcode in thread bindings *)
  end.

Fixpoint mapM {A B : Type} (f : A → result B) (l : list A) : result (list B) :=
  match l with
  | [] => Ok []
  | a :: l' => b ← f a; bs ← mapM f l'; Ok (b :: bs)
  end.

Definition addMatch (t : nat) (v : vm) : result vm :=
  th ← load t v;
  items ← mapM (finalize v) (thread_items th);
  Ok (set_matches (vm_matches v ++ [mkMatch items (thread_meta th)]) v).

Definition continu (word : option nat) (v : vm) : result vm :=
  '(ip, instr) ← currentinstr v;
  _ ← trace v;
  match instr_opcode instr with
  | opNop => Ok v
  | opJmp => doJmp instr v
  | opMatch => t ← current v; addMatch t v
  | opSplit => doSplit instr v
  | opCmp => doCmp ip instr word v
  | opSave => doSave ip instr word v
  | opMeta => doMeta instr v
  end.

(** *** The driver *)

(** The loop of [processWord], from index [i] on.  The list may grow while
    it is walked; [fuel] bounds the number of times the loop condition is
    evaluated. *)
Fixpoint run (fuel : nat) (word : option nat) (i : nat) (v : vm) : result vm :=
  match fuel with
  | O => Timeout
  | S fuel' =>
      match vm_currentThreads v !! i with
      | None => Ok v
      | Some t =>
          v ← continu word (set_thread (Some t) v);
          run fuel' word (S i) v
      end
  end.

Definition processWord (fuel : nat) (word : option nat) (v : vm) : result vm :=
  let v := set_gen (vm_gen v + 1) v in
  v ← run fuel word 0%nat v;
  Ok (clear Next (swap v)).

Definition finishThreads (fuel : nat) (v : vm) : result vm :=
  processWord fuel None v.

(** [for v.wordIndex = range input { v.processWord(&input[v.wordIndex]) }] *)
Fixpoint eachWord (fuel : nat) (idx : list nat) (v : vm) : result vm :=
  match idx with
  | [] => Ok v
  | i :: idx' =>
      v ← processWord fuel (Some i) (set_wordIndex i v);
      eachWord fuel idx' v
  end.

(** [fuel] is the budget of each [processWord] loop. *)
Definition execute (fuel : nat) (p : prog) (input : list string) (v : vm)
  : result vm :=
  let v := set_input input (set_prog p v) in
  let v := makeThreadLists v in
  let v := set_matches [] v in
  let v := set_gen 1 v in
  let '(t, v) := alloc (mkThread 0 [] None) v in
  v ← addThread Current t v;
  v ← eachWord fuel (seq 0 (length input)) v;
  v ← processWord fuel None v;
  finishThreads fuel v.

(** *** Selecting matches *)

Definition items_len (m : match_) : Z := len (match_items m).

(** The first loop of [longestMatches]: [(count, mlen)] after each match. *)
Definition tally (acc : Z * Z) (m : match_) : Z * Z :=
  let '(count, mlen) := acc in
  if items_len m >? mlen then (1, items_len m)
  else if items_len m =? mlen then (count + 1, mlen)
  else (count, mlen).

(** The second loop: [matches[i] = m; i++] for the matches of length
    [mlen]. *)
Fixpoint collect (mlen : Z) (ms : list match_) (i : Z) (out : list match_)
  : result (list match_) :=
  match ms with
  | [] => Ok out
  | m :: ms' =>
      if items_len m =? mlen then
        _ ← index out i;
        collect mlen ms' (i + 1) (<[Z.to_nat i := m]> out)
      else collect mlen ms' i out
  end.

Definition longestMatches (v : vm) : result (list match_) :=
  let '(count, mlen) := foldl tally (0, 0) (vm_matches v) in
  if count <? 0 then Panic
  else collect mlen (vm_matches v) 0
         (replicate (Z.to_nat count) (mkMatch [] None)).

Definition maximalMatches (v : vm) : result (list match_) :=
  m ← longestMatches v;
  match m with
  | m0 :: _ =>
      if decide (items_len m0 ≠ len (vm_input v)) then Ok [] else Ok m
  | [] => Ok m
  end.

(** *** What the selection is meant to compute *)

(** The largest item count among the matches; 0 when there is none. *)
Definition max_items (ms : list match_) : Z :=
  foldr (λ m acc, Z.max (items_len m) acc) 0 ms.

(** The number of matches with exactly [k] items. *)
Fixpoint count_eq (k : Z) (ms : list match_) : Z :=
  match ms with
  | [] => 0
  | m :: ms' => (if decide (items_len m = k) then 1 else 0) + count_eq k ms'
  end.

End VM.

(** ** Runes and their encoding *)

Definition rune := Z.

Definition byte (z : Z) : ascii := ascii_of_N (Z.to_N z).

(** U+FFFD, which stands for a rune that cannot be encoded *)
Definition RuneError : string :=
  String (byte 239) (String (byte 191) (String (byte 189) EmptyString)).

(** What [bytes.Buffer.WriteRune(r)] appends, and what [%c] prints: the
    UTF-8 encoding of [r]. *)
Definition encodeRune (r : rune) : string :=
  if (0 <=? r) && (r <=? 127) then String (byte r) EmptyString
  else if (0 <=? r) && (r <=? 2047) then
    String (byte (Z.lor 192 (Z.shiftr r 6)))
      (String (byte (Z.lor 128 (Z.land r 63))) EmptyString)
  else if (r <? 0) || (1114111 <? r) || ((55296 <=? r) && (r <=? 57343))
  then RuneError
  else if r <=? 65535 then
    String (byte (Z.lor 224 (Z.shiftr r 12)))
      (String (byte (Z.lor 128 (Z.land (Z.shiftr r 6) 63)))
         (String (byte (Z.lor 128 (Z.land r 63))) EmptyString))
  else
    String (byte (Z.lor 240 (Z.shiftr r 18)))
      (String (byte (Z.lor 128 (Z.land (Z.shiftr r 12) 63)))
         (String (byte (Z.lor 128 (Z.land (Z.shiftr r 6) 63)))
            (String (byte (Z.lor 128 (Z.land r 63))) EmptyString))).

(** The string holding the runes [rs]. *)
Definition encode (rs : list rune) : string :=
  foldr (λ r s, encodeRune r +:+ s) EmptyString rs.

(** The runes of a literal of 7-bit characters, for writing inputs down. *)
Fixpoint runes (s : string) : list rune :=
  match s with
  | EmptyString => []
  | String a s' => Z.of_N (N_of_ascii a) :: runes s'
  end.

(** The double quote character. *)
Definition dquote : rune := 34.

(** [unicode.IsSpace]: the Latin-1 switch, then the White_Space table. *)
Definition IsSpace (r : rune) : bool :=
  if (0 <=? r) && (r <=? 255) then
    ((9 <=? r) && (r <=? 13)) || (r =? 32) || (r =? 133) || (r =? 160)
  else
    (r =? 5760) || ((8192 <=? r) && (r <=? 8202)) || (r =? 8232)
    || (r =? 8233) || (r =? 8239) || (r =? 8287) || (r =? 12288).

(** [unicode.IsLetter] and [unicode.IsDigit] decide the Latin-1 range by a
    fixed table and the rest by the Unicode tables Letter and Nd, which are
    parameters here. *)
Class Unicode : Type := {
  Letter : rune → bool;
  Digit : rune → bool
}.

Definition IsLetter `{Unicode} (r : rune) : bool :=
  if (0 <=? r) && (r <=? 255) then
    ((65 <=? r) && (r <=? 90)) || ((97 <=? r) && (r <=? 122))
    || (r =? 170) || (r =? 181) || (r =? 186)
    || ((192 <=? r) && (r <=? 214)) || ((216 <=? r) && (r <=? 246))
    || ((248 <=? r) && (r <=? 255))
  else Letter r.

Definition IsDigit `{Unicode} (r : rune) : bool :=
  if (0 <=? r) && (r <=? 255) then (48 <=? r) && (r <=? 57)
  else Digit r.

(** Tables with nothing beyond Latin-1, for running examples. *)
Definition latin1 : Unicode := {| Letter := λ _, false; Digit := λ _, false |}.

(** ** The user-input scanner (cmdparse.go) *)

Module CmdScanner.

(** [word] is the content of the [bytes.Buffer]. *)
Record cmdScanner : Type := mkCmdScanner {
  cmdScanner_word : string;
  cmdScanner_words : list string
}.

(** [var s cmdScanner] *)
Definition zero : cmdScanner := mkCmdScanner EmptyString [].

Definition addRuneToWord (r : rune) (t : cmdScanner) : cmdScanner :=
  mkCmdScanner (cmdScanner_word t +:+ encodeRune r) (cmdScanner_words t).

Definition wordIsEmpty (t : cmdScanner) : bool :=
  (String.length (cmdScanner_word t) =? 0)%nat.

Definition addWord (t : cmdScanner) : cmdScanner :=
  mkCmdScanner EmptyString (cmdScanner_words t ++ [cmdScanner_word t]).

Inductive state : Type := Default | InWord | WaitingForTerminator.

(** The loop variables of [innerTokenize]. *)
Record loop : Type := mkLoop {
  loop_state : state;
  loop_terminator : rune;
  loop_t : cmdScanner
}.

(** One turn of the loop, on rune [r]. *)
Definition step (l : loop) (r : rune) : loop :=
  let t := loop_t l in
  let terminator := loop_terminator l in
  match loop_state l with
  | Default =>
      if negb (IsSpace r) then
        if r =? dquote then mkLoop WaitingForTerminator dquote t
        else mkLoop InWord terminator (addRuneToWord r t)
      else l
  | InWord =>
      if IsSpace r then mkLoop Default terminator (addWord t)
      else mkLoop InWord terminator (addRuneToWord r t)
  | WaitingForTerminator =>
      if r =? terminator then mkLoop Default terminator (addWord t)
      else mkLoop WaitingForTerminator terminator (addRuneToWord r t)
  end.

Definition innerTokenize (rs : list rune) (t : cmdScanner) : cmdScanner :=
  let l := foldl step (mkLoop Default 0 t) rs in
  if negb (wordIsEmpty (loop_t l)) then addWord (loop_t l) else loop_t l.

(** [command] is given as [[]rune(command)]. *)
Definition Scan (command : list rune) : list string :=
  cmdScanner_words (innerTokenize command zero).

(** *** Notions for stating what the scanner does *)

(** The loop variables once the runes [rs] have gone by, from the start. *)
Definition after (rs : list rune) : loop :=
  foldl step (mkLoop Default 0 zero) rs.

(** The words [innerTokenize] leaves when its loop ends in [l]. *)
Definition finish_words (l : loop) : list string :=
  cmdScanner_words
    (if negb (wordIsEmpty (loop_t l)) then addWord (loop_t l) else loop_t l).

(** [l'] is [l] with the words [ws] collected beforehand; the terminator
    counts only inside a quoted region. *)
Definition similar (ws : list string) (l l' : loop) : Prop :=
  loop_state l' = loop_state l ∧
  cmdScanner_word (loop_t l') = cmdScanner_word (loop_t l) ∧
  cmdScanner_words (loop_t l') = ws ++ cmdScanner_words (loop_t l) ∧
  (loop_state l = WaitingForTerminator →
   loop_terminator l' = loop_terminator l).

(** After [rs] the scanner is between words: in its [Default] state. *)
Definition between_words (rs : list rune) : Prop :=
  loop_state (after rs) = Default.

(** [sub] occurs in [s]. *)
Fixpoint contains (s sub : string) : bool :=
  VM.HasPrefix s sub ||
  match s with
  | EmptyString => false
  | String _ s' => contains s' sub
  end.

(** The quoting rule read as holding wherever the opening quote stands:
    when the input has a quote, the characters up to the next quote sit
    together, white space included, in one of the words. *)
Definition quote_opens_anywhere (input : list rune) : Prop :=
  ∀ pre mid post,
    input = pre ++ dquote :: mid ++ dquote :: post →
    dquote ∉ pre → dquote ∉ mid →
    ∃ w, w ∈ Scan input ∧ contains w (encode mid) = true.

End CmdScanner.

(** ** The grammar lexer (scanner.go) *)

Inductive tokenType : Type :=
  | nilTok
  | lessThanTok
  | greaterThanTok
  | pipeTok
  | starTok
  | plusTok
  | questionTok
  | leftParenTok
  | rightParenTok
  | colonTok
  | wordTok.

#[global] Instance tokenType_eq_dec : EqDecision tokenType.
Proof. solve_decision. Defined.

Record token : Type := mkToken {
  token_typ : tokenType;
  token_value : string;
  token_pos : Z
}.

Definition nilToken : token := mkToken nilTok EmptyString 0.

(** [t.len()]: for a word, [len(t.value)] counts bytes. *)
Definition token_len (t : token) : Z :=
  if decide (token_typ t = wordTok) then Z.of_nat (String.length (token_value t))
  else 1.

Module Scanner.
Section WithTables.
Context `{Unicode}.

Record scanner : Type := mkScanner {
  scanner_pos : Z;
  scanner_input : list rune;
  scanner_tokens : list token;
  scanner_errs : list string
}.

(** [var s scanner] *)
Definition zero : scanner := mkScanner 0 [] [] [].

Definition set_pos (p : Z) (s : scanner) : scanner :=
  mkScanner p (scanner_input s) (scanner_tokens s) (scanner_errs s).

Definition atEnd (s : scanner) : bool :=
  len (scanner_input s) <=? scanner_pos s.

Definition isValidWordRune (r : rune) : bool :=
  IsLetter r || IsDigit r || (r =? 95) || (r =? 45).

(** What [next] hands back: a token, an error, or [io.EOF]. *)
Inductive item : Type :=
  | Tok (t : token)
  | Err (t : token) (msg : string)
  | EOF.

(** The loop of [word], once the first rune is known to be valid: [buf]
    holds the runes written so far and [r] is the rune under the cursor. *)
Fixpoint wordLoop (fuel : nat) (buf : string) (r : rune) (s : scanner)
  : result (token * scanner) :=
  match fuel with
  | O => Timeout
  | S fuel' =>
      if isValidWordRune r then
        let buf := buf +:+ encodeRune r in
        let s := set_pos (scanner_pos s + 1) s in
        if atEnd s then Ok (mkToken wordTok buf 0, s)
        else
          r ← index (scanner_input s) (scanner_pos s);
          wordLoop fuel' buf r s
      else Ok (mkToken wordTok buf 0, s)
  end.

Definition word (fuel : nat) (s : scanner) : result (item * scanner) :=
  r ← index (scanner_input s) (scanner_pos s);
  if negb (isValidWordRune r) then
    Ok (Err nilToken
          ("Invalid character '" +:+ encodeRune r +:+ "' encountered"),
        set_pos (scanner_pos s + 1) s)
  else
    '(t, s) ← wordLoop fuel EmptyString r s;
    Ok (Tok t, s).

(** The first loop of [next]: skip white space; [None] at the end of the
    input, else the rune under the cursor. *)
Fixpoint skipSpace (fuel : nat) (s : scanner)
  : result (option rune * scanner) :=
  match fuel with
  | O => Timeout
  | S fuel' =>
      if atEnd s then Ok (None, s)
      else
        r ← index (scanner_input s) (scanner_pos s);
        if negb (IsSpace r) then Ok (Some r, s)
        else skipSpace fuel' (set_pos (scanner_pos s + 1) s)
  end.

Definition punct (typ : tokenType) (s : scanner) : result (item * scanner) :=
  Ok (Tok (mkToken typ EmptyString (scanner_pos s)),
      set_pos (scanner_pos s + 1) s).

Definition next (fuel : nat) (s : scanner) : result (item * scanner) :=
  '(o, s) ← skipSpace fuel s;
  match o with
  | None => Ok (EOF, s)
  | Some r =>
      if r =? 60 then punct lessThanTok s
      else if r =? 62 then punct greaterThanTok s
      else if r =? 124 then punct pipeTok s
      else if r =? 42 then punct starTok s
      else if r =? 43 then punct plusTok s
      else if r =? 63 then punct questionTok s
      else if r =? 40 then punct leftParenTok s
      else if r =? 41 then punct rightParenTok s
      else if r =? 58 then punct colonTok s
      else
        let p := scanner_pos s in
        '(i, s) ← word fuel s;
        match i with
        | Tok t => Ok (Tok (mkToken (token_typ t) (token_value t) p), s)
        | _ => Ok (i, s)
        end
  end.

Definition addToken (t : token) (s : scanner) : scanner :=
  mkScanner (scanner_pos s) (scanner_input s) (scanner_tokens s ++ [t])
            (scanner_errs s).

Definition addError (e : string) (s : scanner) : scanner :=
  mkScanner (scanner_pos s) (scanner_input s) (scanner_tokens s)
            (scanner_errs s ++ [e]).

(** The loop of [Scan]. *)
Fixpoint scanLoop (fuel : nat) (inner : nat) (s : scanner) : result scanner :=
  match fuel with
  | O => Timeout
  | S fuel' =>
      '(i, s) ← next inner s;
      match i with
      | EOF => Ok s
      | Err t e => scanLoop fuel' inner (addToken t (addError e s))
      | Tok t => scanLoop fuel' inner (addToken t s)
      end
  end.

(** [cmd] is given as [[]rune(cmd)].  Every loop moves the cursor forward
    over the input, so a budget of one more than its length is enough for
    each. *)
Definition Scan (cmd : list rune) (s : scanner)
  : result (list token * bool * scanner) :=
  let s := mkScanner (scanner_pos s) cmd [] [] in
  s ← scanLoop (S (length cmd)) (S (length cmd)) s;
  Ok (scanner_tokens s, bool_decide (len (scanner_errs s) = 0), s).

End WithTables.
End Scanner.

(** ** The grammar parser (parser.go) *)

(** [%d] *)
Definition itoa (z : Z) : string := NilZero.string_of_int (Z.to_int z).

Module Parser.

Record parser : Type := mkParser {
  parser_tokens : list token;
  parser_errors : list string;
  parser_current : Z;
  parser_matchLimit : Z;
  parser_matchCalls : Z
}.

(** [var p parser] *)
Definition zero : parser := mkParser [] [] 0 0 0.

Definition set_current (c : Z) (p : parser) : parser :=
  mkParser (parser_tokens p) (parser_errors p) c (parser_matchLimit p)
           (parser_matchCalls p).
Definition set_matchCalls (c : Z) (p : parser) : parser :=
  mkParser (parser_tokens p) (parser_errors p) (parser_current p)
           (parser_matchLimit p) c.

Definition atEnd (p : parser) : bool :=
  len (parser_tokens p) <=? parser_current p.

Definition peek (p : parser) : result token :=
  index (parser_tokens p) (parser_current p).

Definition previous (p : parser) : result token :=
  index (parser_tokens p) (parser_current p - 1).

Definition advance (p : parser) : result (token * parser) :=
  let p := if negb (atEnd p) then set_current (parser_current p + 1) p
           else p in
  t ← previous p; Ok (t, p).

Definition check (typ : tokenType) (p : parser) : result bool :=
  if atEnd p then Ok false
  else t ← peek p; Ok (bool_decide (token_typ t = typ)).

(** The loop of [match] over the token types it is given. *)
Fixpoint matchAny (types : list tokenType) (p : parser)
  : result (bool * parser) :=
  match types with
  | [] => Ok (false, p)
  | t :: ts =>
      b ← check t p;
      if b : bool then '(_, p) ← advance p; Ok (true, p)
      else matchAny ts p
  end.

(** [match]; the debugging limit aborts with a panic once exceeded. *)
Definition match_ (types : list tokenType) (p : parser)
  : result (bool * parser) :=
  p ← (if 0 <? parser_matchLimit p then
         let p := set_matchCalls (parser_matchCalls p + 1) p in
         if parser_matchLimit p <? parser_matchCalls p then Panic else Ok p
       else Ok p);
  matchAny types p.

Definition runePosition (p : parser) : result Z :=
  if parser_current p =? 0 then Ok 1
  else t ← previous p; Ok (token_pos t + token_len t).

Definition addError (e : string) (p : parser) : parser :=
  mkParser (parser_tokens p) (parser_errors p ++ [e]) (parser_current p)
           (parser_matchLimit p) (parser_matchCalls p).

(** [fmt.Errorf("At character %d: %s", k, msg)] *)
Definition diagnostic (k : Z) (msg : string) : string :=
  "At character " +:+ itoa k +:+ ": " +:+ msg.

Definition addErrorAtPosition (msg : string) (p : parser) : result parser :=
  rp ← runePosition p;
  Ok (addError (diagnostic (rp + 1) msg) p).

Definition Word (p : parser) : result (node * parser) :=
  '(b, p) ← match_ [wordTok] p;
  if negb b then Ok (nilNode, p)
  else t ← previous p; Ok (word (token_value t), p).

(** [string(n.(word))] *)
Definition asWord (n : node) : result string :=
  match n with
  | word s => Ok s
  | _ => Panic
  end.

Definition Var (p : parser) : result (node * parser) :=
  '(b, p) ← match_ [lessThanTok] p;
  if negb b then Ok (nilNode, p)
  else
    '(name, p) ← Word p;
    match name with
    | nilNode =>
        p ← addErrorAtPosition "expected variable name after <" p;
        Ok (nilNode, p)
    | _ =>
        '(hasColon, p) ← match_ [colonTok] p;
        '(typ, p) ←
          (if negb hasColon then Ok (Some "str"%string, p)
           else
             '(w, p) ← Word p;
             match w with
             | nilNode =>
                 p ← addErrorAtPosition "expected variable type after :" p;
                 Ok (None, p)
             | _ => s ← asWord w; Ok (Some s, p)
             end);
        match typ with
        | None => Ok (nilNode, p)
        | Some typ =>
            '(b, p) ← match_ [greaterThanTok] p;
            if negb b then
              p ← (if hasColon : bool then
                     addErrorAtPosition
                       "expected > to complete variable definition" p
                   else
                     addErrorAtPosition
                       "expected either : to specify variable type, or > to complete variable definition"
                       p);
              Ok (nilNode, p)
            else n ← asWord name; Ok (variable n typ, p)
        end
    end.

Definition Term (p : parser) : result (node * parser) :=
  '(r, p) ← Var p;
  match r with
  | nilNode => Word p
  | _ => Ok (r, p)
  end.

(** The four mutually recursive productions.  [fuel] bounds the depth of
    the recursion. *)
Fixpoint Alternatives (fuel : nat) (p : parser) : result (node * parser) :=
  match fuel with
  | O => Timeout
  | S fuel' =>
      '(l, p) ← Terms fuel' p;
      '(b, p) ← match_ [pipeTok] p;
      '(r, p) ←
        (if b : bool then
           '(r, p) ← Alternatives fuel' p;
           match r with
           | nilNode =>
               p ← addErrorAtPosition "expected more tokens after the |" p;
               Ok (r, p)
           | _ => Ok (r, p)
           end
         else Ok (nilNode, p));
      match r with
      | nilNode => Ok (l, p)
      | _ => Ok (alts l r, p)
      end
  end
with Terms (fuel : nat) (p : parser) : result (node * parser) :=
  match fuel with
  | O => Timeout
  | S fuel' =>
      '(l, p) ← Repetition fuel' p;
      match l with
      | nilNode => Ok (nilNode, p)
      | _ =>
          '(r, p) ←
            (if negb (atEnd p) then Terms fuel' p else Ok (nilNode, p));
          match r with
          | nilNode => Ok (l, p)
          | _ => Ok (terms l r, p)
          end
      end
  end
with Repetition (fuel : nat) (p : parser) : result (node * parser) :=
  match fuel with
  | O => Timeout
  | S fuel' =>
      '(t, p) ← Group fuel' p;
      match t with
      | nilNode => Ok (nilNode, p)
      | _ =>
          '(b, p) ← match_ [starTok; plusTok; questionTok] p;
          if b : bool then
            prev ← previous p;
            let op :=
              match token_typ prev with
              | starTok => repeatZeroOrMore
              | plusTok => repeatOneOrMore
              | questionTok => repeatZeroOrOne
              | _ => repeatUnset
              end in
            Ok (rep op t, p)
          else Ok (t, p)
      end
  end
with Group (fuel : nat) (p : parser) : result (node * parser) :=
  match fuel with
  | O => Timeout
  | S fuel' =>
      '(b, p) ← match_ [leftParenTok] p;
      if b : bool then
        '(res, p) ← Alternatives fuel' p;
        '(b, p) ← match_ [rightParenTok] p;
        p ← (if negb b then
               addErrorAtPosition "expected ) to close the group" p
             else Ok p);
        Ok (res, p)
      else Term p
  end.

Definition Command (fuel : nat) (p : parser) : result (node * parser) :=
  Alternatives fuel p.

(** [p.errors.nilIfEmpty()] *)
Definition nilIfEmpty (errs : list string) : option (list string) :=
  if decide (len errs = 0) then None else Some errs.

Definition parse (fuel : nat) (p : parser)
  : result (node * option (list string) * parser) :=
  '(tree, p) ← Command fuel p;
  p ← (if negb (atEnd p) then
         addErrorAtPosition "extra tokens after end of command" p
       else Ok p);
  Ok (tree, nilIfEmpty (parser_errors p), p).

(** Four levels of recursion go by for every token consumed. *)
Definition depth (tokens : list token) : nat := (4 * length tokens + 4)%nat.

Definition Parse (tokens : list token) (p : parser)
  : result (node * option (list string) * parser) :=
  let p := mkParser tokens [] 0 (parser_matchLimit p) (parser_matchCalls p) in
  parse (depth tokens) p.

(** *** Notions for stating what the parser does *)

(** The number a diagnostic carries when it is recorded with [current = c]:
    one more than [runePosition]. *)
Definition K (tokens : list token) (c : Z) : Z :=
  (if c =? 0 then 1
   else match tokens !! Z.to_nat (c - 1) with
        | Some t => token_pos t + token_len t
        | None => 0
        end) + 1.

(** The cursor is inside the token list or at its end. *)
Definition wf (p : parser) : Prop :=
  0 ≤ parser_current p ≤ len (parser_tokens p).

(** [e] is a diagnostic recorded with the cursor somewhere in [lo..hi]. *)
Definition recorded (tokens : list token) (lo hi : Z) (e : string) : Prop :=
  ∃ c msg, lo ≤ c ≤ hi ∧ e = diagnostic (K tokens c) msg.

(** From [p] to [p']: the same tokens and limit, the cursor moved forward,
    diagnostics appended. *)
Definition steps (p p' : parser) : Prop :=
  parser_tokens p' = parser_tokens p ∧
  parser_matchLimit p' = parser_matchLimit p ∧
  parser_current p ≤ parser_current p' ∧
  wf p' ∧
  ∃ new, parser_errors p' = parser_errors p ++ new ∧
         Forall (recorded (parser_tokens p) (parser_current p)
                          (parser_current p')) new.

(** The trees the parser builds hold no [meta] node. *)
Fixpoint no_meta (t : node) : Prop :=
  match t with
  | meta _ _ => False
  | alts l r | terms l r => no_meta l ∧ no_meta r
  | rep _ t' => no_meta t'
  | nilNode | word _ | variable _ _ => True
  end.

(** The tokens not yet consumed. *)
Definition remaining (p : parser) : nat :=
  Z.to_nat (len (parser_tokens p) - parser_current p).

(** What a production started in [p] with [fuel] may end in: a tree and a
    later state, the cursor moved if the tree is not nil; a panic, only
    with the debugging limit set; or the depth bound hit, only if it was
    below [4 * remaining p + k]. *)
Definition returns (k fuel : nat) (p : parser) (r : result (node * parser))
  : Prop :=
  match r with
  | Ok (t, p') =>
      steps p p' ∧ no_meta t ∧
      (t ≠ nilNode → parser_current p < parser_current p')
  | Panic => 0 < parser_matchLimit p
  | Timeout => (fuel < 4 * remaining p + k)%nat
  end.

(** The same for the productions that do not recurse: they always come
    back. *)
Definition finishes (p : parser) (r : result (node * parser)) : Prop :=
  match r with
  | Ok (t, p') =>
      steps p p' ∧ no_meta t ∧
      (t ≠ nilNode → parser_current p < parser_current p')
  | Panic => 0 < parser_matchLimit p
  | Timeout => False
  end.

(** The diagnostic positions as the specification words them: 1 when no
    token has been consumed. *)
Definition K_claimed (tokens : list token) (c : Z) : Z :=
  if c =? 0 then 1 else K tokens c.

Definition diagnostics_as_claimed (tokens : list token) : Prop :=
  ∀ tree err p,
    Parse tokens zero = Ok (tree, err, p) →
    Forall (λ e, ∃ c msg, 0 ≤ c ≤ parser_current p ∧
                          e = diagnostic (K_claimed tokens c) msg)
           (parser_errors p).

End Parser.

(** ** The facade (cmdparse.go) *)

Module Cmds.
Section WithTables.
Context `{Unicode}.

(** The two error types [Add] can return. *)
Inductive error : Type :=
  | ScanError (errs : list string)
  | Errors (errs : list string).

(** [trace] records whether a trace writer is set. *)
Record Cmds : Type := mkCmds {
  Cmds_parseTree : node;
  Cmds_prog : prog;
  Cmds_trace : bool
}.

(** [var cmds Cmds] *)
Definition zero : Cmds := mkCmds nilNode [] false.

Definition scanAndParse (cmd : list rune) : result (node * option error) :=
  '(tokens, ok, s) ← Scanner.Scan cmd Scanner.zero;
  if negb ok then Ok (nilNode, Some (ScanError (Scanner.scanner_errs s)))
  else
    '(tree, err, _) ← Parser.Parse tokens Parser.zero;
    match err with
    | Some errs => Ok (tree, Some (Errors errs))
    | None => Ok (tree, None)
    end.

Definition addParseTree (tree : node) (cback : Callback) (c : Cmds) : Cmds :=
  let m := meta (Some cback) tree in
  match Cmds_parseTree c with
  | nilNode => mkCmds m (Cmds_prog c) (Cmds_trace c)
  | t => mkCmds (alts m t) (Cmds_prog c) (Cmds_trace c)
  end.

Definition Add (cmd : list rune) (cback : Callback) (c : Cmds)
  : result (option error * Cmds) :=
  '(t, err) ← scanAndParse cmd;
  match err with
  | Some e => Ok (Some e, c)
  | None => Ok (None, addParseTree t cback c)
  end.

Definition Compile (c : Cmds) : result Cmds :=
  cmp ← Compiler.compile (Cmds_parseTree c) Compiler.zero;
  Ok (mkCmds (Cmds_parseTree c) (Compiler.prog_of cmp) (Cmds_trace c)).

Definition TraceExecutionTo (w : bool) (c : Cmds) : Cmds :=
  mkCmds (Cmds_parseTree c) (Cmds_prog c) w.

(** One call of a callback: the callback, the match and the context it is
    given. *)
Record call : Type := mkCall {
  call_cback : Callback;
  call_match : VM.match_;
  call_ctx : nat
}.

(** [Parse] returns [ok] and, here, the calls it has made.  [fuel] is the
    budget of the VM's loops. *)
Definition Parse (fuel : nat) (cmd : list rune) (ctx : nat) (c : Cmds)
  : result (bool * list call) :=
  let toks := CmdScanner.Scan cmd in
  v ← VM.execute fuel (Cmds_prog c) toks (VM.zero (Cmds_trace c));
  mms ← VM.maximalMatches v;
  if decide (len mms ≠ 1) then Ok (false, [])
  else
    mms ← VM.maximalMatches v;
    mm ← index mms 0;
    match VM.match_meta mm with
    | Some cback => Ok (true, [mkCall cback mm ctx])
    | None => Panic (* mm.meta.(Callback) on a nil interface *)
    end.

(** [cmdMatch.Var] and [cmdMatch.KeywordPresent] *)
Definition Var (name : string) (m : VM.match_) : list VM.item :=
  List.filter (λ w, match w with
                    | VM.VarValue n _ _ => bool_decide (n = name)
                    | _ => false
                    end) (VM.match_items m).

Definition KeywordPresent (name : string) (m : VM.match_) : bool :=
  existsb (λ w, match w with
                | VM.keywordValue n _ => bool_decide (n = name)
                | _ => false
                end) (VM.match_items m).

End WithTables.
End Cmds.

(** ** A grammar on which the VM does not come back *)

Module Loop.
Import VM.

(** The tree of the grammar [(a?)*]. *)
Definition loop_tree : node :=
  rep repeatZeroOrMore (rep repeatZeroOrOne (word "a")).

(** Its program, once registered with callback [cb]. *)
Definition loop_prog (cb : Callback) : prog :=
  [ mkInstr opMeta 0 0 "" "" (Some cb) 0;
    mkInstr opSplit 2 5 "" "" None 0;
    mkInstr opSplit 3 4 "" "" None 0;
    mkInstr opCmp 0 0 "a" "" None 0;
    mkInstr opJmp 1 0 "" "" None 0;
    mkInstr opMatch 0 0 "" "" None 0 ].

(** A thread object of a run with no input word: inside the program and
    without bindings. *)
Definition tame (th : thread) : Prop :=
  thread_items th = [] ∧ 0 ≤ thread_pc th ≤ 5.

(** The addresses from which a thread comes round to the JMP again. *)
Definition live (pc : Z) : Prop := pc = 0 ∨ pc = 1 ∨ pc = 2 ∨ pc = 4.

(** The state of the loop of [processWord] at index [i] while it goes
    round: some entry still to be processed holds a live thread. *)
Definition looping (cb : Callback) (i : nat) (v : vm) : Prop :=
  vm_prog v = loop_prog cb ∧
  vm_gen v = 2 ∧
  vm_traceWriter v = false ∧
  Forall tame (vm_heap v) ∧
  Forall (λ t, (t < length (vm_heap v))%nat) (vm_currentThreads v) ∧
  ∃ j t th, (i ≤ j)%nat ∧ vm_currentThreads v !! j = Some t ∧
            vm_heap v !! t = Some th ∧ live (thread_pc th).

End Loop.

(** ** Registered command sets *)

Module Dispatch.
Import VM.

(** The parse trees [Add] accumulates: the tree of the latest command under
    its [meta], as the whole tree or as the left branch over the older
    ones.  The trees of the commands come from the parser. *)
Inductive registered : node → Prop :=
  | registered_one cb t :
      Parser.no_meta t → registered (meta (Some cb) t)
  | registered_more cb t rest :
      Parser.no_meta t → registered rest →
      registered (alts (meta (Some cb) t) rest).

(** [Add] called for each command in turn, its error dropped as a caller
    that goes on to [Compile] drops it. *)
Fixpoint AddAll `{Unicode} (cmds : list (list rune * Callback))
    (c : Cmds.Cmds) : result Cmds.Cmds :=
  match cmds with
  | [] => Ok c
  | (cmd, cback) :: rest =>
      '(_, c) ← Cmds.Add cmd cback c; AddAll rest c
  end.

(** Every [meta] node carries a payload. *)
Fixpoint metas_some (t : node) : Prop :=
  match t with
  | meta d t' => d ≠ None ∧ metas_some t'
  | alts l r | terms l r => metas_some l ∧ metas_some r
  | rep _ t' => metas_some t'
  | nilNode | word _ | variable _ _ => True
  end.

(** The addresses, in the code of a registered tree placed at [p], of the
    SPLITs that choose between the commands and of the METAs that open
    them. *)
Fixpoint header (t : node) (p : Z) (pc : Z) : Prop :=
  match t with
  | alts (meta _ b) rest =>
      pc = p ∨ pc = p + 1 ∨ header rest (p + 3 + count b) pc
  | meta _ _ => pc = p
  | _ => False
  end.

(** What [Add] leaves in [parseTree]: nothing yet, or a registered tree. *)
Definition registered_set (t : node) : Prop := t = nilNode ∨ registered t.

(** A META instruction has a payload. *)
Definition payload_ok (x : instr) : Prop :=
  instr_opcode x = opMeta → instr_intf x ≠ None.

(** A program in which a thread cannot reach a CMP, a SAVE, a JMP or the
    MATCH without having gone through a META with a payload: from the
    addresses [G] only SPLITs into [G] and METAs are met, and every META
    has a payload. *)
Definition guarded (P : prog) (G : Z → Prop) : Prop :=
  (∀ pc x, 0 ≤ pc → P !! Z.to_nat pc = Some x →
           instr_opcode x = opMeta → instr_intf x ≠ None) ∧
  (∀ pc x, 0 ≤ pc → G pc → P !! Z.to_nat pc = Some x →
           (instr_opcode x = opSplit ∧ G (instr_ints0 x) ∧
            G (instr_ints1 x)) ∨
           instr_opcode x = opMeta).

(** A thread without a payload is still at one of the addresses [G]. *)
Definition carrying (G : Z → Prop) (th : thread) : Prop :=
  thread_meta th = None → G (thread_pc th).

Definition has_payload (m : match_) : Prop := match_meta m ≠ None.

(** The invariant of a run on a guarded program. *)
Definition dispatchable (G : Z → Prop) (v : vm) : Prop :=
  guarded (vm_prog v) G ∧
  Forall (carrying G) (vm_heap v) ∧
  Forall has_payload (vm_matches v).

End Dispatch.

(** ** Notions for the runs of the VM *)

Module Safety.
Import VM.

(** Every address an instruction of [P] sends a thread to is an address
    of [P]. *)
Definition targets_ok (P : prog) : Prop :=
  ∀ pc x, 0 ≤ pc → P !! Z.to_nat pc = Some x →
    match instr_opcode x with
    | opSplit => 0 ≤ instr_ints0 x < len P ∧ 0 ≤ instr_ints1 x < len P
    | opJmp => 0 ≤ instr_ints0 x < len P
    | opCmp | opSave | opMeta => pc + 1 < len P
    | opNop | opMatch => True
    end.

(** The targets of a SPLIT or a JMP lie between [lo] and [hi]. *)
Definition within (lo hi : Z) (x : instr) : Prop :=
  match instr_opcode x with
  | opSplit => lo ≤ instr_ints0 x ≤ hi ∧ lo ≤ instr_ints1 x ≤ hi
  | opJmp => lo ≤ instr_ints0 x ≤ hi
  | _ => True
  end.

(** No thread is waiting on either list. *)
Definition idle (v : vm) : Prop :=
  vm_currentThreads v = [] ∧ vm_nextThreads v = [].

(** A binding points at a CMP or SAVE of [P] and at a word of the input. *)
Definition binding_ok (P : prog) (input : list string) (b : binding) : Prop :=
  0 ≤ binding_instr b ∧
  (∃ x, P !! Z.to_nat (binding_instr b) = Some x ∧
        (instr_opcode x = opCmp ∨ instr_opcode x = opSave)) ∧
  (binding_val b < length input)%nat.

Definition thread_ok (P : prog) (input : list string) (th : thread) : Prop :=
  0 ≤ thread_pc th < len P ∧ Forall (binding_ok P input) (thread_items th).

(** With a trace writer set, [trace] and [traceBind] read
    [input[wordIndex]]. *)
Definition traceable (v : vm) : Prop :=
  vm_traceWriter v = true → (vm_wordIndex v < length (vm_input v))%nat.

(** The state of a run of [P] on [input] in which nothing dangles. *)
Definition sound (P : prog) (input : list string) (v : vm) : Prop :=
  vm_prog v = P ∧ vm_input v = input ∧ traceable v ∧
  Forall (thread_ok P input) (vm_heap v) ∧
  Forall (λ t, (t < length (vm_heap v))%nat) (vm_currentThreads v) ∧
  Forall (λ t, (t < length (vm_heap v))%nat) (vm_nextThreads v).

(** The word handed to [processWord]: nil, or a pointer into the input. *)
Definition word_ok (input : list string) (w : option nat) : Prop :=
  match w with
  | None => True
  | Some i => (i < length input)%nat
  end.

(** The outcome of a loop that may run out of budget but does not panic,
    and ends in a state satisfying [Q] when it comes back. *)
Definition safely {A : Type} (Q : A → Prop) (r : result A) : Prop :=
  match r with
  | Ok a => Q a
  | Panic => False
  | Timeout => True
  end.

(** What a run never writes: the program, the input and the trace
    writer. *)
Definition same_setup (v v' : vm) : Prop :=
  vm_prog v' = vm_prog v ∧ vm_input v' = vm_input v ∧
  vm_traceWriter v' = vm_traceWriter v.

(** The threads still to be run in this step, from index [i] of the
    current list on, and those put aside for the next word. *)
Definition waiting (i : nat) (v : vm) : list nat :=
  drop i (vm_currentThreads v) ++ vm_nextThreads v.

(** The thread object at [t] holds [n] bindings. *)
Definition holds (n : nat) (v : vm) (t : nat) : Prop :=
  ∃ th, vm_heap v !! t = Some th ∧ length (thread_items th) = n.

(** After [k] words, with the current list run up to index [i]: no thread
    object waits twice, those still to be run hold [k] bindings, those put
    aside hold [k + 1], and no match recorded so far has more than [k]
    items. *)
Record counted (k i : nat) (v : vm) : Prop := {
  ct_pos : (i ≤ length (vm_currentThreads v))%nat;
  ct_nodup : NoDup (waiting i v);
  ct_cur : ∀ t, t ∈ drop i (vm_currentThreads v) → holds k v t;
  ct_next : ∀ t, t ∈ vm_nextThreads v → holds (S k) v t;
  ct_matches : Forall (λ m, (length (match_items m) ≤ k)%nat) (vm_matches v)
}.

(** [execute] up to, and without, its last statement, the call of
    [finishThreads]. *)
Definition executeWords (fuel : nat) (p : prog) (input : list string) (v : vm)
  : result vm :=
  let v := set_input input (set_prog p v) in
  let v := makeThreadLists v in
  let v := set_matches [] v in
  let v := set_gen 1 v in
  let '(t, v) := alloc (mkThread 0 [] None) v in
  v ← addThread Current t v;
  v ← eachWord fuel (seq 0 (length input)) v;
  processWord fuel None v.

End Safety.

(** ** Notions for the grammar lexer *)

Module Lexing.
Section WithTables.
Context `{Unicode}.
Import Scanner.

(** The nine characters the [switch] of [next] turns into tokens. *)
Definition isPunct (r : rune) : bool :=
  (r =? 60) || (r =? 62) || (r =? 124) || (r =? 42) || (r =? 43)
  || (r =? 63) || (r =? 40) || (r =? 41) || (r =? 58).

(** A rune no branch of the lexer takes: not white space, not one of the
    nine, not a rune of a word. *)
Definition invalid (r : rune) : bool :=
  negb (IsSpace r) && negb (isPunct r) && negb (isValidWordRune r).

Definition invalidMessage (r : rune) : string :=
  "Invalid character '" +:+ encodeRune r +:+ "' encountered".

(** The runes from the cursor on. *)
Definition ahead (s : scanner) : list rune :=
  drop (Z.to_nat (scanner_pos s)) (scanner_input s).

Definition isNilTok (t : token) : bool := bool_decide (token_typ t = nilTok).

(** What one call of [next] does, by what it returns. *)
Definition nextSpec (s : scanner) (i : item) (s' : scanner) : Prop :=
  match i with
  | EOF =>
      ahead s' = [] ∧ filter (λ r, invalid r = true) (ahead s) = []
  | Tok t =>
      token_typ t ≠ nilTok ∧
      (length (ahead s') < length (ahead s))%nat ∧
      filter (λ r, invalid r = true) (ahead s)
      = filter (λ r, invalid r = true) (ahead s')
  | Err t e =>
      t = nilToken ∧
      (length (ahead s') < length (ahead s))%nat ∧
      ∃ r, e = invalidMessage r ∧
           filter (λ r, invalid r = true) (ahead s)
           = r :: filter (λ r, invalid r = true) (ahead s')
  end.

End WithTables.
End Lexing.

(** ** Notions for the user-input scanner *)

Module Words.
Import CmdScanner.

(** The words written one after the other. *)
Definition joined (ws : list string) : string :=
  foldr (λ w s, w +:+ s) EmptyString ws.

(** What holds of the loop variables on an input without quotes: the
    scanner is never inside a quoted region, the buffer is empty exactly
    between words, and no collected word is empty. *)
Definition unquoted (l : loop) : Prop :=
  match loop_state l with
  | Default => cmdScanner_word (loop_t l) = EmptyString
  | InWord => cmdScanner_word (loop_t l) ≠ EmptyString
  | WaitingForTerminator => False
  end ∧
  Forall (λ w, w ≠ EmptyString) (cmdScanner_words (loop_t l)).

(** All that the scanner has kept: the collected words, then the buffer. *)
Definition kept (l : loop) : string :=
  joined (cmdScanner_words (loop_t l)) +:+ cmdScanner_word (loop_t l).

End Words.

(** * Part II: properties *)

Lemma bind_Ok {A B} (a : A) (f : A → result B) : (Ok a ≫= f) = f a.
Proof. done. Qed.

Lemma bind_inv {A B} (m : result A) (f : A → result B) (b : B) :
  (m ≫= f) = Ok b → ∃ a, m = Ok a ∧ f a = Ok b.
Proof. destruct m as [a| |]; simpl; intros E; try done. by exists a. Qed.

Module CompilerFacts.
Import Compiler CompilerSpec.

Lemma count_nonneg t : 0 ≤ count t.
Proof.
  induction t as [| | | op t IH | | |]; simpl; try lia.
  destruct op; lia.
Qed.

Lemma countinstr_compilable t : compilable t → countinstr t = Ok (count t).
Proof.
  induction t as [|l IHl r IHr|l IHl r IHr|op t IH| | |d t IH];
    simpl; intros H; try done.
  - destruct H as [Hl Hr]. by rewrite (IHl Hl), (IHr Hr).
  - destruct H as [Hl Hr]. by rewrite (IHl Hl), (IHr Hr).
  - destruct op; try done; rewrite (IH H); simpl; f_equal; lia.
  - by rewrite (IH H).
Qed.

Lemma countinstr_Ok t n : countinstr t = Ok n → compilable t ∧ n = count t.
Proof.
  revert n. induction t as [|l IHl r IHr|l IHl r IHr|op t IH| | |d t IH];
    simpl; intros n H; try (split; [done|congruence]).
  - destruct (countinstr l) as [nl| |]; simpl in H; try discriminate.
    destruct (countinstr r) as [nr| |]; simpl in H; try discriminate.
    destruct (IHl nl eq_refl) as [? ->], (IHr nr eq_refl) as [? ->].
    split; [done|congruence].
  - destruct (countinstr l) as [nl| |]; simpl in H; try discriminate.
    destruct (countinstr r) as [nr| |]; simpl in H; try discriminate.
    destruct (IHl nl eq_refl) as [? ->], (IHr nr eq_refl) as [? ->].
    split; [done|congruence].
  - destruct op; simpl in H; try (split; [done|congruence]);
      destruct (countinstr t) as [m| |]; simpl in H; try discriminate;
      destruct (IH m eq_refl) as [? ->]; (split; [done|]);
      injection H as <-; lia.
  - destruct (countinstr t) as [m| |]; simpl in H; try discriminate.
    destruct (IH m eq_refl) as [? ->]. split; [done|congruence].
Qed.

Lemma ast_compilable t : ast t → compilable t.
Proof.
  induction t as [|l IHl r IHr|l IHl r IHr|op t IH| | |d t IH];
    simpl; try tauto.
  intros [Hop Ht]. destruct op; tauto.
Qed.

Lemma get_poke_eq j f c : get (poke j f c) j = f <$> get c j.
Proof. unfold get, poke; simpl. apply list_lookup_alter_eq. Qed.

Lemma get_poke_ne j f c i :
  0 ≤ i → 0 ≤ j → i ≠ j → get (poke j f c) i = get c i.
Proof.
  intros Hi Hj Hne. unfold get, poke; simpl.
  apply list_lookup_alter_ne. lia.
Qed.

Lemma get_incr_pc c i : get (incr_pc c) i = get c i.
Proof. done. Qed.

Lemma pc_poke j f c : compiler_pc (poke j f c) = compiler_pc c.
Proof. done. Qed.

Lemma pc_incr_pc c : compiler_pc (incr_pc c) = compiler_pc c + 1.
Proof. done. Qed.

Lemma length_poke j f c :
  length (compiler_instr (poke j f c)) = length (compiler_instr c).
Proof. unfold poke; simpl. apply length_alter. Qed.

Lemma instr_incr_pc c : compiler_instr (incr_pc c) = compiler_instr c.
Proof. done. Qed.

Lemma addr_ok c i :
  0 ≤ i < len (compiler_instr c) → addr c i = Ok i.
Proof.
  intros [H0 H1]. unfold addr, index, len in *.
  destruct (Z.ltb_spec i 0); [lia|].
  destruct (lookup_lt_is_Some_2 (compiler_instr c) (Z.to_nat i)) as [x Hx];
    [lia|]. by rewrite Hx.
Qed.

Lemma get_is_Some c i :
  0 ≤ i < len (compiler_instr c) → ∃ x, get c i = Some x.
Proof.
  intros [H0 H1]. unfold get, len in *.
  destruct (lookup_lt_is_Some_2 (compiler_instr c) (Z.to_nat i)) as [x Hx];
    [lia|]. eauto.
Qed.

Lemma instr_at_ext P P' i Q :
  P' !! Z.to_nat i = P !! Z.to_nat i → instr_at P i Q → instr_at P' i Q.
Proof. intros E [H0 (x & Hx & HQ)]. split; [done|]. exists x. by rewrite E. Qed.

Lemma code_at_ext P P' t : ∀ p,
  0 ≤ p →
  (∀ i, p ≤ i < p + count t → P' !! Z.to_nat i = P !! Z.to_nat i) →
  code_at P t p → code_at P' t p.
Proof.
  induction t as [|l IHl r IHr|l IHl r IHr|op t IH| | |d t IH];
    simpl; intros p Hp E H; try done.
  - pose proof (count_nonneg l) as Nl. pose proof (count_nonneg r) as Nr.
    destruct H as (H1 & H2 & H3 & H4). split_and!.
    + eapply instr_at_ext; [|done]. apply E. lia.
    + eapply IHl; [lia| |done]. intros i Hi. apply E. lia.
    + eapply instr_at_ext; [|done]. apply E. lia.
    + eapply IHr; [lia| |done]. intros i Hi. apply E. lia.
  - pose proof (count_nonneg l) as Nl. pose proof (count_nonneg r) as Nr.
    destruct H as (H1 & H2). split.
    + eapply IHl; [lia| |done]. intros i Hi. apply E. lia.
    + eapply IHr; [lia| |done]. intros i Hi. apply E. lia.
  - pose proof (count_nonneg t) as Nt. destruct op; try done.
    + destruct H as (H1 & H2 & H3). split_and!.
      * eapply instr_at_ext; [|done]. apply E. lia.
      * eapply IH; [lia| |done]. intros i Hi. apply E. lia.
      * eapply instr_at_ext; [|done]. apply E. lia.
    + destruct H as (H1 & H2). split.
      * eapply IH; [lia| |done]. intros i Hi. apply E. lia.
      * eapply instr_at_ext; [|done]. apply E. lia.
    + destruct H as (H1 & H2). split.
      * eapply instr_at_ext; [|done]. apply E. lia.
      * eapply IH; [lia| |done]. intros i Hi. apply E. lia.
  - eapply instr_at_ext; [|done]. apply E. lia.
  - eapply instr_at_ext; [|done]. apply E. lia.
  - pose proof (count_nonneg t) as Nt. destruct H as (H1 & H2). split.
    + eapply instr_at_ext; [|done]. apply E. lia.
    + eapply IH; [lia| |done]. intros i Hi. apply E. lia.
Qed.

Lemma gens_alter f i (l : list instr) :
  keeps_gen f → instr_gen <$> alter f i l = instr_gen <$> l.
Proof.
  intros Hf. revert i. induction l as [|x l IH]; intros [|i]; simpl; try done.
  - by rewrite Hf.
  - f_equal. apply IH.
Qed.

Lemma gens_poke j f c :
  keeps_gen f →
  instr_gen <$> compiler_instr (poke j f c) = instr_gen <$> compiler_instr c.
Proof. intros Hf. unfold poke; simpl. by apply gens_alter. Qed.


#[local] Arguments poke : simpl never.
#[local] Arguments incr_pc : simpl never.
#[local] Arguments get : simpl never.
#[local] Arguments addr : simpl never.

Lemma keeps_gen_opcode o : keeps_gen (set_opcode o).
Proof. done. Qed.
Lemma keeps_gen_ints0 a : keeps_gen (set_ints0 a).
Proof. done. Qed.
Lemma keeps_gen_ints1 a : keeps_gen (set_ints1 a).
Proof. done. Qed.
Lemma keeps_gen_strs0 a : keeps_gen (set_strs0 a).
Proof. done. Qed.
Lemma keeps_gen_strs1 a : keeps_gen (set_strs1 a).
Proof. done. Qed.
Lemma keeps_gen_intf a : keeps_gen (set_intf a).
Proof. done. Qed.

#[local] Hint Resolve keeps_gen_opcode keeps_gen_ints0 keeps_gen_ints1
  keeps_gen_strs0 keeps_gen_strs1 keeps_gen_intf : core.

Lemma instr_at_get c i Q x :
  0 ≤ i → get c i = Some x → Q x → instr_at (compiler_instr c) i Q.
Proof. intros H0 Hx HQ. split; [done|]. by exists x. Qed.

Lemma code_at_frame t c c' p :
  0 ≤ p →
  (∀ i, p ≤ i < p + count t → get c' i = get c i) →
  code_at (compiler_instr c) t p → code_at (compiler_instr c') t p.
Proof. intros Hp E. apply code_at_ext; [done|]. intros i Hi. by apply E. Qed.

(** Normalise reads of the instruction slice after a run of writes. *)
Ltac pcs :=
  repeat progress
    (rewrite ?pc_incr_pc, ?pc_poke, ?instr_incr_pc, ?length_poke in * ).
Ltac gens :=
  repeat match goal with
  | H : context [instr_gen <$> compiler_instr (poke _ _ _)] |- _ =>
      rewrite gens_poke in H by auto
  | H : context [compiler_instr (incr_pc _)] |- _ =>
      rewrite instr_incr_pc in H
  | |- context [instr_gen <$> compiler_instr (poke _ _ _)] =>
      rewrite gens_poke by auto
  | |- context [compiler_instr (incr_pc _)] =>
      rewrite instr_incr_pc
  end.
Ltac reads :=
  repeat first
    [ rewrite get_incr_pc
    | rewrite get_poke_eq
    | rewrite get_poke_ne by lia ].

Ltac shape :=
  unfold is_split, is_jmp, is_cmp, is_save, is_meta; simpl;
  split_and!; first [done | lia].

Lemma emit_spec t : ∀ c,
  compilable t →
  0 ≤ compiler_pc c →
  compiler_pc c + count t ≤ len (compiler_instr c) →
  ∃ c', emit t c = Ok c' ∧ emitted t c c'.
Proof.
  induction t as [|l IHl r IHr|l IHl r IHr|op t IH|w|nm ty|d t IH];
    intros c Hc Hp Hlen; unfold len in *; simpl in Hc, Hlen.
  - done.
  - (* alts *)
    destruct Hc as [Cl Cr].
    pose proof (count_nonneg l) as Nl. pose proof (count_nonneg r) as Nr.
    simpl. unfold emitAlts.
    rewrite addr_ok by (unfold len; lia). rewrite bind_Ok. cbv zeta.
    destruct (get_is_Some c (compiler_pc c)) as [x0 Hx0]; [unfold len; lia|].
    edestruct (IHl (incr_pc (poke (compiler_pc c)
                 (set_ints0 (compiler_pc (poke (compiler_pc c) (set_opcode opSplit) c) + 1))
                 (poke (compiler_pc c) (set_opcode opSplit) c))))
      as (c2 & E2 & [P2 L2 F2 C2 G2]); [exact Cl | pcs; lia | pcs; lia |].
    rewrite E2, bind_Ok. clear E2. pcs. gens.
    rewrite addr_ok by (unfold len; lia). rewrite bind_Ok.
    destruct (get_is_Some c2 (compiler_pc c2)) as [x1 Hx1]; [unfold len; lia|].
    edestruct (IHr (poke (compiler_pc c)
                 (set_ints1 (compiler_pc (incr_pc (poke (compiler_pc c2) (set_opcode opJmp) c2))))
                 (incr_pc (poke (compiler_pc c2) (set_opcode opJmp) c2))))
      as (c4 & E4 & [P4 L4 F4 C4 G4]); [exact Cr | pcs; lia | pcs; lia |].
    rewrite E4, bind_Ok. clear E4. pcs. gens.
    eexists; split; [reflexivity|]. rewrite P4, P2 in *.
    constructor; pcs; cbn [count code_at].
    + lia.
    + lia.
    + intros i Hi0 Hi. reads. rewrite F4 by lia. reads.
      rewrite F2 by lia. by reads.
    + split_and!.
      * eapply instr_at_get; [done| |].
        { reads. rewrite F4 by lia. reads. rewrite F2 by lia. reads.
          rewrite Hx0. reflexivity. }
        shape.
      * eapply (code_at_frame _ c2); [lia| |exact C2].
        intros i Hi. reads. rewrite F4 by lia. by reads.
      * eapply instr_at_get; [lia| |].
        { reads. rewrite F4 by lia. reads. rewrite Hx1. reflexivity. }
        shape.
      * replace (compiler_pc c + 2 + count l)
          with (compiler_pc c + 1 + count l + 1) by lia.
        eapply (code_at_frame r c4); [lia| |exact C4].
        intros i Hi. by reads.
    + gens. congruence.
  - (* terms *)
    destruct Hc as [Cl Cr].
    pose proof (count_nonneg l) as Nl. pose proof (count_nonneg r) as Nr.
    simpl. unfold emitTerms.
    destruct (IHl c) as (c2 & E2 & [P2 L2 F2 C2 G2]); [done | lia | lia |].
    rewrite E2, bind_Ok. clear E2.
    destruct (IHr c2) as (c4 & E4 & [P4 L4 F4 C4 G4]); [done | lia | lia |].
    rewrite E4. clear E4.
    eexists; split; [reflexivity|]. rewrite P2 in *.
    constructor; cbn [count code_at].
    + lia.
    + lia.
    + intros i Hi0 Hi. rewrite F4 by lia. by rewrite F2 by lia.
    + split; [|done].
      eapply (code_at_frame _ c2); [lia| |exact C2].
      intros i Hi. by rewrite F4 by lia.
    + congruence.
  - (* rep *)
    pose proof (count_nonneg t) as Nt.
    destruct op; simpl in Hc, Hlen; simpl; unfold emitRep.
    + (* unset *)
      eexists; split; [reflexivity|].
      constructor; cbn [count code_at]; try done. lia.
    + (* zero or more *)
      unfold emitZeroOrMore. cbv zeta.
      rewrite addr_ok by (unfold len; lia). rewrite bind_Ok.
      destruct (get_is_Some c (compiler_pc c)) as [x0 Hx0]; [unfold len; lia|].
      edestruct (IH (incr_pc (poke (compiler_pc c)
                 (set_ints0 (compiler_pc (poke (compiler_pc c) (set_opcode opSplit) c) + 1))
                 (poke (compiler_pc c) (set_opcode opSplit) c))))
        as (c2 & E2 & [P2 L2 F2 C2 G2]); [exact Hc | pcs; lia | pcs; lia |].
      rewrite E2, bind_Ok. clear E2. pcs. gens.
      rewrite addr_ok by (unfold len; lia). rewrite bind_Ok.
      destruct (get_is_Some c2 (compiler_pc c2)) as [x1 Hx1]; [unfold len; lia|].
      eexists; split; [reflexivity|]. rewrite P2 in *.
      constructor; pcs; cbn [count code_at].
      * lia.
      * lia.
      * intros i Hi0 Hi. reads. rewrite F2 by lia. by reads.
      * split_and!.
        -- eapply instr_at_get; [done| |].
           { reads. rewrite F2 by lia. reads. rewrite Hx0. reflexivity. }
           shape.
        -- eapply (code_at_frame _ c2); [lia| |exact C2].
           intros i Hi. by reads.
        -- eapply instr_at_get; [lia| |].
           { reads. rewrite Hx1. reflexivity. }
           shape.
      * gens. congruence.
    + (* one or more *)
      unfold emitOneOrMore. cbv zeta.
      destruct (IH c) as (c2 & E2 & [P2 L2 F2 C2 G2]); [done | lia | lia |].
      rewrite E2, bind_Ok. clear E2.
      rewrite addr_ok by (unfold len; lia). rewrite bind_Ok.
      destruct (get_is_Some c2 (compiler_pc c2)) as [x1 Hx1]; [unfold len; lia|].
      eexists; split; [reflexivity|]. rewrite P2 in *.
      constructor; pcs; cbn [count code_at].
      * lia.
      * lia.
      * intros i Hi0 Hi. reads. by rewrite F2 by lia.
      * split.
        -- eapply (code_at_frame _ c2); [lia| |exact C2].
           intros i Hi. by reads.
        -- eapply instr_at_get; [lia| |].
           { reads. rewrite Hx1. reflexivity. }
           shape.
      * gens. congruence.
    + (* zero or one *)
      unfold emitZeroOrOne. cbv zeta.
      rewrite addr_ok by (unfold len; lia). rewrite bind_Ok.
      destruct (get_is_Some c (compiler_pc c)) as [x0 Hx0]; [unfold len; lia|].
      edestruct (IH (incr_pc (poke (compiler_pc c)
                 (set_ints0 (compiler_pc (poke (compiler_pc c) (set_opcode opSplit) c) + 1))
                 (poke (compiler_pc c) (set_opcode opSplit) c))))
        as (c2 & E2 & [P2 L2 F2 C2 G2]); [exact Hc | pcs; lia | pcs; lia |].
      rewrite E2, bind_Ok. clear E2. pcs. gens.
      eexists; split; [reflexivity|]. rewrite P2 in *.
      constructor; pcs; cbn [count code_at].
      * lia.
      * lia.
      * intros i Hi0 Hi. reads. rewrite F2 by lia. by reads.
      * split.
        -- eapply instr_at_get; [done| |].
           { reads. rewrite F2 by lia. reads. rewrite Hx0. reflexivity. }
           shape.
        -- eapply (code_at_frame _ c2); [lia| |exact C2].
           intros i Hi. by reads.
      * gens. congruence.
  - (* word *)
    simpl. unfold emitWord.
    rewrite addr_ok by (unfold len; lia). rewrite bind_Ok. cbv zeta.
    destruct (get_is_Some c (compiler_pc c)) as [x0 Hx0]; [unfold len; lia|].
    eexists; split; [reflexivity|].
    constructor; pcs; cbn [count code_at].
    + lia.
    + lia.
    + intros i Hi0 Hi. by reads.
    + eapply instr_at_get; [done| |].
      { reads. rewrite Hx0. reflexivity. }
      shape.
    + by gens.
  - (* variable *)
    simpl. unfold emitVar.
    rewrite addr_ok by (unfold len; lia). rewrite bind_Ok. cbv zeta.
    destruct (get_is_Some c (compiler_pc c)) as [x0 Hx0]; [unfold len; lia|].
    eexists; split; [reflexivity|].
    constructor; pcs; cbn [count code_at].
    + lia.
    + lia.
    + intros i Hi0 Hi. by reads.
    + eapply instr_at_get; [done| |].
      { reads. rewrite Hx0. reflexivity. }
      shape.
    + by gens.
  - (* meta *)
    pose proof (count_nonneg t) as Nt.
    simpl. unfold emitMeta.
    rewrite addr_ok by (unfold len; lia). rewrite bind_Ok. cbv zeta.
    destruct (get_is_Some c (compiler_pc c)) as [x0 Hx0]; [unfold len; lia|].
    edestruct (IH (incr_pc (poke (compiler_pc c) (set_intf d)
                 (poke (compiler_pc c) (set_opcode opMeta) c))))
      as (c2 & E2 & [P2 L2 F2 C2 G2]); [exact Hc | pcs; lia | pcs; lia |].
    rewrite E2. clear E2. pcs. gens.
    eexists; split; [reflexivity|].
    constructor; pcs; cbn [count code_at].
    + lia.
    + lia.
    + intros i Hi0 Hi. rewrite F2 by lia. by reads.
    + split; [|done].
      eapply instr_at_get; [done| |].
      { rewrite F2 by lia. reads. rewrite Hx0. reflexivity. }
      shape.
    + congruence.
Qed.


Lemma instr_at_weaken P i (Q Q' : instr → Prop) :
  (∀ x, Q x → Q' x) → instr_at P i Q → instr_at P i Q'.
Proof. intros HQ [H0 (x & Hx & Hq)]. split; [done|]. exists x. auto. Qed.

Lemma split_emitted a b x : is_split a b x → emitted_op x.
Proof. intros (E & _). unfold emitted_op. by rewrite E. Qed.
Lemma jmp_emitted a x : is_jmp a x → emitted_op x.
Proof. intros (E & _). unfold emitted_op. by rewrite E. Qed.
Lemma cmp_emitted s x : is_cmp s x → emitted_op x.
Proof. intros (E & _). unfold emitted_op. by rewrite E. Qed.
Lemma save_emitted n t x : is_save n t x → emitted_op x.
Proof. intros (E & _). unfold emitted_op. by rewrite E. Qed.
Lemma meta_emitted d x : is_meta d x → emitted_op x.
Proof. intros (E & _). unfold emitted_op. by rewrite E. Qed.

Create HintDb emitted.
#[local] Hint Resolve split_emitted jmp_emitted cmp_emitted save_emitted
  meta_emitted : emitted.

Ltac one_cell H i p :=
  replace i with p by lia; eapply instr_at_weaken; [|exact H];
  eauto with emitted.

(** Every cell of the code of [t] holds an instruction written by [emit]. *)
Lemma code_at_ops P t : ∀ p,
  code_at P t p → ∀ i, p ≤ i < p + count t → instr_at P i emitted_op.
Proof.
  induction t as [|l IHl r IHr|l IHl r IHr|op t IH|w|nm ty|d t IH];
    cbn [count code_at]; intros p H i Hi.
  - done.
  - pose proof (count_nonneg l) as Nl. pose proof (count_nonneg r) as Nr.
    destruct H as (H1 & H2 & H3 & H4).
    assert (i = p ∨ p + 1 ≤ i < p + 1 + count l ∨ i = p + 1 + count l ∨
            p + 2 + count l ≤ i < p + 2 + count l + count r)
      as [->|[Hl|[->|Hr]]] by lia.
    + eapply instr_at_weaken; [|exact H1]. eauto with emitted.
    + by eapply IHl.
    + eapply instr_at_weaken; [|exact H3]. eauto with emitted.
    + by eapply IHr.
  - pose proof (count_nonneg l) as Nl. pose proof (count_nonneg r) as Nr.
    destruct H as (H1 & H2).
    assert (p ≤ i < p + count l ∨ p + count l ≤ i < p + count l + count r)
      as [Hl|Hr] by lia.
    + by eapply IHl.
    + by eapply IHr.
  - pose proof (count_nonneg t) as Nt. destruct op.
    + lia.
    + destruct H as (H1 & H2 & H3).
      assert (i = p ∨ p + 1 ≤ i < p + 1 + count t ∨ i = p + 1 + count t)
        as [->|[Hl| ->]] by lia.
      * eapply instr_at_weaken; [|exact H1]. eauto with emitted.
      * by eapply IH.
      * eapply instr_at_weaken; [|exact H3]. eauto with emitted.
    + destruct H as (H1 & H2).
      assert (p ≤ i < p + count t ∨ i = p + count t) as [Hl| ->] by lia.
      * by eapply IH.
      * eapply instr_at_weaken; [|exact H2]. eauto with emitted.
    + destruct H as (H1 & H2).
      assert (i = p ∨ p + 1 ≤ i < p + 1 + count t) as [->|Hl] by lia.
      * eapply instr_at_weaken; [|exact H1]. eauto with emitted.
      * by eapply IH.
  - assert (i = p) as -> by lia.
    eapply instr_at_weaken; [|exact H]. eauto with emitted.
  - assert (i = p) as -> by lia.
    eapply instr_at_weaken; [|exact H]. eauto with emitted.
  - pose proof (count_nonneg t) as Nt. destruct H as (H1 & H2).
    assert (i = p ∨ p + 1 ≤ i < p + 1 + count t) as [->|Hl] by lia.
    + eapply instr_at_weaken; [|exact H1]. eauto with emitted.
    + by eapply IH.
Qed.

(** The state [compile] hands to [emit]: a zeroed slice of [n] cells. *)
Lemma make_ok n : 0 ≤ n → make n = Ok (replicate (Z.to_nat n) zeroInstr).
Proof. intros H. unfold make. destruct (Z.ltb_spec n 0); [lia|done]. Qed.

(** What [compile] does on a tree it accepts, from a fresh compiler. *)
Lemma compile_spec t :
  compilable t →
  ∃ c1 c2,
    emit t (mkCompiler (replicate (Z.to_nat (count t + 1)) zeroInstr) 0)
      = Ok c1 ∧
    emitted t (mkCompiler (replicate (Z.to_nat (count t + 1)) zeroInstr) 0) c1 ∧
    compile t zero = Ok c2 ∧
    c2 = incr_pc (poke (count t) (set_opcode opMatch) c1).
Proof.
  intros Hc. pose proof (count_nonneg t) as Nt.
  destruct (emit_spec t
    (mkCompiler (replicate (Z.to_nat (count t + 1)) zeroInstr) 0))
    as (c1 & E1 & S1); [done|simpl; lia| |].
  { simpl. unfold len. rewrite length_replicate. lia. }
  exists c1, (incr_pc (poke (count t) (set_opcode opMatch) c1)).
  split_and!; try done.
  unfold compile, countinstrForProgram.
  rewrite (countinstr_compilable t Hc), bind_Ok, bind_Ok.
  rewrite make_ok by lia. rewrite bind_Ok.
  assert (compile_body :
    (emit t (mkCompiler (replicate (Z.to_nat (count t + 1)) zeroInstr)
                        (compiler_pc zero)) ≫= emitMatch)
    = Ok (incr_pc (poke (count t) (set_opcode opMatch) c1))).
  { change (compiler_pc zero) with 0. rewrite E1, bind_Ok.
    unfold emitMatch. destruct S1 as [P1 L1 F1 C1 G1]. simpl in P1.
    rewrite P1. rewrite addr_ok; [done|].
    unfold len. rewrite L1. simpl. rewrite length_replicate. lia. }
  destruct t; try done.
Qed.


(** C6.  For every tree [t] built from the six node kinds of the
    specification (no nil node, every repetition with one of [*], [+], [?]),
    [countinstr t] is [count t], the count of the specification's table;
    the emit pass, run on the zeroed slice of [count t + 1] cells, advances
    the cursor by exactly [count t], writes an instruction into each of the
    first [count t] cells and leaves the last one untouched; and [compile t]
    yields a program of exactly [count t + 1] instructions that agrees with
    the emit pass on the first [count t] cells and whose final instruction
    is MATCH, the only MATCH of the program. *)
Theorem compile_instruction_count (t : node) :
  ast t →
  countinstr t = Ok (count t) ∧
  ∃ c1 c2,
    emit t (mkCompiler (replicate (Z.to_nat (count t + 1)) zeroInstr) 0)
      = Ok c1 ∧
    compiler_pc c1 = count t ∧
    (∀ i, 0 ≤ i < count t → instr_at (compiler_instr c1) i emitted_op) ∧
    get c1 (count t) = Some zeroInstr ∧
    compile t zero = Ok c2 ∧
    len (prog_of c2) = count t + 1 ∧
    (∀ i, 0 ≤ i < count t → get c2 i = get c1 i) ∧
    instr_at (prog_of c2) (count t) (λ x, instr_opcode x = opMatch).
Proof.
  intros Hast. pose proof (ast_compilable t Hast) as Hc.
  pose proof (count_nonneg t) as Nt.
  split; [by apply countinstr_compilable|].
  destruct (compile_spec t Hc) as (c1 & c2 & E1 & [P1 L1 F1 C1 G1] & E2 & ->).
  simpl in P1, L1, F1, C1. rewrite length_replicate in L1.
  assert (Hlast : get c1 (count t) = Some zeroInstr).
  { rewrite F1 by lia. unfold get; simpl.
    apply lookup_replicate_2. lia. }
  exists c1, (incr_pc (poke (count t) (set_opcode opMatch) c1)).
  split_and!; try done.
  - intros i Hi. eapply code_at_ops; [exact C1|lia].
  - unfold prog_of, len. pcs. lia.
  - intros i Hi. by reads.
  - eapply instr_at_get; [done| |].
    + reads. rewrite Hlast. reflexivity.
    + done.
Qed.

(** C6 at the tree of [this | that*]. *)
Lemma compile_instruction_count_witness :
  let t := alts (word "this") (rep repeatZeroOrMore (word "that")) in
  ∃ c2, compile t zero = Ok c2 ∧ len (prog_of c2) = 7.
Proof.
  intros t.
  destruct (compile_instruction_count t) as (_ & c1 & c2 & H).
  - simpl. split_and!; done.
  - exists c2. destruct H as (_ & _ & _ & _ & E & L & _). split; [exact E|exact L].
Defined.

(** The programs of the compiler's test table. *)
Example compile_show :
  prog_of <$> compile (word "show") zero
  = Ok [mkInstr opCmp 0 0 "show" "" None 0; mkInstr opMatch 0 0 "" "" None 0].
Proof. reflexivity. Qed.

Example compile_this_or_that :
  map (λ x, (instr_opcode x, instr_ints0 x, instr_ints1 x, instr_strs0 x)) <$>
    (prog_of <$> compile (alts (word "this") (word "that")) zero)
  = Ok [(opSplit, 1, 3, ""); (opCmp, 0, 0, "this"); (opJmp, 4, 0, "");
        (opCmp, 0, 0, "that"); (opMatch, 0, 0, "")]%string.
Proof. reflexivity. Qed.

Example compile_this_star :
  map (λ x, (instr_opcode x, instr_ints0 x, instr_ints1 x, instr_strs0 x)) <$>
    (prog_of <$> compile (rep repeatZeroOrMore (word "this")) zero)
  = Ok [(opSplit, 1, 3, ""); (opCmp, 0, 0, "this"); (opJmp, 0, 0, "");
        (opMatch, 0, 0, "")]%string.
Proof. reflexivity. Qed.

Example compile_a_plus :
  map (λ x, (instr_opcode x, instr_ints0 x, instr_ints1 x, instr_strs0 x)) <$>
    (prog_of <$> compile (rep repeatOneOrMore (word "a")) zero)
  = Ok [(opCmp, 0, 0, "a"); (opSplit, 0, 2, ""); (opMatch, 0, 0, "")]%string.
Proof. reflexivity. Qed.

Example compile_opt_this_or_that :
  map (λ x, (instr_opcode x, instr_ints0 x, instr_ints1 x)) <$>
    (prog_of <$> compile
       (rep repeatZeroOrOne (alts (word "this") (word "that"))) zero)
  = Ok [(opSplit, 1, 5); (opSplit, 2, 4); (opCmp, 0, 0); (opJmp, 5, 0);
        (opCmp, 0, 0); (opMatch, 0, 0)].
Proof. reflexivity. Qed.

(** What a successful [compile] of a tree that is not nil leaves in the
    compiler: the code of the tree from address 0 on, then MATCH, and no
    [gen] field set. *)
Lemma compile_code t c :
  t ≠ nilNode → compile t zero = Ok c →
  compilable t ∧ code_at (prog_of c) t 0 ∧ len (prog_of c) = count t + 1 ∧
  instr_at (prog_of c) (count t) (λ x, instr_opcode x = opMatch) ∧
  Forall (λ x, instr_gen x = 0) (prog_of c).
Proof.
  intros Hn E.
  assert (Hc : compilable t).
  { unfold compile in E.
    assert (E' : (countinstrForProgram t ≫= λ n, make n ≫= λ p,
                emit t (mkCompiler p (compiler_pc zero)) ≫= emitMatch)
                 = Ok c) by (by destruct t).
    apply bind_inv in E' as (n & En & _). unfold countinstrForProgram in En.
    apply bind_inv in En as (m & Em & _).
    by apply countinstr_Ok in Em as [? _]. }
  pose proof (count_nonneg t) as Nt.
  destruct (compile_spec t Hc) as (c1 & c2 & _ & [P1 L1 F1 C1 G1] & E2 & ->).
  rewrite E in E2. injection E2 as ->.
  simpl in P1, L1, C1, G1. rewrite length_replicate in L1.
  split; [done|]. split_and!.
  - eapply code_at_ext; [lia| |exact C1]. intros i Hi.
    unfold prog_of, incr_pc, poke; simpl. apply list_lookup_alter_ne. lia.
  - unfold prog_of, len. rewrite instr_incr_pc, length_poke. lia.
  - destruct (get_is_Some c1 (count t)) as [x Hx]; [unfold len; lia|].
    eapply instr_at_get; [done| |].
    + rewrite get_incr_pc, get_poke_eq, Hx. reflexivity.
    + done.
  - unfold prog_of. rewrite instr_incr_pc.
    apply Forall_fmap with (f := instr_gen) (P := λ g, g = 0).
    rewrite gens_poke by auto. rewrite G1, fmap_replicate.
    apply Forall_replicate. done.
Qed.

End CompilerFacts.

Module VMFacts.
Import VM.

#[local] Arguments index : simpl never.

Lemma index_Ok {A} (l : list A) (i : Z) (a : A) :
  index l i = Ok a ↔ 0 ≤ i ∧ l !! Z.to_nat i = Some a.
Proof.
  unfold index. destruct (Z.ltb_spec i 0).
  - split; [done|]. intros [? _]. lia.
  - destruct (l !! Z.to_nat i) as [b|]; split; try done.
    + intros [= ->]. done.
    + intros [_ [= ->]]. done.
    + intros [_ ?]. done.
Qed.

Lemma index_lookup {A} (l : list A) (i : nat) (a : A) :
  l !! i = Some a → index l (Z.of_nat i) = Ok a.
Proof. intros E. apply index_Ok. rewrite Nat2Z.id. split; [lia|done]. Qed.

(** *** [addThread] *)

Lemma addThread_spec l t v th i :
  vm_prog v ≠ [] →
  load t v = Ok th →
  index (vm_prog v) (thread_pc th) = Ok i →
  addThread l t v =
    Ok (if decide (instr_gen i = vm_gen v) then v else append l t v).
Proof.
  intros Hne Hth Hi. unfold addThread.
  destruct (decide (len (vm_prog v) = 0)) as [E|_].
  { unfold len in E. destruct (vm_prog v); [done|simpl in E; lia]. }
  rewrite Hth, bind_Ok, Hi, bind_Ok. by destruct (decide _).
Qed.

(** Whatever [addThread] does, the program it returns is the one it was
    given: no instruction is stamped. *)
Lemma addThread_prog l t v v' :
  addThread l t v = Ok v' → vm_prog v' = vm_prog v.
Proof.
  unfold addThread. destruct (decide _); [by intros [= <-]|].
  destruct (load t v) as [th| |]; simpl; try done.
  destruct (index _ _) as [i| |]; simpl; try done.
  destruct (decide _); intros [= <-]; [done|]. by destruct l.
Qed.


(** C1 (the code departs from the claim).  [addThread] never writes the
    [gen] field it tests: whatever it does, the program it returns is the
    program it was given.  So the test against the current generation never
    fires on a compiled program (whose [gen] fields are all zero), and two
    threads with the same [pc] get on a list in the same generation: here
    two thread objects at [pc = 0] in generation 1, and, in a run of
    [execute] on the program of [a? | b?] with no input, two threads at the
    final MATCH in the one step, each recording a match. *)
Theorem addThread_never_stamps :
  (∀ l t v, match addThread l t v with
            | Ok v' => vm_prog v' = vm_prog v
            | _ => True
            end) ∧
  (let p := [mkInstr opCmp 0 0 "show" "" None 0;
             mkInstr opMatch 0 0 "" "" None 0] in
   let v := mkVm p [] [mkThread 0 [] None; mkThread 0 [] None] [] [] [] 1
                 None 0 false in
   (v1 ← addThread Current 0%nat v; addThread Current 1%nat v1)
   = Ok (set_currentThreads [0%nat; 1%nat] v)) ∧
  (vm_matches <$>
     (c ← Compiler.compile
            (alts (rep repeatZeroOrOne (word "a"))
                  (rep repeatZeroOrOne (word "b"))) Compiler.zero;
      execute 20 (Compiler.prog_of c) [] (zero false))
   = Ok [mkMatch [] None; mkMatch [] None]).
Proof.
  split_and!.
  - intros l t v. destruct (addThread l t v) as [v'| |] eqn:E; [|done..].
    by eapply addThread_prog.
  - reflexivity.
  - vm_compute. reflexivity.
Qed.

(** *** Thread objects *)

Lemma alter_lookup {A} (f : A → A) (l : list A) (t : nat) (x : A) :
  l !! t = Some x → alter f t l = <[t := f x]> l.
Proof.
  revert t. induction l as [|y l IH]; intros [|t]; simpl; try done.
  - by intros [= ->].
  - intros E. f_equal. by apply IH.
Qed.

Lemma load_Ok t v th : load t v = Ok th ↔ vm_heap v !! t = Some th.
Proof.
  unfold load. destruct (vm_heap v !! t); split; try done; by intros [= ->].
Qed.

Lemma load_update t f v th :
  vm_heap v !! t = Some th → load t (update t f v) = Ok (f th).
Proof.
  intros E. apply load_Ok. unfold update; simpl.
  rewrite list_lookup_alter_eq, E. done.
Qed.

Lemma update_lookup t f v x :
  vm_heap (update t f v) !! t = Some x →
  ∃ x0, vm_heap v !! t = Some x0 ∧ x = f x0.
Proof.
  unfold update; simpl. rewrite list_lookup_alter_eq.
  destruct (vm_heap v !! t) as [x0|]; simpl; [|done].
  intros [= <-]. by exists x0.
Qed.

Lemma update_lookup_ne t t' f v :
  t ≠ t' → vm_heap (update t f v) !! t' = vm_heap v !! t'.
Proof. intros Hne. unfold update; simpl. by apply list_lookup_alter_ne. Qed.

Lemma bind_items ip w th :
  bind ip w th
  = mkThread (thread_pc th) (thread_items th ++ [mkBinding ip w])
             (thread_meta th).
Proof. unfold bind. by destruct (thread_items th). Qed.

(** C5.  A thread [t] standing at a CMP [s] instruction, [continu] called
    with the current word.  If the word is non-nil and [s] has it as a
    prefix, the thread gets the binding of the instruction to the word, its
    [pc] advances by one and it is appended to the list of the next word
    (the instruction after the CMP is there and, as always since nothing
    stamps, does not carry the current generation).  In every other case,
    word nil or not a prefix of [s], the VM is left exactly as it was: the
    thread is put on no list and its bindings are untouched. *)
Theorem cmp_binds_on_prefix (v : vm) (t : nat) (th : thread) (i : instr)
    (word : option nat) :
  vm_thread v = Some t →
  vm_heap v !! t = Some th →
  index (vm_prog v) (thread_pc th) = Ok i →
  instr_opcode i = opCmp →
  (vm_traceWriter v = true → is_Some (vm_input v !! vm_wordIndex v)) →
  (∀ w s nxt,
     word = Some w → vm_input v !! w = Some s →
     HasPrefix (instr_strs0 i) s = true →
     index (vm_prog v) (thread_pc th + 1) = Ok nxt →
     instr_gen nxt ≠ vm_gen v →
     continu word v =
       Ok (set_nextThreads (vm_nextThreads v ++ [t])
             (set_heap
                (<[t := mkThread (thread_pc th + 1)
                          (thread_items th ++ [mkBinding (thread_pc th) w])
                          (thread_meta th)]> (vm_heap v)) v))) ∧
  (word = None ∨
   (∃ w s, word = Some w ∧ vm_input v !! w = Some s ∧
           HasPrefix (instr_strs0 i) s = false) →
   continu word v = Ok v).
Proof.
  intros Ht Hth Hi Hop Htr.
  assert (Hcur : currentinstr v = Ok (thread_pc th, i)).
  { unfold currentinstr, current. rewrite Ht, bind_Ok.
    rewrite (proj2 (load_Ok t v th) Hth), bind_Ok, Hi. done. }
  assert (Htrace : trace v = Ok ()).
  { unfold trace. destruct (vm_traceWriter v) eqn:Etr; [|done].
    rewrite Hcur, bind_Ok. destruct (Htr eq_refl) as [s Hs].
    by rewrite (index_lookup _ _ _ Hs). }
  split.
  - intros w s nxt -> Hs Hpre Hnxt Hgen.
    unfold continu. rewrite Hcur, bind_Ok, Htrace, bind_Ok, Hop.
    unfold doCmp. rewrite (index_lookup _ _ _ Hs), bind_Ok, Hpre.
    unfold current. rewrite Ht, bind_Ok.
    assert (Htb : traceBind (update t (bind (thread_pc th) w) v) = Ok ()).
    { unfold traceBind. change (vm_traceWriter (update _ _ _))
        with (vm_traceWriter v).
      destruct (vm_traceWriter v) eqn:Etr; [|done].
      destruct (Htr eq_refl) as [s' Hs'].
      change (vm_input (update _ _ _)) with (vm_input v).
      change (vm_wordIndex (update _ _ _)) with (vm_wordIndex v).
      by rewrite (index_lookup _ _ _ Hs'). }
    rewrite Htb, bind_Ok.
    rewrite (load_update t _ v th Hth), bind_Ok.
    rewrite bind_items. cbn [thread_pc].
    assert (Hne : vm_prog v ≠ []).
    { intros E. rewrite E in Hi. apply index_Ok in Hi as [_ Hi].
      by rewrite lookup_nil in Hi. }
    rewrite (addThread_spec Next t _
               (mkThread (thread_pc th + 1)
                  (thread_items th ++ [mkBinding (thread_pc th) w])
                  (thread_meta th)) nxt); [|exact Hne| |exact Hnxt].
    2:{ apply load_Ok. unfold update; simpl.
        rewrite list_lookup_alter_eq, list_lookup_alter_eq, Hth. simpl.
        by rewrite bind_items. }
    change (vm_gen (update _ _ _)) with (vm_gen v).
    destruct (decide _) as [E|_]; [done|].
    f_equal. unfold append, update, set_nextThreads, set_heap; simpl.
    f_equal.
    rewrite (alter_lookup _ (alter _ _ _) t
               (mkThread (thread_pc th)
                  (thread_items th ++ [mkBinding (thread_pc th) w])
                  (thread_meta th))).
    2:{ rewrite list_lookup_alter_eq, Hth. simpl. by rewrite bind_items. }
    rewrite (alter_lookup _ _ t th Hth).
    by rewrite list_insert_insert_eq.
  - intros Hdie. unfold continu.
    rewrite Hcur, bind_Ok, Htrace, bind_Ok, Hop. unfold doCmp.
    destruct Hdie as [->|(w & s & -> & Hs & Hpre)]; [done|].
    by rewrite (index_lookup _ _ _ Hs), bind_Ok, Hpre.
Qed.

(** C5 on the program of [show], the thread at its CMP and the word [sh]. *)
Lemma cmp_binds_on_prefix_witness :
  let p := [mkInstr opCmp 0 0 "show" "" None 0;
            mkInstr opMatch 0 0 "" "" None 0] in
  let v := mkVm p ["sh"%string] [mkThread 0 [] None] [0%nat] [] [] 2
                (Some 0%nat) 0 true in
  continu (Some 0%nat) v
  = Ok (set_nextThreads [0%nat]
          (set_heap [mkThread 1 [mkBinding 0 0%nat] None] v)).
Proof.
  intros p v.
  destruct (cmp_binds_on_prefix v 0%nat (mkThread 0 [] None)
              (mkInstr opCmp 0 0 "show" "" None 0) (Some 0%nat))
    as [Hbind _].
  - reflexivity.
  - reflexivity.
  - reflexivity.
  - reflexivity.
  - intros _. exists "sh"%string. reflexivity.
  - apply (Hbind 0%nat "sh"%string (mkInstr opMatch 0 0 "" "" None 0)).
    + reflexivity.
    + reflexivity.
    + reflexivity.
    + reflexivity.
    + vm_compute. discriminate.
Defined.

(** *** Selecting matches *)

Lemma items_len_nonneg m : 0 ≤ items_len m.
Proof. unfold items_len, len. lia. Qed.

Lemma max_items_nonneg ms : 0 ≤ max_items ms.
Proof. induction ms as [|m ms IH]; simpl; lia. Qed.

Lemma max_items_ge ms m : m ∈ ms → items_len m ≤ max_items ms.
Proof.
  induction ms as [|x ms IH]; [by intros ?%elem_of_nil|].
  intros [->|Hin]%elem_of_cons; simpl; [lia|]. specialize (IH Hin). lia.
Qed.

Lemma max_items_attained ms :
  ms ≠ [] → ∃ m, m ∈ ms ∧ items_len m = max_items ms.
Proof.
  induction ms as [|x ms IH]; [done|]. intros _. simpl.
  destruct (Z.max_spec (items_len x) (max_items ms)) as [[Hlt E]|[Hle E]].
  - destruct ms as [|y ms].
    + simpl in *. pose proof (items_len_nonneg x). exists x.
      split; [apply list_elem_of_here|lia].
    + destruct IH as (m & Hm & Em); [done|]. exists m.
      split; [by apply list_elem_of_further|]. rewrite E. exact Em.
  - exists x. split; [apply list_elem_of_here|]. by rewrite E.
Qed.

Lemma count_eq_nonneg k ms : 0 ≤ count_eq k ms.
Proof. induction ms as [|m ms IH]; simpl; [lia|]. destruct (decide _); lia. Qed.

Lemma count_eq_above k ms : max_items ms < k → count_eq k ms = 0.
Proof.
  induction ms as [|m ms IH]; simpl; [done|]. intros Hk.
  destruct (decide _); [lia|]. rewrite IH; lia.
Qed.

(** The first loop of [longestMatches]. *)
Lemma tally_spec ms : ∀ c m,
  0 ≤ m →
  foldl tally (c, m) ms =
    (if max_items ms >? m then count_eq (max_items ms) ms
     else c + count_eq m ms,
     Z.max m (max_items ms)).
Proof.
  induction ms as [|x ms IH]; intros c m Hm.
  - simpl. destruct (Z.gtb_spec 0 m); f_equal; lia.
  - pose proof (items_len_nonneg x) as Hx.
    pose proof (max_items_nonneg ms) as HM.
    cbn [foldl max_items foldr count_eq]. fold (max_items ms).
    unfold tally at 2.
    destruct (Z.gtb_spec (items_len x) m) as [Hgt|Hle].
    + rewrite IH by lia.
      destruct (Z.gtb_spec (Z.max (items_len x) (max_items ms)) m); [|lia].
      destruct (Z.gtb_spec (max_items ms) (items_len x)) as [H1|H1].
      * rewrite Z.max_r by lia. destruct (decide _); [lia|].
        f_equal; lia.
      * rewrite Z.max_l by lia. destruct (decide _); [|lia].
        f_equal; lia.
    + destruct (Z.eqb_spec (items_len x) m) as [E|NE].
      * rewrite IH by lia.
        destruct (Z.gtb_spec (max_items ms) m) as [H1|H1].
        -- destruct (Z.gtb_spec (Z.max (items_len x) (max_items ms)) m);
             [|lia].
           rewrite (Z.max_r (items_len x)) by lia.
           destruct (decide _); [lia|]. f_equal; lia.
        -- destruct (Z.gtb_spec (Z.max (items_len x) (max_items ms)) m);
             [lia|].
           destruct (decide _); [|lia]. f_equal; lia.
      * rewrite IH by lia.
        destruct (Z.gtb_spec (max_items ms) m) as [H1|H1].
        -- destruct (Z.gtb_spec (Z.max (items_len x) (max_items ms)) m);
             [|lia].
           rewrite (Z.max_r (items_len x)) by lia.
           destruct (decide _); [lia|]. f_equal; lia.
        -- destruct (Z.gtb_spec (Z.max (items_len x) (max_items ms)) m);
             [lia|].
           destruct (decide _); [lia|]. f_equal; lia.
Qed.

Lemma count_eq_filter k ms :
  count_eq k ms = len (filter (λ m, items_len m = k) ms).
Proof.
  unfold len. induction ms as [|m ms IH]; [done|].
  cbn [count_eq]. rewrite filter_cons. destruct (decide _); simpl; lia.
Qed.

(** The second loop of [longestMatches]: the matches of length [k] land in
    the cells [i], [i+1], ... of [out], in order. *)
Lemma collect_spec k ms : ∀ i out,
  0 ≤ i → i + count_eq k ms ≤ len out →
  collect k ms i out =
    Ok (take (Z.to_nat i) out ++ filter (λ m, items_len m = k) ms ++
        drop (Z.to_nat (i + count_eq k ms)) out).
Proof.
  induction ms as [|x ms IH]; intros i out Hi Hlen; cbn [collect count_eq] in *.
  - rewrite Z.add_0_r. simpl. by rewrite take_drop.
  - pose proof (count_eq_nonneg k ms) as Hc. unfold len in Hlen.
    rewrite filter_cons.
    destruct (decide (items_len x = k)) as [E|NE].
    + rewrite (proj2 (Z.eqb_eq _ _) E).
      destruct (lookup_lt_is_Some_2 out (Z.to_nat i)) as [y Hy]; [lia|].
      rewrite (proj2 (index_Ok out i y)) by done. rewrite bind_Ok.
      rewrite IH; [|lia|unfold len; rewrite length_insert; lia].
      f_equal.
      replace (Z.to_nat (i + 1)) with (S (Z.to_nat i)) by lia.
      rewrite (take_S_r _ _ x)
        by (apply list_lookup_insert_eq; lia).
      rewrite take_insert_ge by lia.
      rewrite drop_insert_lt by lia.
      rewrite <- app_assoc. simpl.
      replace (i + 1 + count_eq k ms) with (i + (1 + count_eq k ms)) by lia.
      done.
    + rewrite (proj2 (Z.eqb_neq _ _) NE).
      rewrite IH by (unfold len; lia). reflexivity.
Qed.

Lemma longestMatches_spec v :
  longestMatches v =
    Ok (filter (λ m, items_len m = max_items (vm_matches v)) (vm_matches v)).
Proof.
  unfold longestMatches. rewrite tally_spec by lia.
  pose proof (max_items_nonneg (vm_matches v)) as HM.
  pose proof (count_eq_nonneg (max_items (vm_matches v)) (vm_matches v)) as HC.
  rewrite Z.max_r by lia.
  assert (Hcount :
    (if max_items (vm_matches v) >? 0
     then count_eq (max_items (vm_matches v)) (vm_matches v)
     else 0 + count_eq 0 (vm_matches v))
    = count_eq (max_items (vm_matches v)) (vm_matches v)).
  { destruct (Z.gtb_spec (max_items (vm_matches v)) 0); [done|].
    replace (max_items (vm_matches v)) with 0 by lia. lia. }
  rewrite Hcount.
  destruct (Z.ltb_spec (count_eq (max_items (vm_matches v)) (vm_matches v)) 0);
    [lia|].
  rewrite collect_spec; [|lia|unfold len; rewrite length_replicate; lia].
  f_equal. simpl.
  rewrite drop_ge by (rewrite length_replicate; lia).
  by rewrite app_nil_r.
Qed.

(** C4.  [longestMatches] returns exactly the recorded matches whose item
    count is the largest item count among the recorded matches, in the
    order they were recorded; [maximalMatches] returns that list when the
    largest item count equals the number of input words and the empty list
    otherwise.  ([max_items] is that largest count: no recorded match has
    more items, and some recorded match has as many.) *)
Theorem longest_and_maximal_matches (v : vm) :
  let ms := vm_matches v in
  let longest := filter (λ m, items_len m = max_items ms) ms in
  longestMatches v = Ok longest ∧
  maximalMatches v =
    Ok (if decide (max_items ms = len (vm_input v)) then longest else []) ∧
  (∀ m, m ∈ ms → items_len m ≤ max_items ms) ∧
  (ms ≠ [] → ∃ m, m ∈ ms ∧ items_len m = max_items ms) ∧
  (∀ m, m ∈ longest → items_len m < len (vm_input v) →
        maximalMatches v = Ok []).
Proof.
  intros ms longest.
  assert (Hmax : maximalMatches v =
    Ok (if decide (max_items ms = len (vm_input v)) then longest else [])).
  { unfold maximalMatches. rewrite longestMatches_spec, bind_Ok.
    fold ms. fold longest.
    destruct longest as [|m0 rest] eqn:El.
    - by destruct (decide _).
    - assert (Hm0 : m0 ∈ longest) by (rewrite El; apply list_elem_of_here).
      apply list_elem_of_filter in Hm0 as [Hm0 _]. rewrite Hm0.
      destruct (decide (max_items ms ≠ _)), (decide (max_items ms = _));
        done. }
  split_and!.
  - apply longestMatches_spec.
  - exact Hmax.
  - apply max_items_ge.
  - apply max_items_attained.
  - intros m Hm Hlt. rewrite Hmax.
    apply list_elem_of_filter in Hm as [Hm _].
    destruct (decide _); [lia|done].
Qed.

End VMFacts.

Module CmdScannerFacts.
Import CmdScanner.

Lemma string_app_cons x (a b : string) :
  String x a +:+ b = String x (a +:+ b).
Proof. done. Qed.

Lemma string_app_assoc (a b c : string) : (a +:+ b) +:+ c = a +:+ (b +:+ c).
Proof.
  induction a as [|x a IH]; [done|].
  rewrite !string_app_cons; simpl. f_equal. exact IH.
Qed.

Lemma string_app_nil_r (a : string) : a +:+ "" = a.
Proof.
  induction a as [|x a IH]; [done|].
  rewrite !string_app_cons; simpl. f_equal. exact IH.
Qed.

Lemma string_app_length (a b : string) :
  String.length (a +:+ b) = (String.length a + String.length b)%nat.
Proof.
  induction a as [|x a IH]; [done|].
  rewrite !string_app_cons; simpl. f_equal. exact IH.
Qed.

Lemma encodeRune_length r : (0 < String.length (encodeRune r))%nat.
Proof.
  unfold encodeRune, RuneError.
  repeat match goal with |- context [if ?b then _ else _] => destruct b end;
    simpl; lia.
Qed.

Lemma encode_cons r rs : encode (r :: rs) = encodeRune r +:+ encode rs.
Proof. done. Qed.

Lemma encode_nonempty r rs : encode (r :: rs) ≠ EmptyString.
Proof.
  intros E. pose proof (encodeRune_length r) as Hr.
  apply (f_equal String.length) in E.
  rewrite encode_cons, string_app_length in E. simpl in E. lia.
Qed.

Lemma Scan_after rs : Scan rs = finish_words (after rs).
Proof. done. Qed.


Lemma step_similar ws l l' r :
  similar ws l l' → similar ws (step l r) (step l' r).
Proof.
  destruct l as [st tm [w wl]], l' as [st' tm' [w' wl']].
  unfold similar; simpl. intros (-> & -> & -> & Htm).
  unfold step; simpl. destruct st; simpl.
  - destruct (IsSpace r); simpl; [done|].
    destruct (r =? dquote); simpl; done.
  - destruct (IsSpace r); simpl; [|done].
    split_and!; try done. by rewrite app_assoc.
  - rewrite (Htm eq_refl). destruct (r =? tm); simpl; [|done].
    split_and!; try done. by rewrite app_assoc.
Qed.

Lemma foldl_similar ws rs : ∀ l l',
  similar ws l l' → similar ws (foldl step l rs) (foldl step l' rs).
Proof.
  induction rs as [|r rs IH]; intros l l' Hs; [done|].
  simpl. apply IH. by apply step_similar.
Qed.

Lemma finish_similar ws l l' :
  similar ws l l' → finish_words l' = ws ++ finish_words l.
Proof.
  destruct l as [st tm [w wl]], l' as [st' tm' [w' wl']].
  unfold similar, finish_words, wordIsEmpty; simpl.
  intros (_ & -> & -> & _).
  destruct (String.length w =? 0)%nat; simpl; [done|].
  by rewrite app_assoc.
Qed.

(** In the [Default] state the buffer is empty. *)
Lemma default_empty rs : ∀ l,
  (loop_state l = Default → cmdScanner_word (loop_t l) = EmptyString) →
  loop_state (foldl step l rs) = Default →
  cmdScanner_word (loop_t (foldl step l rs)) = EmptyString.
Proof.
  induction rs as [|r rs IH]; intros l Hl; [done|].
  simpl. apply IH.
  destruct l as [st tm [w wl]]. unfold step; simpl in *.
  destruct st; simpl.
  - destruct (IsSpace r); simpl; [done|].
    destruct (r =? dquote); simpl; done.
  - destruct (IsSpace r); simpl; done.
  - destruct (r =? tm); simpl; done.
Qed.

(** Where the scanner is between words the input can be cut: the words of
    the whole are the words of the two parts. *)
Lemma Scan_app pre rest :
  between_words pre → Scan (pre ++ rest) = Scan pre ++ Scan rest.
Proof.
  intros Hd. rewrite !Scan_after. unfold after at 1.
  rewrite foldl_app. fold (after pre).
  assert (Hw : cmdScanner_word (loop_t (after pre)) = EmptyString).
  { apply default_empty; [|exact Hd]. done. }
  assert (Hs : similar (finish_words (after pre))
                 (mkLoop Default 0 zero) (after pre)).
  { unfold similar, finish_words, wordIsEmpty. rewrite Hw. simpl.
    split_and!; try done. by rewrite app_nil_r. }
  apply (foldl_similar _ rest) in Hs. by apply finish_similar in Hs.
Qed.

Lemma waiting_run mid : ∀ w ws,
  dquote ∉ mid →
  foldl step (mkLoop WaitingForTerminator dquote (mkCmdScanner w ws)) mid
  = mkLoop WaitingForTerminator dquote (mkCmdScanner (w +:+ encode mid) ws).
Proof.
  induction mid as [|r mid IH]; intros w ws Hq.
  - simpl. by rewrite string_app_nil_r.
  - apply not_elem_of_cons in Hq as [Hr Hq].
    cbn [foldl]. unfold step at 2; simpl.
    destruct (Z.eqb_spec r dquote) as [E|_]; [done|].
    unfold addRuneToWord; simpl. rewrite IH by done.
    by rewrite string_app_assoc.
Qed.

Lemma inword_run run : ∀ tm w ws,
  Forall (λ r, IsSpace r = false) run →
  foldl step (mkLoop InWord tm (mkCmdScanner w ws)) run
  = mkLoop InWord tm (mkCmdScanner (w +:+ encode run) ws).
Proof.
  induction run as [|r run IH]; intros tm w ws Hrun.
  - simpl. by rewrite string_app_nil_r.
  - apply Forall_cons in Hrun as [Hr Hrun].
    cbn [foldl]. unfold step at 2; simpl. rewrite Hr.
    unfold addRuneToWord; simpl. rewrite IH by done.
    by rewrite string_app_assoc.
Qed.

(** From the start of the input: a quoted region makes one word. *)
Lemma Scan_quoted mid post :
  dquote ∉ mid →
  Scan (dquote :: mid ++ dquote :: post) = encode mid :: Scan post.
Proof.
  intros Hq. rewrite !Scan_after. unfold after at 1.
  cbn [foldl]. rewrite foldl_app.
  change (step (mkLoop Default 0 zero) dquote)
    with (mkLoop WaitingForTerminator dquote (mkCmdScanner EmptyString [])).
  rewrite waiting_run by done. cbn [foldl].
  change (step _ dquote)
    with (mkLoop Default dquote (mkCmdScanner EmptyString [encode mid])).
  assert (Hs : similar [encode mid] (mkLoop Default 0 zero)
                 (mkLoop Default dquote (mkCmdScanner EmptyString [encode mid]))).
  { unfold similar; simpl. split_and!; done. }
  apply (foldl_similar _ post) in Hs. by apply finish_similar in Hs.
Qed.

(** White space between words is skipped. *)
Lemma Scan_space sp post : IsSpace sp = true → Scan (sp :: post) = Scan post.
Proof.
  intros Hsp. rewrite !Scan_after. unfold after at 1. cbn [foldl].
  unfold step at 2; simpl. by rewrite Hsp.
Qed.

(** From the start of the input: a run of characters that are not white
    space, the first of them not a quote, ended by white space or by the
    end of the input, makes one word. *)
Lemma Scan_run r0 run post :
  IsSpace r0 = false → r0 ≠ dquote →
  Forall (λ r, IsSpace r = false) run →
  (post = [] ∨ ∃ sp post', post = sp :: post' ∧ IsSpace sp = true) →
  Scan (r0 :: run ++ post) = encode (r0 :: run) :: Scan post.
Proof.
  intros Hr0 Hq Hrun Hpost. rewrite Scan_after. unfold after.
  cbn [foldl]. rewrite foldl_app.
  assert (Hfirst : step (mkLoop Default 0 zero) r0
                   = mkLoop InWord 0 (mkCmdScanner (encodeRune r0) [])).
  { unfold step; simpl. rewrite Hr0; simpl.
    destruct (Z.eqb_spec r0 dquote); done. }
  rewrite Hfirst, inword_run by done. rewrite <- encode_cons.
  destruct Hpost as [->|(sp & post' & -> & Hsp)].
  - cbn [foldl]. unfold finish_words, wordIsEmpty.
    cbn [loop_t cmdScanner_word]. pose proof (encodeRune_length r0) as Hlen.
    rewrite encode_cons, string_app_length.
    destruct (Nat.eqb_spec
      (String.length (encodeRune r0) + String.length (encode run)) 0);
      [lia|]. done.
  - rewrite (Scan_space sp post' Hsp). cbn [foldl].
    unfold step at 2; simpl. rewrite Hsp. unfold addWord; simpl.
    assert (Hs : similar [encode (r0 :: run)] (mkLoop Default 0 zero)
         (mkLoop Default 0 (mkCmdScanner EmptyString [encode (r0 :: run)]))).
    { unfold similar; simpl. split_and!; done. }
    apply (foldl_similar _ post') in Hs. by apply finish_similar in Hs.
Qed.


(** C8, as amended.  Let the scanner be between words after [pre] (in its
    [Default] state: at the start of the input, after white space outside a
    quoted region, or right after a closing quote).  A quote met there opens
    a quoted region: the characters [mid] up to the next quote, the quotes
    left out and white space kept, make one word.  A run of characters that
    are not white space, met there and not starting with a quote, ended by
    white space or by the end of the input, makes one word; a quote further
    on in such a run is an ordinary character of the word. *)
Theorem quote_opens_between_words (pre mid run post : list rune) (r0 : rune) :
  between_words pre →
  (dquote ∉ mid →
   Scan (pre ++ dquote :: mid ++ dquote :: post)
   = Scan pre ++ encode mid :: Scan post) ∧
  (IsSpace r0 = false → r0 ≠ dquote →
   Forall (λ r, IsSpace r = false) run →
   (post = [] ∨ ∃ sp post', post = sp :: post' ∧ IsSpace sp = true) →
   Scan (pre ++ r0 :: run ++ post)
   = Scan pre ++ encode (r0 :: run) :: Scan post).
Proof.
  intros Hd. split.
  - intros Hq. rewrite Scan_app by done. by rewrite Scan_quoted.
  - intros Hr0 Hne Hrun Hpost. rewrite Scan_app by done.
    by rewrite Scan_run.
Qed.

(** C8, as amended, on the input [say "b c" now]. *)
Lemma quote_opens_between_words_witness :
  Scan (runes "say " ++ dquote :: runes "b c" ++ dquote :: runes " now")
  = ["say"; "b c"; "now"]%string.
Proof.
  destruct (quote_opens_between_words (runes "say ") (runes "b c") []
              (runes " now") 0) as [Hquoted _].
  - reflexivity.
  - rewrite Hquoted; [reflexivity|].
    intros Hin. repeat (apply elem_of_cons in Hin as [Hin|Hin];
                        [discriminate Hin|]).
    by apply elem_of_nil in Hin.
Defined.

(** C8 as stated fails where the quote stands inside a word: in the input
    [a"b c"] the first quote follows [a], the characters [b c] up to the
    next quote are split over two words, and the white space between them
    is in no word. *)
Lemma quote_inside_word_counterexample :
  ¬ quote_opens_anywhere (runes "a" ++ dquote :: runes "b c" ++ [dquote]).
Proof.
  intros Hclaim.
  destruct (Hclaim (runes "a") (runes "b c") []) as (w & Hw & Hc).
  - reflexivity.
  - intros Hin. repeat (apply elem_of_cons in Hin as [Hin|Hin];
                        [discriminate Hin|]).
    by apply elem_of_nil in Hin.
  - intros Hin. repeat (apply elem_of_cons in Hin as [Hin|Hin];
                        [discriminate Hin|]).
    by apply elem_of_nil in Hin.
  - change (Scan (runes "a" ++ dquote :: runes "b c" ++ [dquote]))
      with [String "a" (String (byte 34) "b"); String "c" (String (byte 34) "")]
      in Hw.
    apply elem_of_cons in Hw as [->|Hw]; [discriminate Hc|].
    apply elem_of_cons in Hw as [->|Hw]; [discriminate Hc|].
    by apply elem_of_nil in Hw.
Qed.

End CmdScannerFacts.

Module CmdsFacts.
Import Cmds.

(** *** The lexer on white space *)

Lemma skipSpace_blank `{Unicode} (n : nat) : ∀ (fuel : nat) (s : Scanner.scanner),
  0 ≤ Scanner.scanner_pos s →
  Z.of_nat n = len (Scanner.scanner_input s) - Scanner.scanner_pos s →
  Forall (λ r, IsSpace r = true)
    (drop (Z.to_nat (Scanner.scanner_pos s)) (Scanner.scanner_input s)) →
  (n < fuel)%nat →
  Scanner.skipSpace fuel s
  = Ok (None, Scanner.set_pos (len (Scanner.scanner_input s)) s).
Proof.
  induction n as [|n IH]; intros fuel s Hpos Hn Hsp Hfuel;
    (destruct fuel as [|fuel]; [lia|]); cbn [Scanner.skipSpace];
    unfold Scanner.atEnd.
  - destruct (Z.leb_spec (len (Scanner.scanner_input s))
                         (Scanner.scanner_pos s)); [|lia].
    replace (len (Scanner.scanner_input s)) with (Scanner.scanner_pos s)
      by lia. by destruct s.
  - destruct (Z.leb_spec (len (Scanner.scanner_input s))
                         (Scanner.scanner_pos s)); [lia|].
    unfold len in *.
    destruct (lookup_lt_is_Some_2 (Scanner.scanner_input s)
                (Z.to_nat (Scanner.scanner_pos s))) as [r Hr]; [lia|].
    rewrite (proj2 (VMFacts.index_Ok _ _ r)) by done. rewrite bind_Ok.
    rewrite (drop_S _ r _ Hr) in Hsp. apply Forall_cons in Hsp as [Hspr Hsp].
    rewrite Hspr. cbn [negb].
    rewrite IH; [by destruct s| | | |lia]; destruct s; simpl in *.
    + lia.
    + lia.
    + replace (Z.to_nat (scanner_pos + 1))
        with (S (Z.to_nat scanner_pos)) by lia. exact Hsp.
Qed.

Lemma Scan_blank `{Unicode} (cmd : list rune) :
  Forall (λ r, IsSpace r = true) cmd →
  ∃ s, Scanner.Scan cmd Scanner.zero = Ok ([], true, s) ∧
       Scanner.scanner_errs s = [].
Proof.
  intros Hsp. unfold Scanner.Scan.
  assert (Hnext : Scanner.next (S (length cmd))
                    (Scanner.mkScanner (Scanner.scanner_pos Scanner.zero)
                       cmd [] [])
                  = Ok (Scanner.EOF,
                        Scanner.mkScanner (len cmd) cmd [] [])).
  { unfold Scanner.next.
    rewrite (skipSpace_blank (length cmd)); simpl; unfold len; try lia;
      done. }
  change (Scanner.scanLoop (S (length cmd)) (S (length cmd)) ?s)
    with ('(i, s') ← Scanner.next (S (length cmd)) s;
          match i with
          | Scanner.EOF => Ok s'
          | Scanner.Err t e =>
              Scanner.scanLoop (length cmd) (S (length cmd))
                (Scanner.addToken t (Scanner.addError e s'))
          | Scanner.Tok t =>
              Scanner.scanLoop (length cmd) (S (length cmd))
                (Scanner.addToken t s')
          end).
  rewrite Hnext, !bind_Ok. eexists; split; reflexivity.
Qed.

Lemma Add_blank `{Unicode} (cmd : list rune) (cback : Callback) (c : Cmds) :
  Forall (λ r, IsSpace r = true) cmd →
  Add cmd cback c = Ok (None, addParseTree nilNode cback c).
Proof.
  intros Hsp. unfold Add, scanAndParse.
  destruct (Scan_blank cmd Hsp) as (s & -> & Hs). reflexivity.
Qed.

(** C9.  [Add] on a syntax string that is empty or all white space returns
    a nil error and registers [meta cback nil]: as the whole parse tree if
    none was registered, else as the left branch of a new [alts].  On the
    tree so registered [countinstr] reaches its default branch at the nil
    child, and [Compile] panics. *)
Theorem Add_blank_then_Compile_panics `{Unicode}
    (cmd : list rune) (cback : Callback) (c : Cmds) :
  Forall (λ r, IsSpace r = true) cmd →
  ∃ c',
    Add cmd cback c = Ok (None, c') ∧
    Cmds_parseTree c' =
      match Cmds_parseTree c with
      | nilNode => meta (Some cback) nilNode
      | t => alts (meta (Some cback) nilNode) t
      end ∧
    Compiler.countinstr (meta (Some cback) nilNode) = Panic ∧
    Compiler.countinstr (Cmds_parseTree c') = Panic ∧
    Compile c' = Panic.
Proof.
  intros Hsp. exists (addParseTree nilNode cback c).
  split; [by apply Add_blank|].
  unfold Compile, addParseTree.
  destruct (Cmds_parseTree c); split_and!; reflexivity.
Qed.

(** C9 on the syntax string of two blanks, with nothing registered. *)
Lemma Add_blank_then_Compile_panics_witness :
  ∃ c', @Add latin1 (runes "  ") 7%nat zero = Ok (None, c') ∧
        Compile c' = Panic.
Proof.
  destruct (@Add_blank_then_Compile_panics latin1 (runes "  ") 7%nat zero)
    as (c' & HA & _ & _ & _ & HC).
  - repeat constructor.
  - exists c'. split; [exact HA|exact HC].
Defined.

(** *** The empty quoted word *)

Lemma HasPrefix_empty s : VM.HasPrefix s EmptyString = true.
Proof. by destruct s. Qed.

(** C10.  Between words, the two characters [""] make an empty word; the
    empty word passes the prefix test of every CMP; so with the one command
    of a single keyword [s] registered and compiled, [Parse] on the input
    [""] returns true and calls the callback with a match whose only item
    is the keyword [s] with the empty string as value.  For the keyword
    [show], [Add] registers exactly that command. *)
Theorem empty_quoted_word_matches_keyword `{Unicode}
    (pre post : list rune) (s : string) (cback : Callback) (ctx : nat)
    (w : bool) (fuel : nat) :
  CmdScanner.between_words pre →
  (3 ≤ fuel)%nat →
  CmdScanner.Scan (pre ++ dquote :: dquote :: post)
  = CmdScanner.Scan pre ++ EmptyString :: CmdScanner.Scan post ∧
  (∀ k, VM.HasPrefix k EmptyString = true) ∧
  (∃ c, Compile (addParseTree (word s) cback (TraceExecutionTo w zero))
        = Ok c ∧
        Parse fuel [dquote; dquote] ctx c
        = Ok (true,
              [mkCall cback
                 (VM.mkMatch [VM.keywordValue s EmptyString] (Some cback))
                 ctx])) ∧
  Add (runes "show") cback zero
  = Ok (None, addParseTree (word "show") cback zero).
Proof.
  intros Hd Hfuel. split_and!.
  - destruct (CmdScannerFacts.quote_opens_between_words pre [] [] post 0 Hd)
      as [Hq _].
    apply Hq. apply not_elem_of_nil.
  - apply HasPrefix_empty.
  - destruct fuel as [|[|[|fuel]]]; try lia.
    eexists. split; [reflexivity|].
    destruct w; reflexivity.
  - reflexivity.
Qed.

(** C10 with [show] registered, on the input of the two quote characters. *)
Lemma empty_quoted_word_matches_keyword_witness :
  ∃ c, Compile (addParseTree (word "show") 1%nat zero) = Ok c ∧
       Parse 3 [dquote; dquote] 5 c
       = Ok (true,
             [mkCall 1%nat
                (VM.mkMatch [VM.keywordValue "show" EmptyString] (Some 1%nat))
                5%nat]).
Proof.
  destruct (@empty_quoted_word_matches_keyword latin1 [] [] "show" 1%nat
              5%nat false 3) as (_ & _ & Hp & _).
  - reflexivity.
  - lia.
  - exact Hp.
Defined.

End CmdsFacts.

(** ** One instruction at a time *)

Module StepFacts.
Import VM VMFacts.

#[local] Arguments index : simpl never.

Lemma thread_eta th :
  mkThread (thread_pc th) (thread_items th) (thread_meta th) = th.
Proof. by destruct th. Qed.

Lemma prog_nonempty v pc i : index (vm_prog v) pc = Ok i → vm_prog v ≠ [].
Proof.
  intros Hi E. rewrite E in Hi. apply index_Ok in Hi as [_ Hi].
  by rewrite lookup_nil in Hi.
Qed.

Lemma currentinstr_at v t th i :
  vm_thread v = Some t → vm_heap v !! t = Some th →
  index (vm_prog v) (thread_pc th) = Ok i →
  currentinstr v = Ok (thread_pc th, i).
Proof.
  intros Ht Hth Hi. unfold currentinstr, current. rewrite Ht, bind_Ok.
  rewrite (proj2 (load_Ok t v th) Hth), bind_Ok, Hi. done.
Qed.

Lemma trace_off v : vm_traceWriter v = false → trace v = Ok ().
Proof. unfold trace. by intros ->. Qed.

(** [addThread] on a thread whose instruction does not carry the current
    generation: the thread is appended. *)
Lemma addThread_append l t v th i :
  vm_heap v !! t = Some th →
  index (vm_prog v) (thread_pc th) = Ok i →
  instr_gen i ≠ vm_gen v →
  addThread l t v = Ok (append l t v).
Proof.
  intros Hth Hi Hgen.
  rewrite (addThread_spec l t v th i); [|by eapply prog_nonempty| |done].
  - by destruct (decide _).
  - by apply load_Ok.
Qed.

(** JMP: the thread object gets the target as its [pc] and is appended to
    the current list. *)
Lemma continu_jmp v t th i tgt word :
  vm_thread v = Some t → vm_heap v !! t = Some th →
  index (vm_prog v) (thread_pc th) = Ok i →
  instr_opcode i = opJmp →
  vm_traceWriter v = false →
  index (vm_prog v) (instr_ints0 i) = Ok tgt →
  instr_gen tgt ≠ vm_gen v →
  continu word v
  = Ok (append Current t (update t (with_pc (instr_ints0 i)) v)).
Proof.
  intros Ht Hth Hi Hop Htr Htgt Hgen. unfold continu.
  rewrite (currentinstr_at v t th i), bind_Ok by done.
  rewrite trace_off, bind_Ok by done. rewrite Hop.
  unfold doJmp, current. rewrite Ht, bind_Ok.
  apply (addThread_append _ _ _ (with_pc (instr_ints0 i) th) tgt).
  - unfold update; simpl. by rewrite list_lookup_alter_eq, Hth.
  - exact Htgt.
  - exact Hgen.
Qed.

(** META: the thread object gets the payload, its [pc] advances and it is
    appended to the current list. *)
Lemma continu_meta v t th i nxt word :
  vm_thread v = Some t → vm_heap v !! t = Some th →
  index (vm_prog v) (thread_pc th) = Ok i →
  instr_opcode i = opMeta →
  vm_traceWriter v = false →
  index (vm_prog v) (thread_pc th + 1) = Ok nxt →
  instr_gen nxt ≠ vm_gen v →
  continu word v
  = Ok (append Current t
          (update t (with_pc (thread_pc th + 1))
             (update t (with_meta (instr_intf i)) v))).
Proof.
  intros Ht Hth Hi Hop Htr Hnxt Hgen. unfold continu.
  rewrite (currentinstr_at v t th i), bind_Ok by done.
  rewrite trace_off, bind_Ok by done. rewrite Hop.
  unfold doMeta, current. rewrite Ht, bind_Ok.
  rewrite (load_update t _ v th Hth), bind_Ok. cbn [with_meta thread_pc].
  apply (addThread_append _ _ _
           (with_pc (thread_pc th + 1) (with_meta (instr_intf i) th)) nxt).
  - unfold update; simpl.
    by rewrite !list_lookup_alter_eq, Hth.
  - exact Hnxt.
  - exact Hgen.
Qed.

(** SPLIT: a copy of the thread object is made for the second target, the
    object itself gets the first; both are appended to the current list,
    the object first. *)
Lemma continu_split v t th i ia ib word :
  vm_thread v = Some t → vm_heap v !! t = Some th →
  index (vm_prog v) (thread_pc th) = Ok i →
  instr_opcode i = opSplit →
  vm_traceWriter v = false →
  index (vm_prog v) (instr_ints0 i) = Ok ia → instr_gen ia ≠ vm_gen v →
  index (vm_prog v) (instr_ints1 i) = Ok ib → instr_gen ib ≠ vm_gen v →
  continu word v
  = Ok (set_currentThreads
          (vm_currentThreads v ++ [t; length (vm_heap v)])
          (set_heap
             (<[t := with_pc (instr_ints0 i) th]> (vm_heap v)
              ++ [with_pc (instr_ints1 i) th]) v)).
Proof.
  intros Ht Hth Hi Hop Htr Hia Hga Hib Hgb. unfold continu.
  rewrite (currentinstr_at v t th i), bind_Ok by done.
  rewrite trace_off, bind_Ok by done. rewrite Hop.
  unfold doSplit, current. rewrite Ht, bind_Ok.
  unfold clone. rewrite (proj2 (load_Ok t v th) Hth), bind_Ok, bind_Ok.
  rewrite thread_eta. unfold alloc.
  pose proof (lookup_lt_Some _ _ _ Hth) as Hlt.
  set (v1 := update t (with_pc (instr_ints0 i))
               (update (length (vm_heap v)) (with_pc (instr_ints1 i))
                  (set_heap (vm_heap v ++ [th]) v))).
  assert (Hheap : vm_heap v1
                  = <[t := with_pc (instr_ints0 i) th]> (vm_heap v)
                    ++ [with_pc (instr_ints1 i) th]).
  { unfold v1, update; simpl.
    rewrite (alter_lookup _ (vm_heap v ++ [th]) (length (vm_heap v)) th)
      by (by rewrite lookup_app_r, Nat.sub_diag by lia).
    rewrite (alter_lookup _ _ t th).
    2:{ rewrite list_lookup_insert_ne by lia. by rewrite lookup_app_l. }
    rewrite insert_app_r_alt by lia. rewrite Nat.sub_diag. simpl.
    rewrite insert_app_l by done. done. }
  rewrite (addThread_append Current t v1 (with_pc (instr_ints0 i) th) ia).
  2:{ rewrite Hheap, lookup_app_l by (rewrite length_insert; lia).
      by apply list_lookup_insert_eq. }
  2:{ exact Hia. }
  2:{ exact Hga. }
  rewrite bind_Ok.
  rewrite (addThread_append Current (length (vm_heap v)) _
             (with_pc (instr_ints1 i) th) ib).
  2:{ cbn [append vm_heap set_currentThreads]. rewrite Hheap.
      rewrite lookup_app_r by (rewrite length_insert; lia).
      by rewrite length_insert, Nat.sub_diag. }
  2:{ exact Hib. }
  2:{ exact Hgb. }
  assert (Hv1 : v1 = set_heap (vm_heap v1) v) by (by destruct v).
  rewrite Hv1, Hheap. f_equal.
  unfold append, set_currentThreads, set_heap; simpl.
  by rewrite <- app_assoc.
Qed.

(** MATCH: the thread's bindings, made into items, and its payload are
    recorded; nothing else changes. *)
Lemma continu_match v t th i items word :
  vm_thread v = Some t → vm_heap v !! t = Some th →
  index (vm_prog v) (thread_pc th) = Ok i →
  instr_opcode i = opMatch →
  vm_traceWriter v = false →
  mapM (finalize v) (thread_items th) = Ok items →
  continu word v
  = Ok (set_matches (vm_matches v ++ [mkMatch items (thread_meta th)]) v).
Proof.
  intros Ht Hth Hi Hop Htr Hit. unfold continu.
  rewrite (currentinstr_at v t th i), bind_Ok by done.
  rewrite trace_off, bind_Ok by done. rewrite Hop.
  unfold current. rewrite Ht, bind_Ok. unfold addMatch.
  rewrite (proj2 (load_Ok t v th) Hth), bind_Ok, Hit. done.
Qed.

(** CMP and SAVE with no word, and NOP: the thread is dropped. *)
Lemma continu_dies v t th i :
  vm_thread v = Some t → vm_heap v !! t = Some th →
  index (vm_prog v) (thread_pc th) = Ok i →
  vm_traceWriter v = false →
  instr_opcode i = opCmp ∨ instr_opcode i = opSave ∨ instr_opcode i = opNop →
  continu None v = Ok v.
Proof.
  intros Ht Hth Hi Htr Hop. unfold continu.
  rewrite (currentinstr_at v t th i), bind_Ok by done.
  rewrite trace_off, bind_Ok by done.
  by destruct Hop as [->|[->| ->]].
Qed.

End StepFacts.

Module LoopFacts.
Import VM VMFacts StepFacts Loop.

#[local] Arguments index : simpl never.

Lemma tame_with_pc th pc : tame th → 0 ≤ pc ≤ 5 → tame (with_pc pc th).
Proof. intros [Hi _] Hpc. by split. Qed.

Lemma looping_step cb i v :
  looping cb i v →
  ∃ t v', vm_currentThreads v !! i = Some t ∧
          continu None (set_thread (Some t) v) = Ok v' ∧
          looping cb (S i) v'.
Proof.
  intros (Hprog & Hgen & Htr & Htame & Hvalid & j & tj & thj & Hij & Hj & Htj & Hlive).
  pose proof (lookup_lt_Some _ _ _ Hj) as Hjlt.
  destruct (lookup_lt_is_Some_2 (vm_currentThreads v) i) as [t Ht]; [lia|].
  pose proof (proj1 (Forall_lookup _ _) Hvalid i t Ht) as Htlt. simpl in Htlt.
  destruct (lookup_lt_is_Some_2 (vm_heap v) t Htlt) as [th Hth].
  pose proof (proj1 (Forall_lookup _ _) Htame t th Hth) as [Hitems Hpc].
  exists t.
  set (v0 := set_thread (Some t) v).
  assert (H0t : vm_thread v0 = Some t) by done.
  assert (H0h : vm_heap v0 !! t = Some th) by done.
  assert (H0tr : vm_traceWriter v0 = false) by done.
  assert (Hcases : thread_pc th = 0 ∨ thread_pc th = 1 ∨ thread_pc th = 2 ∨
                   thread_pc th = 3 ∨ thread_pc th = 4 ∨ thread_pc th = 5)
    by lia.
  destruct Hcases as [E|[E|[E|[E|[E|E]]]]].
  - (* META *)
    eexists. split; [done|]. split.
    + eapply (continu_meta v0 t th); try done.
      * unfold v0; simpl. rewrite Hprog, E. reflexivity.
      * done.
      * unfold v0; simpl. rewrite Hprog, E. reflexivity.
      * unfold v0; simpl. rewrite Hgen. done.
    + unfold looping, v0; simpl. split_and!; try done.
      * apply Forall_alter; [apply Forall_alter; [done|]|].
        -- intros x _ Hx. done.
        -- intros x _ [Hx1 Hx2]. split; [done|]. simpl. lia.
      * rewrite !length_alter. apply Forall_app. split; [done|].
        by apply Forall_singleton.
      * exists (length (vm_currentThreads v)), t.
        eexists. split_and!.
        -- lia.
        -- by rewrite lookup_app_r, Nat.sub_diag by lia.
        -- rewrite !list_lookup_alter_eq, Hth. reflexivity.
        -- simpl. rewrite E. unfold live. lia.
  - (* SPLIT 2 5 *)
    eexists. split; [done|]. split.
    + eapply (continu_split v0 t th); try done.
      * unfold v0; simpl. rewrite Hprog, E. reflexivity.
      * done.
      * unfold v0; simpl. rewrite Hprog. reflexivity.
      * unfold v0; simpl. rewrite Hgen. done.
      * unfold v0; simpl. rewrite Hprog. reflexivity.
      * unfold v0; simpl. rewrite Hgen. done.
    + unfold looping, v0; simpl. split_and!; try done.
      * apply Forall_app. split.
        -- apply Forall_insert; [done|]. apply tame_with_pc; [done|lia].
        -- apply Forall_singleton. apply tame_with_pc; [done|lia].
      * rewrite length_app, length_insert. simpl.
        apply Forall_app. split.
        -- eapply Forall_impl; [exact Hvalid|]. simpl. intros; lia.
        -- repeat constructor; lia.
      * exists (length (vm_currentThreads v)), t.
        eexists. split_and!.
        -- lia.
        -- by rewrite lookup_app_r, Nat.sub_diag by lia.
        -- rewrite lookup_app_l by (rewrite length_insert; lia).
           by apply list_lookup_insert_eq.
        -- simpl. unfold live. lia.
  - (* SPLIT 3 4 *)
    eexists. split; [done|]. split.
    + eapply (continu_split v0 t th); try done.
      * unfold v0; simpl. rewrite Hprog, E. reflexivity.
      * done.
      * unfold v0; simpl. rewrite Hprog. reflexivity.
      * unfold v0; simpl. rewrite Hgen. done.
      * unfold v0; simpl. rewrite Hprog. reflexivity.
      * unfold v0; simpl. rewrite Hgen. done.
    + unfold looping, v0; simpl. split_and!; try done.
      * apply Forall_app. split.
        -- apply Forall_insert; [done|]. apply tame_with_pc; [done|lia].
        -- apply Forall_singleton. apply tame_with_pc; [done|lia].
      * rewrite length_app, length_insert. simpl.
        apply Forall_app. split.
        -- eapply Forall_impl; [exact Hvalid|]. simpl. intros; lia.
        -- repeat constructor; lia.
      * exists (S (length (vm_currentThreads v))), (length (vm_heap v)).
        eexists. split_and!.
        -- lia.
        -- rewrite lookup_app_r by lia.
           replace (S (length (vm_currentThreads v))
                    - length (vm_currentThreads v))%nat with 1%nat by lia.
           reflexivity.
        -- rewrite lookup_app_r by (rewrite length_insert; lia).
           rewrite length_insert, Nat.sub_diag. reflexivity.
        -- simpl. unfold live. lia.
  - (* CMP with no word *)
    exists v0. split; [done|]. split.
    + eapply (continu_dies v0 t th); try done.
      * unfold v0; simpl. rewrite Hprog, E. reflexivity.
      * by left.
    + unfold looping, v0; simpl. split_and!; try done.
      exists j, tj, thj. split_and!; try done.
      destruct (decide (j = i)) as [->|]; [|lia].
      exfalso. rewrite Ht in Hj. injection Hj as <-.
      rewrite Hth in Htj. injection Htj as <-.
      unfold live in Hlive. lia.
  - (* JMP 1 *)
    eexists. split; [done|]. split.
    + eapply (continu_jmp v0 t th); try done.
      * unfold v0; simpl. rewrite Hprog, E. reflexivity.
      * done.
      * unfold v0; simpl. rewrite Hprog. reflexivity.
      * unfold v0; simpl. rewrite Hgen. done.
    + unfold looping, v0; simpl. split_and!; try done.
      * apply Forall_alter; [done|].
        intros x _ Hx. apply tame_with_pc; [done|lia].
      * rewrite !length_alter. apply Forall_app. split; [done|].
        by apply Forall_singleton.
      * exists (length (vm_currentThreads v)), t.
        eexists. split_and!.
        -- lia.
        -- by rewrite lookup_app_r, Nat.sub_diag by lia.
        -- rewrite !list_lookup_alter_eq, Hth. reflexivity.
        -- simpl. unfold live. lia.
  - (* MATCH *)
    eexists. split; [done|]. split.
    + eapply (continu_match v0 t th); try done.
      * unfold v0; simpl. rewrite Hprog, E. reflexivity.
      * done.
      * rewrite Hitems. reflexivity.
    + unfold looping, v0; simpl. split_and!; try done.
      exists j, tj, thj. split_and!; try done.
      destruct (decide (j = i)) as [->|]; [|lia].
      exfalso. rewrite Ht in Hj. injection Hj as <-.
      rewrite Hth in Htj. injection Htj as <-.
      unfold live in Hlive. lia.
Qed.

(** While that state lasts the loop of [processWord] does not end. *)
Lemma looping_run cb fuel : ∀ i v,
  looping cb i v → run fuel None i v = Timeout.
Proof.
  induction fuel as [|fuel IH]; intros i v Hloop; [done|].
  destruct (looping_step cb i v Hloop) as (t & v' & Ht & Hc & Hloop').
  cbn [run]. rewrite Ht, Hc, bind_Ok. by apply IH.
Qed.


Lemma execute_loop_prog cb fuel :
  execute fuel (loop_prog cb) [] (VM.zero false) = Timeout.
Proof.
  set (v1 := mkVm (loop_prog cb) [] [mkThread 0 [] None] [0%nat] [] [] 1
                  None 0 false).
  assert (Hstart : execute fuel (loop_prog cb) [] (VM.zero false)
                   = (v ← processWord fuel None v1; finishThreads fuel v))
    by reflexivity.
  rewrite Hstart. unfold processWord at 1.
  rewrite (looping_run cb fuel); [done|].
  unfold looping, v1; simpl. split_and!; try done.
  - apply Forall_singleton. split; simpl; [done|lia].
  - apply Forall_singleton. lia.
  - exists 0%nat, 0%nat, (mkThread 0 [] None).
    split_and!; try done. unfold live; simpl. lia.
Qed.

(** C2 (the code departs from the claim).  Registering the grammar
    [(a?)*] succeeds and compiles to a six-instruction program.  On the
    empty input [execute] does not come back on that program, whatever the
    budget of the loop of [processWord]: the thread list it walks grows
    faster than it is walked.  So [Parse] does not return either. *)
Theorem execute_may_not_terminate `{Unicode}
    (cb : Callback) (ctx : nat) (fuel : nat) :
  Cmds.Add (runes "(a?)*") cb Cmds.zero
  = Ok (None, Cmds.addParseTree loop_tree cb Cmds.zero) ∧
  Cmds.Compile (Cmds.addParseTree loop_tree cb Cmds.zero)
  = Ok (Cmds.mkCmds (meta (Some cb) loop_tree) (loop_prog cb) false) ∧
  execute fuel (loop_prog cb) [] (VM.zero false) = Timeout ∧
  Cmds.Parse fuel [] ctx
    (Cmds.mkCmds (meta (Some cb) loop_tree) (loop_prog cb) false)
  = Timeout.
Proof.
  split_and!.
  - reflexivity.
  - reflexivity.
  - apply execute_loop_prog.
  - unfold Cmds.Parse.
    change (CmdScanner.Scan []) with (@nil string). cbn [Cmds.Cmds_prog Cmds.Cmds_trace].
    by rewrite execute_loop_prog.
Qed.

End LoopFacts.

Module ParserFacts.
Import Parser VMFacts.

#[local] Arguments index : simpl never.

Lemma steps_refl p : wf p → steps p p.
Proof.
  intros Hwf. unfold steps. split_and!; try done; try lia.
  exists []. split; [by rewrite app_nil_r|constructor].
Qed.

Lemma recorded_mono tokens lo hi lo' hi' e :
  lo' ≤ lo → hi ≤ hi' → recorded tokens lo hi e → recorded tokens lo' hi' e.
Proof.
  intros Hlo Hhi (c & msg & Hc & ->). exists c, msg. split; [lia|done].
Qed.

Lemma steps_trans p1 p2 p3 : steps p1 p2 → steps p2 p3 → steps p1 p3.
Proof.
  intros (Ht1 & Hm1 & Hc1 & Hw1 & n1 & He1 & Hf1)
         (Ht2 & Hm2 & Hc2 & Hw2 & n2 & He2 & Hf2).
  unfold steps. split_and!; try congruence; try lia; try done.
  exists (n1 ++ n2). split.
  - by rewrite He2, He1, app_assoc.
  - apply Forall_app. split.
    + eapply Forall_impl; [exact Hf1|]. intros e.
      apply recorded_mono; lia.
    + rewrite Ht1 in Hf2. eapply Forall_impl; [exact Hf2|]. intros e.
      apply recorded_mono; lia.
Qed.

Lemma index_in_range {A} (l : list A) (i : Z) :
  0 ≤ i < len l → ∃ a, index l i = Ok a ∧ l !! Z.to_nat i = Some a.
Proof.
  intros Hi. unfold len in Hi.
  destruct (lookup_lt_is_Some_2 l (Z.to_nat i)) as [a Ha]; [lia|].
  exists a. split; [|done]. apply index_Ok. split; [lia|done].
Qed.

Lemma previous_ok p :
  1 ≤ parser_current p ≤ len (parser_tokens p) →
  ∃ t, previous p = Ok t ∧
       parser_tokens p !! Z.to_nat (parser_current p - 1) = Some t.
Proof. intros H. unfold previous. apply index_in_range. lia. Qed.

(** [match]: the cursor moves by one exactly when it reports a match, and
    nothing else of note changes. *)
Lemma match_spec types p :
  wf p →
  match match_ types p with
  | Ok (b, p') =>
      steps p p' ∧ parser_errors p' = parser_errors p ∧
      parser_current p' = parser_current p + (if b then 1 else 0)
  | Panic => 0 < parser_matchLimit p
  | Timeout => False
  end.
Proof.
  intros Hwf. unfold match_.
  assert (Hany : ∀ q, wf q →
    match matchAny types q with
    | Ok (b, q') =>
        steps q q' ∧ parser_errors q' = parser_errors q ∧
        parser_current q' = parser_current q + (if b then 1 else 0)
    | Panic => False
    | Timeout => False
    end).
  { intros q Hq. induction types as [|ty types IH]; simpl.
    - split_and!; [by apply steps_refl|done|lia].
    - unfold check, atEnd.
      destruct (Z.leb_spec (len (parser_tokens q)) (parser_current q)).
      + rewrite bind_Ok. exact IH.
      + unfold peek. unfold wf in Hq.
        destruct (index_in_range (parser_tokens q) (parser_current q))
          as (t & -> & _); [lia|].
        rewrite !bind_Ok. destruct (bool_decide _); [|exact IH].
        unfold advance, atEnd.
        destruct (Z.leb_spec (len (parser_tokens q)) (parser_current q));
          [lia|]. cbn [negb].
        destruct (previous_ok (set_current (parser_current q + 1) q))
          as (t' & -> & _); [simpl; lia|].
        rewrite !bind_Ok. simpl. split_and!; try done.
        unfold steps, wf; simpl. split_and!; try done; try lia.
        exists []. split; [by rewrite app_nil_r|constructor]. }
  destruct (Z.ltb_spec 0 (parser_matchLimit p)) as [Hlim|Hlim].
  - simpl. destruct (Z.ltb_spec (parser_matchLimit p)
                       (parser_matchCalls p + 1)); simpl.
    + exact Hlim.
    + specialize (Hany (set_matchCalls (parser_matchCalls p + 1) p) Hwf).
      destruct (matchAny _ _) as [[b q']| |]; try done.
  - rewrite bind_Ok. specialize (Hany p Hwf).
    destruct (matchAny _ _) as [[b q']| |]; done.
Qed.

Lemma K_unfold tokens c :
  K tokens c =
  (if c =? 0 then 1
   else match tokens !! Z.to_nat (c - 1) with
        | Some t => token_pos t + token_len t
        | None => 0
        end) + 1.
Proof. done. Qed.

(** [addErrorAtPosition]: the diagnostic recorded carries [K] of the cursor
    at the time. *)
Lemma addErrorAtPosition_spec msg p :
  wf p →
  addErrorAtPosition msg p
  = Ok (addError (diagnostic (K (parser_tokens p) (parser_current p)) msg) p).
Proof.
  intros Hwf. unfold addErrorAtPosition, runePosition, K.
  destruct (Z.eqb_spec (parser_current p) 0) as [E|NE]; [done|].
  unfold wf in Hwf.
  destruct (previous_ok p) as (t & -> & ->); [lia|]. done.
Qed.

Lemma addErrorAtPosition_steps msg p :
  wf p → ∃ p', addErrorAtPosition msg p = Ok p' ∧ steps p p' ∧
               parser_current p' = parser_current p.
Proof.
  intros Hwf. rewrite addErrorAtPosition_spec by done.
  eexists; split; [reflexivity|]. split; [|done].
  unfold steps, wf in *; simpl. split_and!; try done; try lia.
  eexists. split; [reflexivity|]. apply Forall_singleton.
  exists (parser_current p), msg. split; [lia|reflexivity].
Qed.


Lemma steps_current p p' : steps p p' → parser_current p ≤ parser_current p'.
Proof. by intros (_ & _ & H & _). Qed.
Lemma steps_limit p p' : steps p p' → parser_matchLimit p' = parser_matchLimit p.
Proof. by intros (_ & H & _). Qed.
Lemma steps_wf p p' : steps p p' → wf p'.
Proof. by intros (_ & _ & _ & H & _). Qed.
Lemma steps_tokens p p' : steps p p' → parser_tokens p' = parser_tokens p.
Proof. by intros (H & _). Qed.

Lemma steps_remaining p p' :
  steps p p' → (remaining p' ≤ remaining p)%nat.
Proof.
  intros Hs. unfold remaining. rewrite (steps_tokens _ _ Hs).
  pose proof (steps_current _ _ Hs). lia.
Qed.

Lemma steps_remaining_lt p p' :
  steps p p' → parser_current p < parser_current p' →
  (S (remaining p') ≤ remaining p)%nat.
Proof.
  intros Hs Hlt. unfold remaining. rewrite (steps_tokens _ _ Hs).
  pose proof (steps_wf _ _ Hs) as Hw. unfold wf in Hw.
  rewrite (steps_tokens _ _ Hs) in Hw. lia.
Qed.

Lemma finishes_returns k fuel p r : finishes p r → returns k fuel p r.
Proof. by destruct r as [[t p']| |]. Qed.

Lemma finishes_Ok p t p' :
  steps p p' → no_meta t →
  (t ≠ nilNode → parser_current p < parser_current p') →
  finishes p (Ok (t, p')).
Proof. intros. by split_and!. Qed.

Lemma Word_spec p : wf p → finishes p (Word p).
Proof.
  intros Hwf. unfold Word.
  pose proof (match_spec [wordTok] p Hwf) as Hm.
  destruct (match_ [wordTok] p) as [[b p1]| |]; [|done..].
  destruct Hm as (Hs & He & Hc). rewrite bind_Ok.
  destruct b; cbn [negb].
  - pose proof (steps_wf _ _ Hs) as Hw1. unfold wf in *.
    destruct (previous_ok p1) as (t & -> & _); [lia|].
    rewrite bind_Ok. simpl. split_and!; [done..|lia].
  - simpl. split_and!; done.
Qed.

(** The results of [Word] are nil or a word. *)
Lemma Word_shape p t p' :
  Word p = Ok (t, p') → t = nilNode ∨ ∃ s, t = word s.
Proof.
  unfold Word. destruct (match_ [wordTok] p) as [[b p1]| |]; [|done..].
  rewrite bind_Ok. destruct b; cbn [negb].
  - destruct (previous p1); [|done..]. rewrite bind_Ok.
    intros [= <- <-]. right. eauto.
  - intros [= <- <-]. by left.
Qed.

Lemma Var_spec p : wf p → finishes p (Var p).
Proof.
  intros Hwf. unfold Var.
  pose proof (match_spec [lessThanTok] p Hwf) as Hm.
  destruct (match_ [lessThanTok] p) as [[b p1]| |]; [|done..].
  destruct Hm as (Hs1 & He1 & Hc1). rewrite bind_Ok.
  pose proof (steps_wf _ _ Hs1) as Hw1.
  destruct b; cbn [negb]; [|by apply finishes_Ok].
  pose proof (Word_spec p1 Hw1) as HW.
  destruct (Word p1) as [[name p2]| |] eqn:EW; [| |done].
  2:{ simpl in *. by rewrite <- (steps_limit _ _ Hs1). }
  rewrite bind_Ok. destruct HW as (Hs2 & _ & Hadv2).
  pose proof (steps_trans _ _ _ Hs1 Hs2) as Hs12.
  pose proof (steps_wf _ _ Hs2) as Hw2.
  destruct (Word_shape _ _ _ EW) as [->|[s ->]].
  { destruct (addErrorAtPosition_steps "expected variable name after <" p2 Hw2)
      as (p3 & -> & Hs3 & _).
    rewrite bind_Ok. apply finishes_Ok; [|done..].
    by eapply steps_trans. }
  pose proof (match_spec [colonTok] p2 Hw2) as Hm3.
  destruct (match_ [colonTok] p2) as [[hasColon p3]| |]; [| |done].
  2:{ simpl in *. by rewrite <- (steps_limit _ _ Hs12). }
  destruct Hm3 as (Hs3 & He3 & Hc3). rewrite bind_Ok.
  pose proof (steps_trans _ _ _ Hs12 Hs3) as Hs13.
  pose proof (steps_wf _ _ Hs3) as Hw3.
  (* the type *)
  assert (Htyp :
    match (if negb hasColon then Ok (Some "str"%string, p3)
           else
             '(w, p) ← Word p3;
             match w with
             | nilNode =>
                 p ← addErrorAtPosition "expected variable type after :" p;
                 Ok (None, p)
             | _ => s ← asWord w; Ok (Some s, p)
             end) with
    | Ok (_, p4) => steps p p4
    | Panic => 0 < parser_matchLimit p
    | Timeout => False
    end).
  { destruct hasColon; cbn [negb]; [|done].
    pose proof (Word_spec p3 Hw3) as HW4.
    destruct (Word p3) as [[w p4]| |] eqn:EW4; [| |done].
    2:{ simpl in *. by rewrite <- (steps_limit _ _ Hs13). }
    rewrite bind_Ok. destruct HW4 as (Hs4 & _ & _).
    pose proof (steps_trans _ _ _ Hs13 Hs4) as Hs14.
    destruct (Word_shape _ _ _ EW4) as [->|[s' ->]].
    - destruct (addErrorAtPosition_steps "expected variable type after :" p4
                  (steps_wf _ _ Hs4)) as (p5 & -> & Hs5 & _).
      rewrite bind_Ok. by eapply steps_trans.
    - simpl. exact Hs14. }
  destruct (if negb hasColon then _ else _) as [[typ p4]| |]; [| |done].
  2:{ exact Htyp. }
  rewrite bind_Ok. destruct typ as [typ|]; [|by apply finishes_Ok].
  pose proof (steps_wf _ _ Htyp) as Hw4.
  pose proof (match_spec [greaterThanTok] p4 Hw4) as Hm5.
  destruct (match_ [greaterThanTok] p4) as [[b p5]| |]; [| |done].
  2:{ simpl in *. by rewrite <- (steps_limit _ _ Htyp). }
  destruct Hm5 as (Hs5 & He5 & Hc5). rewrite bind_Ok.
  pose proof (steps_trans _ _ _ Htyp Hs5) as Hs15.
  pose proof (steps_wf _ _ Hs5) as Hw5.
  destruct b; cbn [negb].
  - simpl. split_and!; [done|done|].
    intros _. pose proof (steps_current _ _ Htyp).
    pose proof (steps_current _ _ Hs5). lia.
  - destruct hasColon.
    + destruct (addErrorAtPosition_steps
                  "expected > to complete variable definition" p5 Hw5)
        as (p6 & -> & Hs6 & _).
      rewrite !bind_Ok. apply finishes_Ok; [|done..].
      by eapply steps_trans.
    + destruct (addErrorAtPosition_steps
                  "expected either : to specify variable type, or > to complete variable definition"
                  p5 Hw5) as (p6 & -> & Hs6 & _).
      rewrite !bind_Ok. apply finishes_Ok; [|done..].
      by eapply steps_trans.
Qed.

Lemma Term_spec p : wf p → finishes p (Term p).
Proof.
  intros Hwf. unfold Term.
  pose proof (Var_spec p Hwf) as HV.
  destruct (Var p) as [[r p1]| |]; [|done..].
  rewrite bind_Ok. destruct HV as (Hs1 & Hnm & Hadv).
  destruct r; try (by apply finishes_Ok).
  pose proof (Word_spec p1 (steps_wf _ _ Hs1)) as HW.
  destruct (Word p1) as [[t p2]| |]; [| |done].
  - destruct HW as (Hs2 & Hnm2 & Hadv2).
    apply finishes_Ok; [by eapply steps_trans|done|].
    intros Hne. pose proof (steps_current _ _ Hs1). specialize (Hadv2 Hne).
    lia.
  - simpl in *. by rewrite <- (steps_limit _ _ Hs1).
Qed.


Lemma node_case {A} (l : node) (X Y : A) :
  match l with
  | nilNode => X
  | alts _ _ | terms _ _ | rep _ _ | word _ | variable _ _ | meta _ _ => Y
  end = if is_nil l then X else Y.
Proof. by destruct l. Qed.

Lemma is_nil_true l : is_nil l = true → l = nilNode.
Proof. by destruct l. Qed.

Lemma is_nil_false l : is_nil l = false → l ≠ nilNode.
Proof. by destruct l. Qed.

Lemma returns_Ok k fuel p t p' :
  steps p p' → no_meta t →
  (t ≠ nilNode → parser_current p < parser_current p') →
  returns k fuel p (Ok (t, p')).
Proof. intros. by split_and!. Qed.

(** The four productions: they come back when the depth bound is at
    least four times the number of tokens left, plus what their place in
    the cycle needs. *)
Lemma productions fuel : ∀ p,
  wf p →
  returns 4 fuel p (Alternatives fuel p) ∧
  returns 3 fuel p (Terms fuel p) ∧
  returns 2 fuel p (Repetition fuel p) ∧
  returns 1 fuel p (Group fuel p).
Proof.
  induction fuel as [|fuel IH]; intros p Hwf.
  { simpl. split_and!; lia. }
  assert (HG : returns 1 (S fuel) p (Group (S fuel) p)).
  { cbn [Group].
    pose proof (match_spec [leftParenTok] p Hwf) as Hm.
    destruct (match_ [leftParenTok] p) as [[b p1]| |]; [|done..].
    destruct Hm as (Hs1 & He1 & Hc1). rewrite bind_Ok.
    pose proof (steps_wf _ _ Hs1) as Hw1.
    destruct b.
    - destruct (IH p1 Hw1) as (HA & _).
      destruct (Alternatives fuel p1) as [[res p2]| |].
      + destruct HA as (Hs2 & Hnm & _). rewrite bind_Ok.
        pose proof (steps_trans _ _ _ Hs1 Hs2) as Hs12.
        pose proof (steps_wf _ _ Hs2) as Hw2.
        pose proof (match_spec [rightParenTok] p2 Hw2) as Hm3.
        destruct (match_ [rightParenTok] p2) as [[b2 p3]| |]; [| |done].
        2:{ simpl in *. by rewrite <- (steps_limit _ _ Hs12). }
        destruct Hm3 as (Hs3 & He3 & Hc3). rewrite bind_Ok.
        pose proof (steps_trans _ _ _ Hs12 Hs3) as Hs13.
        destruct b2; cbn [negb].
        * rewrite bind_Ok. apply returns_Ok; [done|done|].
          intros _. pose proof (steps_current _ _ Hs2).
          pose proof (steps_current _ _ Hs3). lia.
        * destruct (addErrorAtPosition_steps "expected ) to close the group"
                      p3 (steps_wf _ _ Hs3)) as (p4 & -> & Hs4 & Hc4).
          rewrite bind_Ok. apply returns_Ok; [by eapply steps_trans|done|].
          intros _. pose proof (steps_current _ _ Hs2).
          pose proof (steps_current _ _ Hs3). lia.
      + simpl in *. by rewrite <- (steps_limit _ _ Hs1).
      + simpl in *.
        pose proof (steps_remaining_lt _ _ Hs1 ltac:(lia)). lia.
    - pose proof (Term_spec p1 Hw1) as HT.
      destruct (Term p1) as [[t p2]| |]; [| |done].
      + destruct HT as (Hs2 & Hnm & Hadv).
        apply returns_Ok; [by eapply steps_trans|done|].
        intros Hne. specialize (Hadv Hne). lia.
      + simpl in *. by rewrite <- (steps_limit _ _ Hs1). }
  assert (HR : returns 2 (S fuel) p (Repetition (S fuel) p)).
  { cbn [Repetition].
    destruct (IH p Hwf) as (_ & _ & _ & HG0).
    destruct (Group fuel p) as [[t p1]| |]; [|done|simpl in *; lia].
    destruct HG0 as (Hs1 & Hnm & Hadv). rewrite bind_Ok.
    rewrite node_case. destruct (is_nil t) eqn:Et.
    { apply returns_Ok; done. }
    apply is_nil_false in Et. specialize (Hadv Et).
    pose proof (steps_wf _ _ Hs1) as Hw1.
    pose proof (match_spec [starTok; plusTok; questionTok] p1 Hw1) as Hm.
    destruct (match_ _ p1) as [[b p2]| |]; [| |done].
    2:{ simpl in *. by rewrite <- (steps_limit _ _ Hs1). }
    destruct Hm as (Hs2 & He2 & Hc2). rewrite bind_Ok.
    pose proof (steps_trans _ _ _ Hs1 Hs2) as Hs12.
    destruct b.
    - pose proof (steps_wf _ _ Hs2) as Hw2. unfold wf in Hw1, Hw2.
      destruct (previous_ok p2) as (prev & -> & _); [lia|].
      rewrite bind_Ok. apply returns_Ok; [done|done|]. intros _. lia.
    - apply returns_Ok; [done|done|]. intros _. lia. }
  assert (HT : returns 3 (S fuel) p (Terms (S fuel) p)).
  { cbn [Terms].
    destruct (IH p Hwf) as (_ & _ & HR0 & _).
    destruct (Repetition fuel p) as [[l p1]| |]; [|done|simpl in *; lia].
    destruct HR0 as (Hs1 & Hnm & Hadv). rewrite bind_Ok.
    rewrite node_case. destruct (is_nil l) eqn:El.
    { apply returns_Ok; done. }
    apply is_nil_false in El. specialize (Hadv El).
    pose proof (steps_wf _ _ Hs1) as Hw1.
    destruct (negb (atEnd p1)).
    - destruct (IH p1 Hw1) as (_ & HT0 & _).
      destruct (Terms fuel p1) as [[r p2]| |].
      + destruct HT0 as (Hs2 & Hnm2 & _). rewrite bind_Ok.
        pose proof (steps_current _ _ Hs2).
        rewrite node_case. destruct (is_nil r);
          (apply returns_Ok; [by eapply steps_trans|done|]); intros _; lia.
      + simpl in *. by rewrite <- (steps_limit _ _ Hs1).
      + simpl in *. pose proof (steps_remaining_lt _ _ Hs1 Hadv). lia.
    - rewrite bind_Ok. simpl. split_and!; [done|done|]. intros _; lia. }
  assert (HA : returns 4 (S fuel) p (Alternatives (S fuel) p)).
  { cbn [Alternatives].
    destruct (IH p Hwf) as (_ & HT0 & _).
    destruct (Terms fuel p) as [[l p1]| |]; [|done|simpl in *; lia].
    destruct HT0 as (Hs1 & Hnm & Hadv). rewrite bind_Ok.
    pose proof (steps_wf _ _ Hs1) as Hw1.
    pose proof (match_spec [pipeTok] p1 Hw1) as Hm.
    destruct (match_ [pipeTok] p1) as [[b p2]| |]; [| |done].
    2:{ simpl in *. by rewrite <- (steps_limit _ _ Hs1). }
    destruct Hm as (Hs2 & He2 & Hc2). rewrite bind_Ok.
    pose proof (steps_trans _ _ _ Hs1 Hs2) as Hs12.
    pose proof (steps_wf _ _ Hs2) as Hw2.
    pose proof (steps_current _ _ Hs1) as Hc1.
    destruct b.
    - destruct (IH p2 Hw2) as (HA0 & _).
      destruct (Alternatives fuel p2) as [[r p3]| |].
      + destruct HA0 as (Hs3 & Hnm3 & _). rewrite bind_Ok.
        pose proof (steps_trans _ _ _ Hs12 Hs3) as Hs13.
        pose proof (steps_current _ _ Hs3) as Hc3.
        rewrite node_case. destruct (is_nil r) eqn:Er.
        * apply is_nil_true in Er as ->.
          destruct (addErrorAtPosition_steps
                      "expected more tokens after the |" p3
                      (steps_wf _ _ Hs3)) as (p4 & -> & Hs4 & Hc4).
          rewrite !bind_Ok. cbn [is_nil]. 
          apply returns_Ok; [by eapply steps_trans|done|]. intros _. lia.
        * rewrite bind_Ok. rewrite node_case, Er.
          apply returns_Ok; [done|done|]. intros _. lia.
      + simpl in *. by rewrite <- (steps_limit _ _ Hs12).
      + simpl in *.
        pose proof (steps_remaining_lt _ _ Hs2 ltac:(lia)).
        pose proof (steps_remaining _ _ Hs1). lia.
    - rewrite bind_Ok. cbn [is_nil].
      apply returns_Ok; [done|done|]. intros Hne. specialize (Hadv Hne). lia. }
  done.
Qed.


(** [Parse], as [scanAndParse] calls it, always comes back, with every
    diagnostic recorded by [addErrorAtPosition] and a tree without [meta]
    nodes. *)
Lemma Parse_spec tokens :
  ∃ tree p,
    Parse tokens zero = Ok (tree, nilIfEmpty (parser_errors p), p) ∧
    wf p ∧ parser_tokens p = tokens ∧
    Forall (recorded tokens 0 (parser_current p)) (parser_errors p) ∧
    no_meta tree.
Proof.
  unfold Parse, parse, Command. cbn [parser_matchLimit parser_matchCalls zero].
  set (p0 := mkParser tokens [] 0 0 0).
  assert (Hwf0 : wf p0).
  { unfold wf, p0, len; simpl. lia. }
  destruct (productions (depth tokens) p0 Hwf0) as (HA & _).
  destruct (Alternatives (depth tokens) p0) as [[tree p1]| |].
  - destruct HA as (Hs1 & Hnm & _). rewrite bind_Ok.
    assert (Hfin : ∀ p2, steps p1 p2 →
      ∃ tree' p,
        Ok (tree, nilIfEmpty (parser_errors p2), p2)
        = Ok (tree', nilIfEmpty (parser_errors p), p) ∧
        wf p ∧ parser_tokens p = tokens ∧
        Forall (recorded tokens 0 (parser_current p)) (parser_errors p) ∧
        no_meta tree').
    { intros p2 Hs2. exists tree, p2.
      pose proof (steps_trans _ _ _ Hs1 Hs2) as Hs.
      destruct Hs as (Ht & _ & _ & Hw & new & He & Hf).
      split_and!; try done. rewrite He. exact Hf. }
    destruct (negb (atEnd p1)).
    + destruct (addErrorAtPosition_steps "extra tokens after end of command"
                  p1 (steps_wf _ _ Hs1)) as (p2 & -> & Hs2 & _).
      rewrite bind_Ok. by apply Hfin.
    + rewrite bind_Ok. apply Hfin. apply steps_refl. by eapply steps_wf.
  - simpl in HA. lia.
  - simpl in HA. unfold remaining, depth, p0, len in HA; simpl in HA. lia.
Qed.

Lemma encode_ascii_length rs :
  Forall (λ r, 0 ≤ r ≤ 127) rs →
  Z.of_nat (String.length (encode rs)) = len rs.
Proof.
  unfold len. induction 1 as [|r rs Hr _ IH]; [done|].
  change (encode (r :: rs)) with (encodeRune r +:+ encode rs).
  rewrite CmdScannerFacts.string_app_length.
  assert (Hone : String.length (encodeRune r) = 1%nat).
  { unfold encodeRune.
    destruct (Z.leb_spec 0 r), (Z.leb_spec r 127); simpl; lia || done. }
  rewrite Hone. simpl length. lia.
Qed.

(** What the diagnostics carry.  Every diagnostic is recorded by
    [addErrorAtPosition], which prefixes it with the number [K] taken at
    the cursor of that moment; [Parse] always returns, and every
    diagnostic it returns is of that form for some cursor position
    between the start and the final one.  With no token consumed [K] is
    2.  With a token consumed [K] is the token's start offset plus its
    length plus one; the length is 1 for punctuation and the byte length
    of the value for a word, which for a word of 7-bit characters is its
    number of runes: there [K] is the 1-based rune position that follows
    the token. *)
Theorem diagnostics_carry_position :
  (∀ msg p, wf p →
     addErrorAtPosition msg p
     = Ok (addError
             (diagnostic (K (parser_tokens p) (parser_current p)) msg) p)) ∧
  (∀ tokens, ∃ tree p,
     Parse tokens zero = Ok (tree, nilIfEmpty (parser_errors p), p) ∧
     Forall (λ e, ∃ c msg, 0 ≤ c ≤ parser_current p ∧
                           parser_current p ≤ len tokens ∧
                           e = diagnostic (K tokens c) msg)
            (parser_errors p)) ∧
  (∀ tokens, K tokens 0 = 2) ∧
  (∀ tokens c t,
     0 < c → tokens !! Z.to_nat (c - 1) = Some t →
     K tokens c = token_pos t + token_len t + 1) ∧
  (∀ t, token_typ t ≠ wordTok → token_len t = 1) ∧
  (∀ t rs,
     token_typ t = wordTok → token_value t = encode rs →
     Forall (λ r, 0 ≤ r ≤ 127) rs → token_len t = len rs).
Proof.
  split_and!.
  - intros msg p. apply addErrorAtPosition_spec.
  - intros tokens.
    destruct (Parse_spec tokens) as (tree & p & HP & Hw & Ht & Hf & _).
    exists tree, p. split; [done|].
    eapply Forall_impl; [exact Hf|]. intros e (c & msg & Hc & ->).
    exists c, msg. unfold wf in Hw. rewrite Ht in Hw. split_and!; lia || done.
  - done.
  - intros tokens c t Hc Ht. unfold K. rewrite Ht.
    destruct (Z.eqb_spec c 0); [lia|done].
  - intros t Ht. unfold token_len. by destruct (decide _).
  - intros t rs Ht Hv Hrs. unfold token_len.
    destruct (decide _); [|done]. rewrite Hv. by apply encode_ascii_length.
Qed.

End ParserFacts.

(** ** Dispatch: what [Cmds.Parse] does with the matches *)

Module DispatchFacts.
Import VM VMFacts Dispatch.

#[local] Arguments index : simpl never.

(** *** The invariant is kept by every write of the VM *)

Lemma dispatchable_ext G v v' :
  vm_prog v' = vm_prog v → vm_heap v' = vm_heap v →
  vm_matches v' = vm_matches v →
  dispatchable G v → dispatchable G v'.
Proof. unfold dispatchable. by intros -> -> ->. Qed.

Lemma carrying_payload G th : thread_meta th ≠ None → carrying G th.
Proof. intros H E. done. Qed.

Lemma dispatchable_update G t f v :
  dispatchable G v →
  (∀ x, vm_heap v !! t = Some x → carrying G x → carrying G (f x)) →
  dispatchable G (update t f v).
Proof.
  intros (Hg & Hh & Hm) Hf. split_and!; try done.
  unfold update; simpl. by apply Forall_alter.
Qed.

Lemma addThread_keeps G l t v v' :
  addThread l t v = Ok v' → dispatchable G v → dispatchable G v'.
Proof.
  unfold addThread. destruct (decide _); [by intros [= <-]|].
  destruct (load t v) as [th| |]; simpl; try done.
  destruct (index _ _) as [i| |]; simpl; try done.
  destruct (decide _); intros [= <-]; [done|].
  apply dispatchable_ext; by destruct l.
Qed.

(** The thread [continu] works on, and its instruction. *)
Lemma currentinstr_Ok v ip i :
  currentinstr v = Ok (ip, i) →
  ∃ t th, vm_thread v = Some t ∧ vm_heap v !! t = Some th ∧
          ip = thread_pc th ∧ 0 ≤ ip ∧ vm_prog v !! Z.to_nat ip = Some i.
Proof.
  unfold currentinstr, current. destruct (vm_thread v) as [t|]; [|done].
  rewrite bind_Ok. intros E.
  apply bind_inv in E as (th & Hth & E).
  apply bind_inv in E as (j & Hj & [= <- <-]).
  apply load_Ok in Hth. apply index_Ok in Hj as [H0 Hj].
  by exists t, th.
Qed.

(** On a guarded program, a thread that stands at anything but a SPLIT
    or a META has its payload. *)
Lemma past_header G P th i :
  guarded P G → carrying G th →
  0 ≤ thread_pc th → P !! Z.to_nat (thread_pc th) = Some i →
  instr_opcode i ≠ opSplit → instr_opcode i ≠ opMeta →
  thread_meta th ≠ None.
Proof.
  intros [_ Hg] Hc H0 Hi Hs Hm E.
  destruct (Hg _ _ H0 (Hc E) Hi) as [(? & _)|?]; done.
Qed.

Lemma bind_meta ip w th : thread_meta (bind ip w th) = thread_meta th.
Proof. by rewrite bind_items. Qed.

(** The writes of CMP and SAVE on a thread that has its payload. *)
Lemma advance_keeps G l ip w t th v v' :
  dispatchable G v →
  vm_heap v !! t = Some th → thread_meta th ≠ None →
  (let v := update t (bind ip w) v in
   _ ← traceBind v;
   th ← load t v;
   let v := update t (with_pc (thread_pc th + 1)) v in
   addThread l t v) = Ok v' →
  dispatchable G v'.
Proof.
  intros Hd Hth Hm E. cbv zeta in E.
  apply bind_inv in E as ([] & _ & E).
  apply bind_inv in E as (th1 & Hth1 & E).
  eapply addThread_keeps; [exact E|].
  apply dispatchable_update.
  - apply dispatchable_update; [done|].
    intros x Hx _. apply carrying_payload. rewrite bind_meta.
    rewrite Hth in Hx. by injection Hx as <-.
  - intros x Hx _. apply carrying_payload.
    apply update_lookup in Hx as (x0 & Hx0 & ->).
    rewrite Hth in Hx0. injection Hx0 as <-. simpl. by rewrite bind_meta.
Qed.

Lemma continu_keeps G w v v' :
  dispatchable G v → continu w v = Ok v' → dispatchable G v'.
Proof.
  intros Hd E. unfold continu in E.
  apply bind_inv in E as ([ip i] & Hci & E).
  apply bind_inv in E as ([] & _ & E).
  apply currentinstr_Ok in Hci as (t & th & Ht & Hth & -> & H0 & Hi).
  pose proof Hd as (Hg & Hh & Hm).
  assert (Hc : carrying G th).
  { eapply Forall_lookup_1; [exact Hh|exact Hth]. }
  assert (Hcur : current v = Ok t) by (unfold current; by rewrite Ht).
  destruct (instr_opcode i) eqn:Hop.
  - (* NOP *) by injection E as <-.
  - (* SPLIT *)
    assert (Hab : thread_meta th = None →
                  G (instr_ints0 i) ∧ G (instr_ints1 i)).
    { intros En. destruct Hg as [_ Hg].
      destruct (Hg _ _ H0 (Hc En) Hi) as [(_ & ? & ?)|?]; [done|congruence]. }
    unfold doSplit in E. rewrite Hcur, bind_Ok in E.
    unfold clone in E. rewrite (proj2 (load_Ok _ _ _) Hth), bind_Ok in E.
    unfold alloc in E. rewrite bind_Ok in E. cbv zeta in E.
    apply bind_inv in E as (v1 & E1 & E).
    eapply addThread_keeps; [exact E|].
    eapply addThread_keeps; [exact E1|].
    assert (Hlt : (t < length (vm_heap v))%nat).
    { by eapply lookup_lt_Some. }
    set (th2 := mkThread (thread_pc th) (thread_items th) (thread_meta th)).
    assert (Hd1 : dispatchable G (set_heap (vm_heap v ++ [th2]) v)).
    { split_and!; try done. simpl. apply Forall_app. split; [done|].
      apply Forall_singleton. intros En. by apply Hc. }
    apply dispatchable_update.
    + apply dispatchable_update; [done|]. intros x Hx _ En.
      simpl in Hx. rewrite lookup_app_r, Nat.sub_diag in Hx by lia.
      injection Hx as <-. simpl in *. by apply Hab.
    + intros x Hx _ En.
      rewrite update_lookup_ne in Hx by lia. simpl in Hx.
      rewrite lookup_app_l, Hth in Hx by done. injection Hx as <-.
      simpl in *. by apply Hab.
  - (* JMP *)
    unfold doJmp in E. rewrite Hcur, bind_Ok in E. cbv zeta in E.
    eapply addThread_keeps; [exact E|].
    apply dispatchable_update; [done|]. intros x Hx _.
    rewrite Hth in Hx. injection Hx as <-.
    apply carrying_payload. simpl.
    eapply past_header; eauto; by rewrite Hop.
  - (* CMP *)
    unfold doCmp in E. destruct w as [w|]; [|by injection E as <-].
    apply bind_inv in E as (s & _ & E).
    destruct (HasPrefix _ _); [|by injection E as <-].
    rewrite Hcur, bind_Ok in E.
    eapply advance_keeps; [exact Hd|exact Hth| |exact E].
    eapply past_header; eauto; by rewrite Hop.
  - (* SAVE *)
    unfold doSave in E. destruct w as [w|]; [|by injection E as <-].
    rewrite Hcur, bind_Ok in E.
    eapply advance_keeps; [exact Hd|exact Hth| |exact E].
    eapply past_header; eauto; by rewrite Hop.
  - (* META *)
    unfold doMeta in E. rewrite Hcur, bind_Ok in E. cbv zeta in E.
    apply bind_inv in E as (th1 & Hth1 & E).
    eapply addThread_keeps; [exact E|].
    assert (Hp : instr_intf i ≠ None).
    { destruct Hg as [Hg _]. by eapply Hg. }
    apply dispatchable_update.
    + apply dispatchable_update; [done|]. intros x _ _.
      by apply carrying_payload.
    + intros x Hx _. apply carrying_payload.
      apply update_lookup in Hx as (x0 & _ & ->). done.
  - (* MATCH *)
    rewrite Hcur, bind_Ok in E. unfold addMatch in E.
    apply bind_inv in E as (th' & Hth' & E).
    apply bind_inv in E as (items & _ & [= <-]).
    apply load_Ok in Hth'. rewrite Hth in Hth'. injection Hth' as <-.
    split_and!; try done. simpl.
    apply Forall_app. split; [done|]. apply Forall_singleton.
    unfold has_payload; simpl.
    eapply past_header; eauto; by rewrite Hop.
Qed.

Lemma run_keeps G w fuel : ∀ i v v',
  dispatchable G v → run fuel w i v = Ok v' → dispatchable G v'.
Proof.
  induction fuel as [|fuel IH]; intros i v v' Hd E; simpl in E; [done|].
  destruct (vm_currentThreads v !! i) as [t|]; [|by injection E as <-].
  apply bind_inv in E as (v1 & E1 & E).
  eapply IH; [|exact E]. eapply continu_keeps; [|exact E1]. done.
Qed.

Lemma processWord_keeps G w fuel v v' :
  dispatchable G v → processWord fuel w v = Ok v' → dispatchable G v'.
Proof.
  intros Hd E. unfold processWord in E. cbv zeta in E.
  apply bind_inv in E as (v1 & E1 & [= <-]).
  apply (dispatchable_ext G v1); try done.
  eapply run_keeps; [|exact E1]. done.
Qed.

Lemma eachWord_keeps G fuel idx : ∀ v v',
  dispatchable G v → eachWord fuel idx v = Ok v' → dispatchable G v'.
Proof.
  induction idx as [|i idx IH]; intros v v' Hd E; simpl in E.
  - by injection E as <-.
  - apply bind_inv in E as (v1 & E1 & E).
    eapply IH; [|exact E]. eapply processWord_keeps; [|exact E1]. done.
Qed.

(** [execute] from a fresh VM: the first thread is put on the list, then
    the words go by, then the two steps without a word. *)
Lemma execute_start fuel P input tr :
  execute fuel P input (VM.zero tr)
  = (addThread Current 0%nat
       (mkVm P input [mkThread 0 [] None] [] [] [] 1 None 0 tr) ≫= λ v1,
     eachWord fuel (seq 0 (length input)) v1 ≫= λ v2,
     processWord fuel None v2 ≫= finishThreads fuel).
Proof. vm_compute. reflexivity. Qed.

(** Every match [execute] records on a guarded program has a payload. *)
Lemma execute_payloads G fuel P input tr v :
  guarded P G → G 0 →
  execute fuel P input (VM.zero tr) = Ok v →
  Forall has_payload (vm_matches v).
Proof.
  intros Hg H0 E. rewrite execute_start in E.
  apply bind_inv in E as (v1 & E1 & E).
  apply bind_inv in E as (v2 & E2 & E).
  apply bind_inv in E as (v3 & E3 & E).
  unfold finishThreads in E.
  assert (Hd0 : dispatchable G
            (mkVm P input [mkThread 0 [] None] [] [] [] 1 None 0 tr)).
  { split; [exact Hg|]. split.
    - apply Forall_singleton. by intros _.
    - apply Forall_nil_2. }
  assert (Hd : dispatchable G v).
  { eapply processWord_keeps; [|exact E].
    eapply processWord_keeps; [|exact E3].
    eapply eachWord_keeps; [|exact E2].
    eapply addThread_keeps; [exact E1|exact Hd0]. }
  by destruct Hd as (_ & _ & ?).
Qed.

(** *** The program of a registered tree is guarded *)

Section Registered.
Import Compiler CompilerSpec CompilerFacts.

Lemma split_payload a b x : is_split a b x → payload_ok x.
Proof. intros (E & _) E'. congruence. Qed.
Lemma jmp_payload a x : is_jmp a x → payload_ok x.
Proof. intros (E & _) E'. congruence. Qed.
Lemma cmp_payload s x : is_cmp s x → payload_ok x.
Proof. intros (E & _) E'. congruence. Qed.
Lemma save_payload n t x : is_save n t x → payload_ok x.
Proof. intros (E & _) E'. congruence. Qed.
Lemma meta_payload d x : d ≠ None → is_meta d x → payload_ok x.
Proof. intros Hd (_ & E) _. congruence. Qed.

#[local] Hint Resolve split_payload jmp_payload cmp_payload save_payload
  meta_payload : emitted.

Lemma code_at_payloads P t : ∀ p,
  metas_some t → code_at P t p →
  ∀ i, p ≤ i < p + count t → instr_at P i payload_ok.
Proof.
  induction t as [|l IHl r IHr|l IHl r IHr|op t IH|w|nm ty|d t IH];
    cbn [count code_at metas_some]; intros p Hm H i Hi.
  - done.
  - pose proof (count_nonneg l) as Nl. pose proof (count_nonneg r) as Nr.
    destruct H as (H1 & H2 & H3 & H4), Hm as [Hml Hmr].
    assert (i = p ∨ p + 1 ≤ i < p + 1 + count l ∨ i = p + 1 + count l ∨
            p + 2 + count l ≤ i < p + 2 + count l + count r)
      as [->|[Hl|[->|Hr]]] by lia.
    + eapply instr_at_weaken; [|exact H1]. eauto with emitted.
    + by eapply IHl.
    + eapply instr_at_weaken; [|exact H3]. eauto with emitted.
    + by eapply IHr.
  - pose proof (count_nonneg l) as Nl. pose proof (count_nonneg r) as Nr.
    destruct H as (H1 & H2), Hm as [Hml Hmr].
    assert (p ≤ i < p + count l ∨ p + count l ≤ i < p + count l + count r)
      as [Hl|Hr] by lia.
    + by eapply IHl.
    + by eapply IHr.
  - pose proof (count_nonneg t) as Nt. destruct op.
    + lia.
    + destruct H as (H1 & H2 & H3).
      assert (i = p ∨ p + 1 ≤ i < p + 1 + count t ∨ i = p + 1 + count t)
        as [->|[Hl| ->]] by lia.
      * eapply instr_at_weaken; [|exact H1]. eauto with emitted.
      * by eapply IH.
      * eapply instr_at_weaken; [|exact H3]. eauto with emitted.
    + destruct H as (H1 & H2).
      assert (p ≤ i < p + count t ∨ i = p + count t) as [Hl| ->] by lia.
      * by eapply IH.
      * eapply instr_at_weaken; [|exact H2]. eauto with emitted.
    + destruct H as (H1 & H2).
      assert (i = p ∨ p + 1 ≤ i < p + 1 + count t) as [->|Hl] by lia.
      * eapply instr_at_weaken; [|exact H1]. eauto with emitted.
      * by eapply IH.
  - assert (i = p) as -> by lia.
    eapply instr_at_weaken; [|exact H]. eauto with emitted.
  - assert (i = p) as -> by lia.
    eapply instr_at_weaken; [|exact H]. eauto with emitted.
  - pose proof (count_nonneg t) as Nt. destruct H as (H1 & H2), Hm as [Hd Hm].
    assert (i = p ∨ p + 1 ≤ i < p + 1 + count t) as [->|Hl] by lia.
    + eapply instr_at_weaken; [|exact H1]. eauto with emitted.
    + by eapply IH.
Qed.

Lemma no_meta_metas_some t : Parser.no_meta t → metas_some t.
Proof.
  induction t as [|l IHl r IHr|l IHl r IHr|op t IH| | |d t IH];
    simpl; tauto.
Qed.

Lemma registered_metas_some t : registered t → metas_some t.
Proof.
  induction 1 as [cb t Ht|cb t rest Ht Hr IH]; simpl.
  - split; [done|by apply no_meta_metas_some].
  - split_and!; [done|by apply no_meta_metas_some|done].
Qed.

Lemma header_start t p : registered t → header t p p.
Proof. destruct 1; simpl; [done|by left]. Qed.

Lemma instr_at_lookup P i Q x :
  instr_at P i Q → P !! Z.to_nat i = Some x → Q x.
Proof. intros (_ & y & Hy & HQ) Hx. congruence. Qed.

(** From a header address only a SPLIT into the header or a META is met. *)
Lemma header_guard P t :
  registered t → ∀ p, 0 ≤ p → code_at P t p →
  ∀ pc x, header t p pc → P !! Z.to_nat pc = Some x →
    (instr_opcode x = opSplit ∧ header t p (instr_ints0 x) ∧
     header t p (instr_ints1 x)) ∨
    instr_opcode x = opMeta.
Proof.
  induction 1 as [cb t Ht|cb t rest Ht Hr IH]; intros p Hp Hc pc x Hh Hx.
  - simpl in Hh, Hc. subst pc. destruct Hc as [Hc _].
    right. by destruct (instr_at_lookup _ _ _ _ Hc Hx).
  - pose proof (count_nonneg t) as Nt.
    cbn [code_at count] in Hc. destruct Hc as (H1 & [H2 _] & _ & H4).
    cbn [header] in Hh. destruct Hh as [->|[->|Hh]].
    + left. destruct (instr_at_lookup _ _ _ _ H1 Hx) as (Eo & Ea & Eb).
      split; [done|]. rewrite Ea, Eb. cbn [header]. split.
      * right. by left.
      * right. right.
        replace (p + 2 + (1 + count t)) with (p + 3 + count t) by lia.
        by apply header_start.
    + right. by destruct (instr_at_lookup _ _ _ _ H2 Hx).
    + replace (p + 2 + (1 + count t)) with (p + 3 + count t) in H4 by lia.
      destruct (IH (p + 3 + count t) ltac:(lia) H4 pc x Hh Hx)
        as [(Eo & Ha & Hb)|Em]; [left|by right].
      cbn [header]. split_and!; [done|by right; right..].
Qed.

Lemma registered_not_nil t : registered t → t ≠ nilNode.
Proof. by destruct 1. Qed.

Lemma compile_guarded t c :
  registered_set t → compile t zero = Ok c →
  ∃ G, guarded (prog_of c) G ∧ G 0.
Proof.
  intros [->|Hr] E.
  - injection E as <-. exists (λ _, True). split; [|done].
    split; intros pc x _; simpl; by rewrite ?lookup_nil.
  - assert (Hc : compilable t).
    { pose proof (registered_not_nil t Hr) as Hn.
      unfold compile in E.
      assert (E' : (countinstrForProgram t ≫= λ n, make n ≫= λ p,
                  emit t (mkCompiler p (compiler_pc zero)) ≫= emitMatch)
                   = Ok c) by (by destruct t).
      apply bind_inv in E' as (n & En & _). unfold countinstrForProgram in En.
      apply bind_inv in En as (m & Em & _).
      by apply countinstr_Ok in Em as [? _]. }
    pose proof (count_nonneg t) as Nt.
    destruct (compile_spec t Hc) as (c1 & c2 & _ & [P1 L1 F1 C1 G1] & E2 & ->).
    rewrite E in E2. injection E2 as ->.
    simpl in P1, L1, C1. rewrite length_replicate in L1.
    set (P := prog_of (incr_pc (poke (count t) (set_opcode opMatch) c1))).
    assert (HP : ∀ i, 0 ≤ i → i ≠ count t →
                  P !! Z.to_nat i = compiler_instr c1 !! Z.to_nat i).
    { intros i Hi Hne. unfold P, prog_of, incr_pc, poke; simpl.
      apply list_lookup_alter_ne. lia. }
    assert (HC : code_at P t 0).
    { eapply code_at_ext; [lia| |exact C1]. intros i Hi. apply HP; lia. }
    exists (header t 0). split; [split|].
    + intros pc x Hpc Hx Hop.
      destruct (decide (pc < count t)) as [Hlt|Hge].
      * assert (Hq : payload_ok x); [|by apply Hq].
        eapply instr_at_lookup; [|exact Hx].
        eapply code_at_payloads; [|exact HC|lia].
        by apply registered_metas_some.
      * destruct (decide (pc = count t)) as [->|Hne].
        -- change (get (incr_pc (poke (count t) (set_opcode opMatch) c1))
                       (count t) = Some x) in Hx.
           rewrite get_incr_pc, get_poke_eq in Hx.
           destruct (get c1 (count t)); simpl in Hx; [|done].
           injection Hx as <-. done.
        -- apply lookup_lt_Some in Hx.
           unfold P, prog_of in Hx.
           rewrite instr_incr_pc, length_poke in Hx. lia.
    + intros pc x Hpc Hh Hx. by eapply header_guard.
    + by apply header_start.
Qed.

End Registered.

(** *** What [Add] leaves in the parse tree *)

Section Facade.
Context `{Unicode}.
Import Cmds.

Lemma addParseTree_registered t cback c :
  Parser.no_meta t → registered_set (Cmds_parseTree c) →
  registered_set (Cmds_parseTree (addParseTree t cback c)).
Proof.
  intros Ht [E|Hr]; right; unfold addParseTree.
  - rewrite E. simpl. by constructor.
  - destruct Hr; simpl; by repeat constructor.
Qed.

Lemma scanAndParse_no_meta cmd t :
  scanAndParse cmd = Ok (t, None) → Parser.no_meta t.
Proof.
  unfold scanAndParse. intros E.
  apply bind_inv in E as ([[tokens ok] s] & _ & E).
  destruct ok; simpl in E; [|done].
  destruct (ParserFacts.Parse_spec tokens) as (tree & p & HP & _ & _ & _ & Hn).
  rewrite HP, bind_Ok in E.
  destruct (Parser.nilIfEmpty _); by injection E as <-.
Qed.

Lemma Add_registered cmd cback c e c' :
  registered_set (Cmds_parseTree c) → Add cmd cback c = Ok (e, c') →
  registered_set (Cmds_parseTree c') ∧ Cmds_trace c' = Cmds_trace c.
Proof.
  intros Hr E. unfold Add in E.
  apply bind_inv in E as ([t err] & Hs & E).
  destruct err as [err|]; injection E as <- <-; [done|].
  split.
  - apply addParseTree_registered; [|done]. by eapply scanAndParse_no_meta.
  - unfold addParseTree. by destruct (Cmds_parseTree c).
Qed.

Lemma AddAll_registered cmds : ∀ c c',
  registered_set (Cmds_parseTree c) → AddAll cmds c = Ok c' →
  registered_set (Cmds_parseTree c') ∧ Cmds_trace c' = Cmds_trace c.
Proof.
  induction cmds as [|[cmd cback] cmds IH]; intros c c' Hr E; simpl in E.
  - by injection E as <-.
  - apply bind_inv in E as ([e c1] & E1 & E).
    destruct (Add_registered _ _ _ _ _ Hr E1) as [Hr1 Ht1].
    destruct (IH _ _ Hr1 E) as [Hr' Ht']. split; [done|congruence].
Qed.

(** [maximalMatches] picks among the recorded matches. *)
Lemma maximalMatches_recorded v :
  ∃ mms, maximalMatches v = Ok mms ∧ ∀ m, m ∈ mms → m ∈ vm_matches v.
Proof.
  unfold maximalMatches. rewrite longestMatches_spec, bind_Ok.
  set (l := filter _ _).
  assert (Hl : ∀ m, m ∈ l → m ∈ vm_matches v).
  { intros m Hm. by apply list_elem_of_filter in Hm as [_ ?]. }
  destruct l as [|m0 l']; [by exists []|].
  destruct (decide _); [exists []|by eexists].
  split; [done|]. intros m Hm. by apply elem_of_nil in Hm.
Qed.

(** C3.  Commands registered with [Add] (from the empty set, each error
    dropped), a trace writer set or not, then [Compile]; [Parse] on any
    input.  [Parse] adds no outcome of its own to the run of the VM: when
    [execute] comes back, [maximalMatches] comes back with a list [mms],
    and if [mms] has exactly one match, that match carries a callback as
    its payload, [Parse] calls it once, with the match and the context,
    and returns true; if [mms] has no match or more than one, [Parse]
    calls nothing and returns false.  When [execute] panics or does not
    come back, neither does [Parse]. *)
Theorem Parse_calls_back_single_maximal_match
    (cmds : list (list rune * Callback)) (w : bool) (c c' : Cmds)
    (fuel : nat) (input : list rune) (ctx : nat) :
  AddAll cmds zero = Ok c →
  Compile (TraceExecutionTo w c) = Ok c' →
  match execute fuel (Cmds_prog c') (CmdScanner.Scan input) (VM.zero w) with
  | Ok v =>
      ∃ mms, maximalMatches v = Ok mms ∧
        match mms with
        | [mm] =>
            ∃ cback, match_meta mm = Some cback ∧
              Parse fuel input ctx c' = Ok (true, [mkCall cback mm ctx])
        | _ => Parse fuel input ctx c' = Ok (false, [])
        end
  | Panic => Parse fuel input ctx c' = Panic
  | Timeout => Parse fuel input ctx c' = Timeout
  end.
Proof.
  intros HA HC.
  destruct (AddAll_registered cmds zero c) as [Hr _]; [by left|done|].
  unfold Compile in HC. apply bind_inv in HC as (cmp & Hcmp & [= <-]).
  cbn [TraceExecutionTo Cmds_parseTree Cmds_trace Cmds_prog] in *.
  destruct (compile_guarded _ _ Hr Hcmp) as (G & Hg & H0).
  unfold Parse. cbn [Cmds_prog Cmds_trace].
  destruct (execute _ _ _ _) as [v| |] eqn:Ev; [|done..].
  rewrite bind_Ok.
  pose proof (execute_payloads _ _ _ _ _ _ Hg H0 Ev) as Hp.
  destruct (maximalMatches_recorded v) as (mms & Hm & Hsub).
  exists mms. split; [done|]. rewrite Hm, !bind_Ok.
  destruct mms as [|mm [|mm' rest]].
  - done.
  - destruct (decide _) as [Hne|_]; [done|].
    assert (Hmm : has_payload mm).
    { eapply (proj1 (Forall_forall _ _)); [exact Hp|].
      apply Hsub, list_elem_of_here. }
    unfold has_payload in Hmm.
    change (index [mm] 0) with (Ok mm). rewrite bind_Ok.
    destruct (match_meta mm) as [cback|]; [|done]. by exists cback.
  - destruct (decide _) as [_|Hne]; [done|].
    exfalso. apply Hne. unfold len. simpl. lia.
Qed.

End Facade.

(** C3 with [info things?] and [drop] registered, on the input [dr]: one
    maximal match, carrying the callback of [drop]. *)
Lemma Parse_calls_back_single_maximal_match_witness :
  ∃ c c',
    @AddAll latin1 [(runes "info things?", 1%nat); (runes "drop", 2%nat)]
      Cmds.zero = Ok c ∧
    Cmds.Compile (Cmds.TraceExecutionTo false c) = Ok c' ∧
    Cmds.Parse 20 (runes "dr") 5 c'
    = Ok (true,
          [Cmds.mkCall 2%nat (mkMatch [keywordValue "drop" "dr"] (Some 2%nat))
             5%nat]).
Proof.
  assert (HA : ∃ c, @AddAll latin1
            [(runes "info things?", 1%nat); (runes "drop", 2%nat)]
            Cmds.zero = Ok c) by (eexists; vm_compute; reflexivity).
  destruct HA as [c HA].
  assert (HC : ∃ c', Cmds.Compile (Cmds.TraceExecutionTo false c) = Ok c').
  { pose proof HA as Hc. vm_compute in Hc. injection Hc as <-.
    eexists. vm_compute. reflexivity. }
  destruct HC as [c' HC].
  exists c, c'. split; [exact HA|]. split; [exact HC|].
  pose proof (Parse_calls_back_single_maximal_match _ false c c' 20
                (runes "dr") 5%nat HA HC) as Hw.
  vm_compute in HA. injection HA as <-.
  vm_compute in HC. injection HC as <-.
  destruct (execute _ _ _ _) as [v| |] eqn:Ev;
    [|vm_compute in Ev; discriminate..].
  vm_compute in Ev. injection Ev as <-.
  destruct Hw as (mms & Hm & Hw).
  vm_compute in Hm. injection Hm as <-.
  destruct Hw as (cback & Hcb & Hw). injection Hcb as <-. exact Hw.
Defined.

End DispatchFacts.

(** ** The VM on compiled programs: nothing dangles *)

Module SafetyFacts.
Import VM VMFacts Safety.

#[local] Arguments index : simpl never.

Lemma index_in_prog {A} (l : list A) (i : Z) :
  0 ≤ i < len l → ∃ a, index l i = Ok a ∧ l !! Z.to_nat i = Some a.
Proof.
  intros Hi. unfold len in Hi.
  destruct (lookup_lt_is_Some_2 l (Z.to_nat i)) as [a Ha]; [lia|].
  exists a. split; [|done]. apply index_Ok. split; [lia|done].
Qed.

Lemma sound_update P input t f v :
  sound P input v →
  (∀ th, vm_heap v !! t = Some th → thread_ok P input (f th)) →
  sound P input (update t f v).
Proof.
  intros (Hp & Hi & Htr & Hh & Hc & Hn) Hf.
  unfold sound, update; simpl. rewrite length_alter.
  split_and!; try done. apply Forall_alter; [done|]. intros x Hx _. by apply Hf.
Qed.

Lemma sound_append P input l t v :
  sound P input v → (t < length (vm_heap v))%nat →
  sound P input (append l t v).
Proof.
  intros (Hp & Hi & Htr & Hh & Hc & Hn) Ht.
  destruct l; unfold sound; simpl; split_and!; try done;
    (apply Forall_app; split; [done|by apply Forall_singleton]).
Qed.

Lemma addThread_sound P input l t v :
  sound P input v → (t < length (vm_heap v))%nat →
  ∃ v', addThread l t v = Ok v' ∧ sound P input v' ∧
        vm_heap v' = vm_heap v ∧ vm_thread v' = vm_thread v.
Proof.
  intros Hs Ht. pose proof Hs as (Hp & Hi & Htr & Hh & Hc & Hn).
  unfold addThread. destruct (decide _); [by exists v|].
  destruct (lookup_lt_is_Some_2 _ _ Ht) as [th Hth].
  rewrite (proj2 (load_Ok t v th) Hth), bind_Ok.
  pose proof (proj1 (Forall_lookup _ _) Hh _ _ Hth) as [Hpc _].
  rewrite Hp. destruct (index_in_prog P (thread_pc th) Hpc) as (x & -> & _).
  rewrite bind_Ok. destruct (decide _).
  - by exists v.
  - exists (append l t v). split_and!; try done.
    + by apply sound_append.
    + by destruct l.
    + by destruct l.
Qed.

Lemma mapM_Ok {A B} (f : A → result B) (l : list A) :
  Forall (λ a, ∃ b, f a = Ok b) l → ∃ bs, mapM f l = Ok bs.
Proof.
  induction 1 as [|a l [b Hb] _ [bs IH]]; [by exists []|].
  exists (b :: bs). simpl. by rewrite Hb, bind_Ok, IH.
Qed.

Lemma finalize_Ok v b :
  binding_ok (vm_prog v) (vm_input v) b → ∃ i, finalize v b = Ok i.
Proof.
  intros (H0 & (x & Hx & Hop) & Hw). unfold finalize.
  rewrite (proj2 (index_Ok _ _ x)) by done. rewrite bind_Ok.
  destruct (lookup_lt_is_Some_2 _ _ Hw) as [s Hs].
  rewrite (index_lookup _ _ _ Hs), bind_Ok.
  destruct Hop as [-> | ->]; by eexists.
Qed.

Lemma trace_Ok P input v t th :
  sound P input v → vm_thread v = Some t → vm_heap v !! t = Some th →
  trace v = Ok ().
Proof.
  intros (Hp & Hi & Htr & Hh & _) Ht Hth. unfold trace.
  destruct (vm_traceWriter v) eqn:Etr; [|done].
  pose proof (proj1 (Forall_lookup _ _) Hh _ _ Hth) as [Hpc _].
  unfold currentinstr, current. rewrite Ht, bind_Ok.
  rewrite (proj2 (load_Ok t v th) Hth), bind_Ok, Hp.
  destruct (index_in_prog P (thread_pc th) Hpc) as (x & -> & _).
  rewrite !bind_Ok.
  destruct (lookup_lt_is_Some_2 _ _ (Htr Etr)) as [s Hs].
  by rewrite (index_lookup _ _ _ Hs).
Qed.

Lemma traceBind_Ok P input v : sound P input v → traceBind v = Ok ().
Proof.
  intros (_ & _ & Htr & _). unfold traceBind.
  destruct (vm_traceWriter v) eqn:Etr; [|done].
  destruct (lookup_lt_is_Some_2 _ _ (Htr Etr)) as [s Hs].
  by rewrite (index_lookup _ _ _ Hs).
Qed.

(** The writes of CMP and SAVE once the word is taken. *)
Lemma advance_sound P input l t th x w v :
  targets_ok P → sound P input v →
  vm_heap v !! t = Some th →
  P !! Z.to_nat (thread_pc th) = Some x →
  instr_opcode x = opCmp ∨ instr_opcode x = opSave →
  (w < length input)%nat →
  ∃ v',
    (let v := update t (bind (thread_pc th) w) v in
     _ ← traceBind v;
     th ← load t v;
     let v := update t (with_pc (thread_pc th + 1)) v in
     addThread l t v) = Ok v' ∧
    sound P input v'.
Proof.
  intros HT Hs Hth Hx Hop Hw. cbv zeta.
  pose proof Hs as (Hp & Hi & Htr & Hh & Hc & Hn).
  pose proof (proj1 (Forall_lookup _ _) Hh _ _ Hth) as [Hpc Hit].
  assert (Hnext : thread_pc th + 1 < len P).
  { pose proof (HT _ _ (proj1 Hpc) Hx) as Ho.
    by destruct Hop as [E|E]; rewrite E in Ho. }
  assert (Hb : thread_ok P input (bind (thread_pc th) w th)).
  { rewrite bind_items. split; [done|]. simpl.
    apply Forall_app. split; [done|]. apply Forall_singleton.
    split; [by destruct Hpc|]. split; [by exists x|done]. }
  assert (Hs1 : sound P input (update t (bind (thread_pc th) w) v)).
  { apply sound_update; [done|]. intros th' Hth'. congruence. }
  rewrite (traceBind_Ok P input) by done. rewrite bind_Ok.
  rewrite (load_update _ _ _ _ Hth), bind_Ok.
  destruct (addThread_sound P input l t
              (update t (with_pc (thread_pc (bind (thread_pc th) w th) + 1))
                 (update t (bind (thread_pc th) w) v)))
    as (v' & E & Hs' & _).
  - apply sound_update; [done|]. intros th' Hth'.
    apply update_lookup in Hth' as (x0 & Hx0 & ->).
    rewrite Hth in Hx0. injection Hx0 as <-.
    rewrite bind_items in *. split; simpl; [lia|]. by destruct Hb.
  - unfold update; simpl. rewrite !length_alter. by eapply lookup_lt_Some.
  - by exists v'.
Qed.

(** One instruction, on a thread of the heap: [continu] comes back. *)
Lemma continu_sound P input w t v :
  targets_ok P → sound P input v → word_ok input w →
  vm_thread v = Some t → (t < length (vm_heap v))%nat →
  ∃ v', continu w v = Ok v' ∧ sound P input v'.
Proof.
  intros HT Hs Hw Ht Hlt.
  pose proof Hs as (Hp & Hi & Htr & Hh & Hc & Hn).
  destruct (lookup_lt_is_Some_2 _ _ Hlt) as [th Hth].
  pose proof (proj1 (Forall_lookup _ _) Hh _ _ Hth) as [Hpc Hit].
  destruct (index_in_prog P (thread_pc th) Hpc) as (x & Hx & Hx').
  assert (Hcur : current v = Ok t) by (unfold current; by rewrite Ht).
  unfold continu.
  rewrite (StepFacts.currentinstr_at v t th x), bind_Ok by (by rewrite ?Hp).
  rewrite (trace_Ok P input v t th), bind_Ok by done.
  pose proof (HT _ _ (proj1 Hpc) Hx') as Ho.
  destruct (instr_opcode x) eqn:Hop.
  - (* NOP *) by exists v.
  - (* SPLIT *)
    destruct Ho as [Ha Hb].
    unfold doSplit, clone, alloc.
    rewrite Hcur, bind_Ok, (proj2 (load_Ok t v th) Hth), !bind_Ok. cbv zeta.
    set (th2 := mkThread (thread_pc th) (thread_items th) (thread_meta th)).
    assert (Hs1 : sound P input (set_heap (vm_heap v ++ [th2]) v)).
    { unfold sound; simpl. rewrite length_app. split_and!; try done.
      - apply Forall_app. split; [done|]. by apply Forall_singleton.
      - eapply Forall_impl; [exact Hc|]. simpl. lia.
      - eapply Forall_impl; [exact Hn|]. simpl. lia. }
    set (v2 := update t (with_pc (instr_ints0 x))
                 (update (length (vm_heap v)) (with_pc (instr_ints1 x))
                    (set_heap (vm_heap v ++ [th2]) v))).
    assert (Hs2 : sound P input v2).
    { apply sound_update.
      - apply sound_update; [done|]. intros th' Hth'. simpl in Hth'.
        rewrite lookup_app_r, Nat.sub_diag in Hth' by lia.
        injection Hth' as <-. by split.
      - intros th' Hth'.
        rewrite update_lookup_ne in Hth' by lia. simpl in Hth'.
        rewrite lookup_app_l, Hth in Hth' by done.
        injection Hth' as <-. by split. }
    assert (Hl2 : length (vm_heap v2) = S (length (vm_heap v))).
    { unfold v2, update; simpl. rewrite !length_alter, length_app. simpl. lia. }
    destruct (addThread_sound P input Current t v2) as (v3 & -> & Hs3 & Hh3 & _);
      [done|lia|].
    rewrite bind_Ok.
    destruct (addThread_sound P input Current (length (vm_heap v)) v3)
      as (v4 & -> & Hs4 & _); [done|rewrite Hh3; lia|].
    by exists v4.
  - (* JMP *)
    unfold doJmp. rewrite Hcur, bind_Ok. cbv zeta.
    destruct (addThread_sound P input Current t
                (update t (with_pc (instr_ints0 x)) v)) as (v' & -> & Hs' & _).
    + apply sound_update; [done|]. intros th' Hth'.
      rewrite Hth in Hth'. injection Hth' as <-. by split.
    + unfold update; simpl. by rewrite length_alter.
    + by exists v'.
  - (* CMP *)
    unfold doCmp. destruct w as [w|]; [|by exists v].
    simpl in Hw. rewrite Hi.
    destruct (lookup_lt_is_Some_2 _ _ Hw) as [s Hs0].
    rewrite (index_lookup _ _ _ Hs0), bind_Ok.
    destruct (HasPrefix _ _); [|by exists v].
    rewrite Hcur, bind_Ok.
    eapply (advance_sound P input Next t th x w v); eauto.
  - (* SAVE *)
    unfold doSave. destruct w as [w|]; [|by exists v].
    simpl in Hw. rewrite Hcur, bind_Ok.
    eapply (advance_sound P input Next t th x w v); eauto.
  - (* META *)
    unfold doMeta. rewrite Hcur, bind_Ok. cbv zeta.
    rewrite (load_update _ _ _ _ Hth), bind_Ok. simpl.
    destruct (addThread_sound P input Current t
                (update t (with_pc (thread_pc th + 1))
                   (update t (with_meta (instr_intf x)) v)))
      as (v' & -> & Hs' & _).
    + apply sound_update.
      * apply sound_update; [done|]. intros th' Hth'.
        rewrite Hth in Hth'. injection Hth' as <-. by split.
      * intros th' Hth'. apply update_lookup in Hth' as (x0 & Hx0 & ->).
        rewrite Hth in Hx0. injection Hx0 as <-. split; simpl; [lia|done].
    + unfold update; simpl. by rewrite !length_alter.
    + by exists v'.
  - (* MATCH *)
    rewrite Hcur, bind_Ok. unfold addMatch.
    rewrite (proj2 (load_Ok t v th) Hth), bind_Ok.
    destruct (mapM_Ok (finalize v) (thread_items th)) as [items ->].
    { eapply Forall_impl; [exact Hit|]. intros b Hb.
      apply finalize_Ok. by rewrite Hp, Hi. }
    rewrite bind_Ok. eexists. split; [done|]. done.
Qed.

Lemma run_safe P input w fuel : ∀ i v,
  targets_ok P → sound P input v → word_ok input w →
  safely (sound P input) (run fuel w i v).
Proof.
  induction fuel as [|fuel IH]; intros i v HT Hs Hw; simpl; [done|].
  destruct (vm_currentThreads v !! i) as [t|] eqn:Et; [|done].
  pose proof Hs as (Hp & Hi & Htr & Hh & Hc & Hn).
  pose proof (proj1 (Forall_lookup _ _) Hc _ _ Et) as Hlt.
  destruct (continu_sound P input w t (set_thread (Some t) v))
    as (v' & -> & Hs'); try done.
  rewrite bind_Ok. by apply IH.
Qed.

Lemma processWord_safe P input w fuel v :
  targets_ok P → sound P input v → word_ok input w →
  safely (sound P input) (processWord fuel w v).
Proof.
  intros HT Hs Hw. unfold processWord. cbv zeta.
  pose proof (run_safe P input w fuel 0 (set_gen (vm_gen v + 1) v) HT) as Hr.
  destruct (run _ _ _ _) as [v'| |]; simpl; try done.
  - destruct Hr as (Hp & Hi & Htr & Hh & Hc & Hn); done.
  - by apply Hr.
Qed.

Lemma eachWord_safe P input fuel idx : ∀ v,
  targets_ok P → sound P input v →
  Forall (λ i, (i < length input)%nat) idx →
  safely (sound P input) (eachWord fuel idx v).
Proof.
  induction idx as [|i idx IH]; intros v HT Hs Hidx; simpl; [done|].
  apply Forall_cons in Hidx as [Hi Hidx].
  pose proof (processWord_safe P input (Some i) fuel (set_wordIndex i v) HT)
    as Hr.
  destruct (processWord _ _ _) as [v'| |]; simpl.
  - apply IH; try done. apply Hr; [|done].
    destruct Hs as (Hp & Hin & Htr & Hh & Hc & Hn).
    unfold sound, traceable; simpl. rewrite Hin. split_and!; done.
  - apply Hr; [|done].
    destruct Hs as (Hp & Hin & Htr & Hh & Hc & Hn).
    unfold sound, traceable; simpl. rewrite Hin. split_and!; done.
  - done.
Qed.

Lemma safely_bind {A B} (Q : A → Prop) (R : B → Prop) m (f : A → result B) :
  safely Q m → (∀ a, Q a → safely R (f a)) → safely R (m ≫= f).
Proof. destruct m; simpl; auto. Qed.

(** *** A program with no instruction: nothing runs *)

Lemma processWord_idle fuel w v :
  idle v → safely idle (processWord fuel w v).
Proof.
  intros [Hc Hn]. unfold processWord. cbv zeta.
  destruct fuel as [|fuel]; simpl; [done|].
  rewrite Hc. simpl. unfold idle. simpl. by split.
Qed.

Lemma eachWord_idle fuel idx : ∀ v,
  idle v → safely idle (eachWord fuel idx v).
Proof.
  induction idx as [|i idx IH]; intros v Hv; simpl; [done|].
  eapply safely_bind; [by apply processWord_idle|]. intros v' Hv'. by apply IH.
Qed.

(** *** The targets of compiled code *)

Section Targets.
Import Compiler CompilerSpec CompilerFacts.

Lemma within_mono lo hi lo' hi' x :
  lo' ≤ lo → hi ≤ hi' → within lo hi x → within lo' hi' x.
Proof. unfold within. destruct (instr_opcode x); intros; lia || done. Qed.

Lemma split_within a b lo hi x :
  lo ≤ a ≤ hi → lo ≤ b ≤ hi → is_split a b x → within lo hi x.
Proof. intros Ha Hb (E & <- & <-). unfold within. by rewrite E. Qed.
Lemma jmp_within a lo hi x : lo ≤ a ≤ hi → is_jmp a x → within lo hi x.
Proof. intros Ha (E & <-). unfold within. by rewrite E. Qed.
Lemma cmp_within s lo hi x : is_cmp s x → within lo hi x.
Proof. intros (E & _). unfold within. by rewrite E. Qed.
Lemma save_within n t lo hi x : is_save n t x → within lo hi x.
Proof. intros (E & _). unfold within. by rewrite E. Qed.
Lemma meta_within d lo hi x : is_meta d x → within lo hi x.
Proof. intros (E & _). unfold within. by rewrite E. Qed.

Ltac cell H lem :=
  eapply instr_at_weaken; [|exact H]; intros ?; apply lem; lia.
Ltac inner IH H :=
  eapply instr_at_weaken; [|eapply IH; [|exact H|]; lia];
  intros ?; apply within_mono; lia.

(** Every SPLIT and JMP of the code of [t] placed at [p] aims inside the
    code or just behind it. *)
Lemma code_at_within P t : ∀ p,
  0 ≤ p → code_at P t p →
  ∀ i, p ≤ i < p + count t → instr_at P i (within p (p + count t)).
Proof.
  induction t as [|l IHl r IHr|l IHl r IHr|op t IH|w|nm ty|d t IH];
    cbn [count code_at]; intros p Hp H i Hi.
  - done.
  - pose proof (count_nonneg l) as Nl. pose proof (count_nonneg r) as Nr.
    destruct H as (H1 & H2 & H3 & H4).
    assert (i = p ∨ p + 1 ≤ i < p + 1 + count l ∨ i = p + 1 + count l ∨
            p + 2 + count l ≤ i < p + 2 + count l + count r)
      as [->|[Hl|[->|Hr]]] by lia.
    + cell H1 split_within.
    + inner IHl H2.
    + cell H3 jmp_within.
    + inner IHr H4.
  - pose proof (count_nonneg l) as Nl. pose proof (count_nonneg r) as Nr.
    destruct H as (H1 & H2).
    assert (p ≤ i < p + count l ∨ p + count l ≤ i < p + count l + count r)
      as [Hl|Hr] by lia.
    + inner IHl H1.
    + inner IHr H2.
  - pose proof (count_nonneg t) as Nt. destruct op.
    + lia.
    + destruct H as (H1 & H2 & H3).
      assert (i = p ∨ p + 1 ≤ i < p + 1 + count t ∨ i = p + 1 + count t)
        as [->|[Hl| ->]] by lia.
      * cell H1 split_within.
      * inner IH H2.
      * cell H3 jmp_within.
    + destruct H as (H1 & H2).
      assert (p ≤ i < p + count t ∨ i = p + count t) as [Hl| ->] by lia.
      * inner IH H1.
      * cell H2 split_within.
    + destruct H as (H1 & H2).
      assert (i = p ∨ p + 1 ≤ i < p + 1 + count t) as [->|Hl] by lia.
      * cell H1 split_within.
      * inner IH H2.
  - assert (i = p) as -> by lia.
    eapply instr_at_weaken; [|exact H]. intros ?. apply cmp_within.
  - assert (i = p) as -> by lia.
    eapply instr_at_weaken; [|exact H]. intros ?. apply save_within.
  - pose proof (count_nonneg t) as Nt. destruct H as (H1 & H2).
    assert (i = p ∨ p + 1 ≤ i < p + 1 + count t) as [->|Hl] by lia.
    + eapply instr_at_weaken; [|exact H1]. intros ?. apply meta_within.
    + inner IH H2.
Qed.

Lemma compile_targets t c : compile t zero = Ok c → targets_ok (prog_of c).
Proof.
  intros E. destruct (is_nil t) eqn:Et.
  { destruct t; try done. injection E as <-.
    intros pc x _ Hx. vm_compute in Hx. discriminate. }
  assert (Hn : t ≠ nilNode) by (by intros ->).
  destruct (compile_code t c Hn E) as (_ & HC & HL & HM & _).
  pose proof (count_nonneg t) as Nt.
  intros pc x Hpc Hx.
  destruct (decide (pc < count t)) as [Hlt|Hge].
  - pose proof (code_at_within _ t 0 ltac:(lia) HC pc ltac:(lia)) as Hw.
    destruct Hw as (_ & y & Hy & Hw). rewrite Hx in Hy. injection Hy as <-.
    unfold within in Hw. rewrite HL.
    destruct (instr_opcode x); lia || done.
  - assert (pc = count t) as ->.
    { apply lookup_lt_Some in Hx. unfold len in HL. lia. }
    destruct HM as (_ & y & Hy & Hm). rewrite Hx in Hy. injection Hy as <-.
    by rewrite Hm.
Qed.

End Targets.

(** [execute] on a program whose targets are in range: no panic, as long
    as no trace is asked for on an empty input. *)
Lemma execute_safe P input tr fuel :
  targets_ok P → tr = false ∨ input ≠ [] →
  execute fuel P input (VM.zero tr) ≠ Panic.
Proof.
  intros HT Htr. rewrite DispatchFacts.execute_start.
  set (v0 := mkVm P input [mkThread 0 [] None] [] [] [] 1 None 0 tr).
  assert (Hidx : Forall (λ i, (i < length input)%nat) (seq 0 (length input))).
  { apply Forall_forall. intros i Hi. apply elem_of_seq in Hi. lia. }
  destruct (decide (len P = 0)) as [E0|Hne].
  - (* nothing to run: no thread gets on a list *)
    unfold addThread. cbn [vm_prog v0]. rewrite decide_True by done.
    rewrite bind_Ok.
    assert (Hs : safely idle
      (eachWord fuel (seq 0 (length input)) v0 ≫= λ v2,
       processWord fuel None v2 ≫= finishThreads fuel)).
    { eapply safely_bind; [by apply eachWord_idle|]. intros v2 Hv2.
      eapply safely_bind; [by apply processWord_idle|]. intros v3 Hv3.
      by apply processWord_idle. }
    intros E. by rewrite E in Hs.
  - assert (Hs0 : sound P input v0).
    { unfold sound, traceable; simpl. split_and!; try done.
      + intros ->. destruct Htr as [?|Hin]; [done|].
        destruct input; [done|simpl; lia].
      + apply Forall_singleton. split; [|done]. simpl.
        pose proof (Zle_0_nat (length P)). unfold len in *. lia. }
    assert (Hs : safely (sound P input)
      (addThread Current 0%nat v0 ≫= λ v1,
       eachWord fuel (seq 0 (length input)) v1 ≫= λ v2,
       processWord fuel None v2 ≫= finishThreads fuel)).
    { destruct (addThread_sound P input Current 0%nat v0)
        as (v1 & -> & Hs1 & _); [done|simpl; lia|].
      rewrite bind_Ok.
      eapply safely_bind; [by apply eachWord_safe|]. intros v2 Hv2.
      eapply safely_bind; [by apply processWord_safe|]. intros v3 Hv3.
      by apply processWord_safe. }
    intros E. by rewrite E in Hs.
Qed.

(** A program [compile] returns is closed: each SPLIT and JMP aims at an
    address of the program, each CMP, SAVE and META is followed by an
    instruction, and no [gen] field is set. *)
Theorem compiled_program_is_closed (t : node) (c : Compiler.compiler) :
  Compiler.compile t Compiler.zero = Ok c →
  targets_ok (Compiler.prog_of c) ∧
  Forall (λ x, instr_gen x = 0) (Compiler.prog_of c).
Proof.
  intros E. split; [by eapply compile_targets|].
  destruct (is_nil t) eqn:Et.
  - destruct t; try done. injection E as <-. apply Forall_nil_2.
  - assert (Hn : t ≠ nilNode) by (by intros ->).
    by destruct (CompilerFacts.compile_code t c Hn E) as (_ & _ & _ & _ & ?).
Qed.

Lemma compiled_program_is_closed_witness :
  ∃ c, Compiler.compile
         (alts (word "this") (rep repeatZeroOrMore (word "that")))
         Compiler.zero = Ok c ∧
       targets_ok (Compiler.prog_of c) ∧
       Forall (λ x, instr_gen x = 0) (Compiler.prog_of c).
Proof.
  eexists. split; [reflexivity|].
  apply (compiled_program_is_closed
           (alts (word "this") (rep repeatZeroOrMore (word "that")))).
  reflexivity.
Defined.

(** The VM does not panic on a program [compile] returned, whatever the
    input and the budget, unless a trace is asked for on an input without
    words: no thread leaves the program, no binding dangles, and
    [addMatch] meets only CMP and SAVE bindings. *)
Theorem execute_never_panics (t : node) (c : Compiler.compiler)
    (input : list string) (tr : bool) (fuel : nat) :
  Compiler.compile t Compiler.zero = Ok c →
  tr = false ∨ input ≠ [] →
  execute fuel (Compiler.prog_of c) input (VM.zero tr) ≠ Panic.
Proof.
  intros E Htr. apply execute_safe; [|exact Htr].
  eapply compile_targets. exact E.
Qed.

Lemma execute_never_panics_witness :
  ∃ c, Compiler.compile
         (alts (word "this") (rep repeatZeroOrMore (word "that")))
         Compiler.zero = Ok c ∧
       execute 50 (Compiler.prog_of c) ["th"; "that"]%string (VM.zero true)
       ≠ Panic.
Proof.
  eexists. split; [reflexivity|].
  apply (execute_never_panics
           (alts (word "this") (rep repeatZeroOrMore (word "that")))).
  - reflexivity.
  - right. discriminate.
Defined.

(** With a trace writer set and a program that has an instruction,
    [execute] on an input without words panics: the first [continu]
    calls [trace], which reads [input[wordIndex]]. *)
Theorem trace_without_words_panics (P : prog) (x : instr) (fuel : nat) :
  P !! 0%nat = Some x → instr_gen x ≠ 1 →
  execute (S fuel) P [] (VM.zero true) = Panic.
Proof.
  intros Hx Hg. rewrite DispatchFacts.execute_start.
  set (v0 := mkVm P [] [mkThread 0 [] None] [] [] [] 1 None 0 true).
  assert (Hi : index P 0 = Ok x) by (by apply index_Ok).
  rewrite (StepFacts.addThread_append Current 0%nat v0 (mkThread 0 [] None) x)
    by done.
  rewrite bind_Ok. cbn [eachWord length seq]. rewrite bind_Ok.
  unfold processWord. cbv zeta. cbn [run].
  cbn [append v0 set_gen vm_currentThreads set_currentThreads lookup
       list_lookup].
  assert (Hc : continu None
    (set_thread (Some 0%nat)
       (set_gen (vm_gen (append Current 0%nat v0) + 1)
          (append Current 0%nat v0))) = Panic).
  { unfold continu.
    rewrite (StepFacts.currentinstr_at _ 0%nat (mkThread 0 [] None) x)
      by done.
    rewrite bind_Ok. unfold trace. cbn [vm_traceWriter set_thread set_gen
      append v0 set_currentThreads].
    rewrite (StepFacts.currentinstr_at _ 0%nat (mkThread 0 [] None) x)
      by done.
    reflexivity. }
  simpl. simpl in Hc. by rewrite Hc.
Qed.

Lemma trace_without_words_panics_witness :
  execute 1 [mkInstr opCmp 0 0 "show" "" None 0; mkInstr opMatch 0 0 "" "" None 0]
    [] (VM.zero true) = Panic.
Proof.
  apply (trace_without_words_panics _
           (mkInstr opCmp 0 0 "show" "" None 0)); [reflexivity|].
  simpl. lia.
Defined.

End SafetyFacts.

(** ** One binding per word *)

Module CountingFacts.
Import VM VMFacts Safety.

#[local] Arguments index : simpl never.

Lemma addThread_cases l t v v' :
  addThread l t v = Ok v' → v' = v ∨ v' = append l t v.
Proof.
  unfold addThread. destruct (decide _); [intros [= <-]; by left|].
  destruct (load t v) as [th| |]; simpl; try done.
  destruct (index _ _) as [i| |]; simpl; try done.
  destruct (decide _); intros [= <-]; [by left|by right].
Qed.

Lemma mapM_length {A B} (f : A → result B) (l : list A) : ∀ bs,
  mapM f l = Ok bs → length bs = length l.
Proof.
  induction l as [|a l IH]; intros bs E; simpl in E.
  - by injection E as <-.
  - apply bind_inv in E as (b & _ & E).
    apply bind_inv in E as (bs' & E' & [= <-]). simpl. f_equal. by apply IH.
Qed.

(** *** What a run never writes *)

Lemma same_setup_refl v : same_setup v v.
Proof. done. Qed.

Lemma same_setup_trans v1 v2 v3 :
  same_setup v1 v2 → same_setup v2 v3 → same_setup v1 v3.
Proof. intros (? & ? & ?) (? & ? & ?). split_and!; congruence. Qed.

Lemma addThread_setup l t v v' : addThread l t v = Ok v' → same_setup v v'.
Proof.
  intros E. apply addThread_cases in E as [->| ->]; [done|by destruct l].
Qed.

Lemma advance_setup l ip w t v v' :
  (let v := update t (bind ip w) v in
   _ ← traceBind v;
   th ← load t v;
   let v := update t (with_pc (thread_pc th + 1)) v in
   addThread l t v) = Ok v' →
  same_setup v v'.
Proof.
  intros E. cbv zeta in E.
  apply bind_inv in E as ([] & _ & E).
  apply bind_inv in E as (th1 & _ & E).
  by apply addThread_setup in E.
Qed.

Lemma continu_setup w v v' : continu w v = Ok v' → same_setup v v'.
Proof.
  intros E. unfold continu in E.
  apply bind_inv in E as ([ip x] & _ & E).
  apply bind_inv in E as ([] & _ & E).
  destruct (instr_opcode x).
  - by injection E as <-.
  - unfold doSplit in E. apply bind_inv in E as (t & _ & E).
    apply bind_inv in E as ([t2 u] & Hcl & E).
    unfold clone in Hcl. apply bind_inv in Hcl as (th & _ & [= <- <-]).
    apply bind_inv in E as (u3 & E3 & E).
    apply addThread_setup in E3, E.
    eapply same_setup_trans; [|exact E].
    eapply same_setup_trans; [|exact E3]. done.
  - unfold doJmp in E. apply bind_inv in E as (t & _ & E).
    by apply addThread_setup in E.
  - unfold doCmp in E. destruct w as [w|]; [|by injection E as <-].
    apply bind_inv in E as (s & _ & E).
    destruct (HasPrefix _ _); [|by injection E as <-].
    apply bind_inv in E as (t & _ & E). by apply advance_setup in E.
  - unfold doSave in E. destruct w as [w|]; [|by injection E as <-].
    apply bind_inv in E as (t & _ & E). by apply advance_setup in E.
  - unfold doMeta in E. apply bind_inv in E as (t & _ & E).
    cbv zeta in E. apply bind_inv in E as (th & _ & E).
    by apply addThread_setup in E.
  - apply bind_inv in E as (t & _ & E). unfold addMatch in E.
    apply bind_inv in E as (th & _ & E).
    by apply bind_inv in E as (items & _ & [= <-]).
Qed.

Lemma run_setup w fuel : ∀ i v v',
  run fuel w i v = Ok v' → same_setup v v'.
Proof.
  induction fuel as [|fuel IH]; intros i v v' E; simpl in E; [done|].
  destruct (vm_currentThreads v !! i) as [t|]; [|by injection E as <-].
  apply bind_inv in E as (v1 & E1 & E).
  apply continu_setup in E1. apply IH in E.
  eapply same_setup_trans; [|exact E]. done.
Qed.

Lemma processWord_setup w fuel v v' :
  processWord fuel w v = Ok v' → same_setup v v'.
Proof.
  intros E. unfold processWord in E. cbv zeta in E.
  apply bind_inv in E as (v1 & E1 & [= <-]).
  by apply run_setup in E1.
Qed.

Lemma eachWord_setup fuel idx : ∀ v v',
  eachWord fuel idx v = Ok v' → same_setup v v'.
Proof.
  induction idx as [|i idx IH]; intros v v' E; simpl in E.
  - by injection E as <-.
  - apply bind_inv in E as (v1 & E1 & E).
    apply processWord_setup in E1. apply IH in E.
    eapply same_setup_trans; [|exact E]. done.
Qed.

(** *** Counting bindings *)

(** The heap may change where no waiting thread points. *)
Lemma counted_heap k i v h :
  counted k i v →
  (∀ t, t ∈ waiting i v → h !! t = vm_heap v !! t) →
  counted k i (set_heap h v).
Proof.
  intros [Hp Hd Hc Hn Hm] Hh. split; try done.
  - intros t Ht. destruct (Hc t Ht) as (th & Hth & Hl). exists th.
    split; [|done]. simpl. rewrite Hh; [done|].
    unfold waiting. apply elem_of_app. by left.
  - intros t Ht. destruct (Hn t Ht) as (th & Hth & Hl). exists th.
    split; [|done]. simpl. rewrite Hh; [done|].
    unfold waiting. apply elem_of_app. by right.
Qed.

Lemma counted_update k i t f v :
  counted k i v → t ∉ waiting i v → counted k i (update t f v).
Proof.
  intros Hc Ht. apply counted_heap; [done|]. intros t' Ht'.
  apply list_lookup_alter_ne. by intros ->.
Qed.

Lemma holds_lt n v t : holds n v t → (t < length (vm_heap v))%nat.
Proof. intros (th & Hth & _). by eapply lookup_lt_Some. Qed.

Lemma waiting_lt k i v t :
  counted k i v → t ∈ waiting i v → (t < length (vm_heap v))%nat.
Proof.
  intros [Hp Hd Hc Hn Hm] Ht. unfold waiting in Ht.
  apply elem_of_app in Ht as [Ht|Ht]; eapply holds_lt; eauto.
Qed.

Lemma counted_alloc k i th v :
  counted k i v → counted k i (set_heap (vm_heap v ++ [th]) v).
Proof.
  intros Hc. apply counted_heap; [done|]. intros t Ht.
  apply lookup_app_l. by eapply waiting_lt.
Qed.

Lemma counted_append_current k i t v :
  counted k i v → t ∉ waiting i v → holds k v t →
  counted k i (append Current t v).
Proof.
  intros [Hp Hd Hc Hn Hm] Ht Hh. unfold waiting in *.
  split; simpl; try done.
  - rewrite length_app. lia.
  - unfold waiting; simpl. rewrite drop_app_le by done.
    rewrite <- app_assoc. apply NoDup_app in Hd as (H1 & H2 & H3).
    apply NoDup_app. split_and!; [done| |].
    + intros x Hx Hx'. apply elem_of_cons in Hx' as [->|Hx'].
      * apply Ht. apply elem_of_app. by left.
      * by eapply H2.
    + apply NoDup_cons. split; [|done]. intros Hx. apply Ht.
      apply elem_of_app. by right.
  - intros t'. rewrite drop_app_le by done.
    intros Ht'. apply elem_of_app in Ht' as [Ht'|Ht']; [by apply Hc|].
    apply list_elem_of_singleton in Ht' as ->. done.
Qed.

Lemma counted_append_next k i t v :
  counted k i v → t ∉ waiting i v → holds (S k) v t →
  counted k i (append Next t v).
Proof.
  intros [Hp Hd Hc Hn Hm] Ht Hh. unfold waiting in *.
  split; simpl; try done.
  - unfold waiting; simpl. rewrite app_assoc.
    apply NoDup_app. split_and!; [done| |apply NoDup_singleton].
    intros x Hx Hx'. apply list_elem_of_singleton in Hx' as ->. done.
  - intros t' Ht'. apply elem_of_app in Ht' as [Ht'|Ht']; [by apply Hn|].
    apply list_elem_of_singleton in Ht' as ->. done.
Qed.

(** Moving on from index [i]: the thread there leaves the waiting ones. *)
Lemma counted_step k i t v :
  counted k i v → vm_currentThreads v !! i = Some t →
  counted k (S i) v ∧ (t ∉ waiting (S i) v) ∧ holds k v t.
Proof.
  intros [Hp Hd Hc Hn Hm] Ht. unfold waiting in *.
  rewrite (drop_S _ _ _ Ht) in Hd, Hc. simpl in Hd.
  apply NoDup_cons in Hd as [Hd1 Hd2].
  split_and!; [split; (try done)|done|].
  - apply lookup_lt_Some in Ht. lia.
  - intros t' Ht'. apply Hc. by apply list_elem_of_further.
  - apply Hc. apply list_elem_of_here.
Qed.

Lemma holds_update_eq n t f v th :
  vm_heap v !! t = Some th → length (thread_items (f th)) = n →
  holds n (update t f v) t.
Proof.
  intros Hth Hl. exists (f th). split; [|done].
  unfold update; simpl. by rewrite list_lookup_alter_eq, Hth.
Qed.

(** [addThread] on a thread that does not wait yet. *)
Lemma addThread_counted_current k i t v v' :
  addThread Current t v = Ok v' →
  counted k i v → t ∉ waiting i v → holds k v t →
  counted k i v' ∧ vm_heap v' = vm_heap v ∧
  vm_nextThreads v' = vm_nextThreads v ∧
  vm_matches v' = vm_matches v ∧
  (∀ x, x ∈ waiting i v' → x = t ∨ x ∈ waiting i v).
Proof.
  intros E Hc Ht Hh. apply addThread_cases in E as [->| ->].
  - split_and!; try done. intros x Hx. by right.
  - split_and!; try done; [by apply counted_append_current|].
    intros x. unfold waiting; simpl. destruct Hc as [Hp _ _ _ _].
    rewrite drop_app_le by done. rewrite !elem_of_app.
    intros [[Hx|Hx]|Hx]; [right; by left| |right; by right].
    apply list_elem_of_singleton in Hx. by left.
Qed.

Lemma addThread_counted_next k i t v v' :
  addThread Next t v = Ok v' →
  counted k i v → t ∉ waiting i v → holds (S k) v t →
  counted k i v'.
Proof.
  intros E Hc Ht Hh. apply addThread_cases in E as [->| ->]; [done|].
  by apply counted_append_next.
Qed.

(** The writes of CMP and SAVE once the word is taken: one binding
    more, and the thread is put aside. *)
Lemma advance_counted k i ip w t v v' :
  counted k i v → t ∉ waiting i v → holds k v t →
  (let v := update t (bind ip w) v in
   _ ← traceBind v;
   th ← load t v;
   let v := update t (with_pc (thread_pc th + 1)) v in
   addThread Next t v) = Ok v' →
  counted k i v'.
Proof.
  intros Hc Ht (th & Hth & Hl) E. cbv zeta in E.
  apply bind_inv in E as ([] & _ & E).
  apply bind_inv in E as (th1 & Hth1 & E).
  rewrite (load_update _ _ _ _ Hth) in Hth1. injection Hth1 as <-.
  eapply addThread_counted_next; [exact E| | |].
  - apply counted_update; [|done]. by apply counted_update.
  - done.
  - exists (with_pc (thread_pc (bind ip w th) + 1) (bind ip w th)).
    split.
    + unfold update; simpl.
      by rewrite !list_lookup_alter_eq, Hth.
    + rewrite bind_items. simpl. rewrite length_app. simpl. lia.
Qed.

(** One instruction, on a thread that has left the waiting ones. *)
Lemma continu_counted k j w t u v' :
  counted k j u → t ∉ waiting j u → holds k u t →
  vm_thread u = Some t →
  continu w u = Ok v' →
  counted k j v' ∧ (w = None → vm_nextThreads v' = vm_nextThreads u).
Proof.
  intros Hc Ht Hh Hthr E.
  destruct Hh as (th & Hth & Hl).
  assert (Hcur : current u = Ok t) by (unfold current; by rewrite Hthr).
  assert (Hload : load t u = Ok th) by (by apply load_Ok).
  unfold continu in E.
  apply bind_inv in E as ([ip x] & Hci & E).
  apply bind_inv in E as ([] & _ & E).
  destruct (instr_opcode x).
  - (* NOP *) by injection E as <-.
  - (* SPLIT *)
    unfold doSplit, clone, alloc in E.
    rewrite Hcur, bind_Ok, Hload, !bind_Ok in E. cbv zeta in E.
    set (th2 := mkThread (thread_pc th) (thread_items th) (thread_meta th))
      in E.
    set (t2 := length (vm_heap u)) in E.
    set (u2 := update t (with_pc (instr_ints0 x))
                 (update t2 (with_pc (instr_ints1 x))
                    (set_heap (vm_heap u ++ [th2]) u))) in E.
    assert (Hlt : (t < t2)%nat) by (by eapply lookup_lt_Some).
    assert (Ht2 : t2 ∉ waiting j u).
    { intros Hin. pose proof (waiting_lt _ _ _ _ Hc Hin). unfold t2 in *. lia. }
    assert (Hc2 : counted k j u2).
    { apply counted_update; [|done]. apply counted_update; [|done].
      by apply counted_alloc. }
    assert (Hh1 : holds k u2 t).
    { exists (with_pc (instr_ints0 x) th). split; [|done].
      unfold u2, update; simpl.
      rewrite list_lookup_alter_eq, list_lookup_alter_ne by lia.
      by rewrite lookup_app_l, Hth. }
    assert (Hh2 : holds k u2 t2).
    { exists (with_pc (instr_ints1 x) th2). split; [|done].
      unfold u2, update; simpl.
      rewrite list_lookup_alter_ne, list_lookup_alter_eq by lia.
      unfold t2. by rewrite lookup_app_r, Nat.sub_diag by lia. }
    apply bind_inv in E as (u3 & E3 & E).
    destruct (addThread_counted_current k j t u2 u3 E3 Hc2 Ht Hh1)
      as (Hc3 & Hheap3 & Hn3 & Hm3 & Hw3).
    destruct (addThread_counted_current k j t2 u3 v' E Hc3)
      as (Hc4 & _ & Hn4 & _).
    + intros Hin. destruct (Hw3 _ Hin) as [->|Hin']; [lia|done].
    + destruct Hh2 as (y & Hy & Hly). exists y. by rewrite Hheap3.
    + split; [done|]. intros _. by rewrite Hn4, Hn3.
  - (* JMP *)
    unfold doJmp in E. rewrite Hcur, bind_Ok in E. cbv zeta in E.
    destruct (addThread_counted_current k j t _ v' E)
      as (Hc' & _ & Hn' & _).
    + by apply counted_update.
    + done.
    + by eapply holds_update_eq.
    + split; [done|]. intros _. by rewrite Hn'.
  - (* CMP *)
    unfold doCmp in E. destruct w as [w|]; [|by injection E as <-].
    apply bind_inv in E as (s & _ & E).
    destruct (HasPrefix _ _); [|by injection E as <-].
    rewrite Hcur, bind_Ok in E. split; [|done].
    eapply advance_counted; [exact Hc|exact Ht| |exact E]. by exists th.
  - (* SAVE *)
    unfold doSave in E. destruct w as [w|]; [|by injection E as <-].
    rewrite Hcur, bind_Ok in E. split; [|done].
    eapply advance_counted; [exact Hc|exact Ht| |exact E]. by exists th.
  - (* META *)
    unfold doMeta in E. rewrite Hcur, bind_Ok in E. cbv zeta in E.
    apply bind_inv in E as (th1 & Hth1 & E).
    rewrite (load_update _ _ _ _ Hth) in Hth1. injection Hth1 as <-.
    destruct (addThread_counted_current k j t _ v' E)
      as (Hc' & _ & Hn' & _).
    + apply counted_update; [|done]. by apply counted_update.
    + done.
    + exists (with_pc (thread_pc (with_meta (instr_intf x) th) + 1)
                (with_meta (instr_intf x) th)).
      split; [|done]. unfold update; simpl.
      by rewrite !list_lookup_alter_eq, Hth.
    + split; [done|]. intros _. by rewrite Hn'.
  - (* MATCH *)
    rewrite Hcur, bind_Ok in E. unfold addMatch in E.
    rewrite Hload, bind_Ok in E.
    apply bind_inv in E as (items & Hitems & [= <-]).
    split; [|done]. destruct Hc as [Hp Hd Hcu Hn Hm].
    split; try done. simpl. apply Forall_app. split; [done|].
    apply Forall_singleton. simpl.
    rewrite (mapM_length _ _ _ Hitems). lia.
Qed.

(** The loop of [processWord], from index [i] on. *)
Lemma run_counted k w fuel : ∀ i v v',
  counted k i v → run fuel w i v = Ok v' →
  counted k (length (vm_currentThreads v')) v' ∧
  (w = None → vm_nextThreads v' = vm_nextThreads v).
Proof.
  induction fuel as [|fuel IH]; intros i v v' Hc E; simpl in E; [done|].
  destruct (vm_currentThreads v !! i) as [t|] eqn:Et.
  - apply bind_inv in E as (v1 & E1 & E).
    destruct (counted_step k i t v Hc Et) as (Hc1 & Ht & Hh).
    destruct (continu_counted k (S i) w t (set_thread (Some t) v) v1)
      as (Hc2 & Hn2); try done.
    { by destruct Hc1. }
    destruct (IH _ _ _ Hc2 E) as (Hc3 & Hn3). split; [done|].
    intros Hw. by rewrite (Hn3 Hw), (Hn2 Hw).
  - injection E as <-. split; [|done].
    apply lookup_ge_None in Et. destruct Hc as [Hp Hd Hcu Hn Hm].
    assert (i = length (vm_currentThreads v)) as -> by lia. by split.
Qed.

(** One word: the threads put aside become the current ones, with one
    binding more. *)
Lemma processWord_counted k w fuel v v' :
  counted k 0 v → processWord fuel w v = Ok v' →
  counted (S k) 0 v' ∧ vm_nextThreads v' = [] ∧
  (w = None → vm_nextThreads v = [] → vm_currentThreads v' = [] ∧
              counted k 0 v').
Proof.
  intros Hc E. unfold processWord in E. cbv zeta in E.
  apply bind_inv in E as (v1 & E1 & [= <-]).
  destruct (run_counted k w fuel 0 (set_gen (vm_gen v + 1) v) v1)
    as ([Hp Hd Hcu Hn Hm] & Hnil); [by destruct Hc|done|].
  unfold waiting in Hd. rewrite drop_all in Hd. simpl in Hd.
  split_and!.
  - split; simpl; try done.
    + lia.
    + unfold waiting; simpl. by rewrite app_nil_r.
    + intros t Ht. by apply elem_of_nil in Ht.
    + eapply Forall_impl; [exact Hm|]. simpl. lia.
  - done.
  - intros Hw Hv. specialize (Hnil Hw). simpl in Hnil. rewrite Hv in Hnil.
    split; [done|].
    split; unfold waiting; simpl; rewrite ?Hnil; simpl;
      first [lia | apply NoDup_nil_2 | done
            | (intros t Ht; by apply elem_of_nil in Ht)].
Qed.

Lemma eachWord_counted fuel idx : ∀ k v v',
  counted k 0 v → vm_nextThreads v = [] → eachWord fuel idx v = Ok v' →
  counted (k + length idx) 0 v' ∧ vm_nextThreads v' = [].
Proof.
  induction idx as [|i idx IH]; intros k v v' Hc Hn E; simpl in E.
  - injection E as <-. by rewrite Nat.add_0_r.
  - apply bind_inv in E as (v1 & E1 & E).
    destruct (processWord_counted k (Some i) fuel (set_wordIndex i v) v1)
      as (Hc1 & Hn1 & _); [by destruct Hc|done|].
    destruct (IH _ _ _ Hc1 Hn1 E) as (Hc2 & Hn2).
    simpl. by rewrite Nat.add_succ_r.
Qed.

Lemma executeWords_start fuel P input tr :
  executeWords fuel P input (VM.zero tr)
  = (addThread Current 0%nat
       (mkVm P input [mkThread 0 [] None] [] [] [] 1 None 0 tr) ≫= λ v1,
     eachWord fuel (seq 0 (length input)) v1 ≫= λ v2,
     processWord fuel None v2).
Proof. vm_compute. reflexivity. Qed.

Lemma execute_executeWords fuel P input tr :
  execute fuel P input (VM.zero tr)
  = (executeWords fuel P input (VM.zero tr) ≫= finishThreads fuel).
Proof.
  rewrite DispatchFacts.execute_start, executeWords_start.
  destruct (addThread _ _ _) as [v1| |]; [|done..]. rewrite !bind_Ok.
  destruct (eachWord _ _ _) as [v2| |]; [|done..]. by rewrite !bind_Ok.
Qed.

(** When the words and the step without a word have gone by, no thread
    waits, and every recorded match has at most one item per word. *)
Lemma executeWords_counted fuel P input tr v :
  executeWords fuel P input (VM.zero tr) = Ok v →
  counted (length input) 0 v ∧ idle v.
Proof.
  rewrite executeWords_start. intros E.
  set (v0 := mkVm P input [mkThread 0 [] None] [] [] [] 1 None 0 tr) in E.
  apply bind_inv in E as (v1 & E1 & E).
  apply bind_inv in E as (v2 & E2 & E).
  assert (Hc0 : counted 0 0 v0).
  { split; simpl; try done.
    - apply NoDup_nil_2.
    - intros t Ht. by apply elem_of_nil in Ht.
    - intros t Ht. by apply elem_of_nil in Ht. }
  destruct (addThread_counted_current 0 0 0%nat v0 v1 E1 Hc0)
    as (Hc1 & _ & Hn1 & _).
  { intros Ht. by apply elem_of_nil in Ht. }
  { by exists (mkThread 0 [] None). }
  destruct (eachWord_counted fuel _ 0%nat v1 v2 Hc1 Hn1 E2) as (Hc2 & Hn2).
  rewrite length_seq in Hc2. simpl in Hc2.
  destruct (processWord_counted _ None fuel v2 v Hc2 E) as (_ & Hn3 & Hnil).
  destruct (Hnil eq_refl Hn2) as (Hcur & Hc3). by split.
Qed.

Lemma filter_none {A} (P : A → Prop) `{∀ x, Decision (P x)} (l : list A) :
  Forall (λ x, ¬ P x) l → filter P l = [].
Proof.
  induction 1 as [|x l Hx _ IH]; [done|].
  rewrite filter_cons. by destruct (decide (P x)).
Qed.

(** [finishThreads] on a VM where no thread waits: only the generation
    counter moves. *)
Lemma finishThreads_idle fuel v v' :
  idle v → finishThreads fuel v = Ok v' →
  v' = set_gen (vm_gen v + 1) v.
Proof.
  intros [Hc Hn] E. unfold finishThreads, processWord in E. cbv zeta in E.
  apply bind_inv in E as (v1 & E1 & [= <-]).
  destruct fuel as [|fuel]; simpl in E1; [done|].
  rewrite Hc in E1. simpl in E1. injection E1 as <-.
  destruct v. simpl in *. by subst.
Qed.

(** Every match [execute] records has at most one item per input word,
    so the matches [maximalMatches] returns are exactly the recorded
    matches with one item per word; and when [execute] is done no thread
    waits on either list. *)
Theorem matches_fit_the_input (P : prog) (input : list string) (tr : bool)
    (fuel : nat) (v : vm) :
  execute fuel P input (VM.zero tr) = Ok v →
  Forall (λ m, items_len m ≤ len input) (vm_matches v) ∧
  maximalMatches v
  = Ok (filter (λ m, items_len m = len input) (vm_matches v)) ∧
  vm_input v = input ∧ idle v.
Proof.
  rewrite execute_executeWords. intros E.
  apply bind_inv in E as (v3 & E3 & E).
  destruct (executeWords_counted _ _ _ _ _ E3) as ([_ _ _ _ Hm] & Hidle).
  assert (Hin : vm_input v3 = input).
  { rewrite executeWords_start in E3.
    apply bind_inv in E3 as (v1 & E1 & E3).
    apply bind_inv in E3 as (v2 & E2 & E3).
    apply addThread_setup in E1 as (_ & H1 & _).
    apply eachWord_setup in E2 as (_ & H2 & _).
    apply processWord_setup in E3 as (_ & H3 & _).
    simpl in H1. congruence. }
  rewrite (finishThreads_idle _ _ _ Hidle E). clear E. simpl.
  assert (Hfit : Forall (λ m, items_len m ≤ len input) (vm_matches v3)).
  { eapply Forall_impl; [exact Hm|]. intros m Hle. simpl in Hle.
    unfold items_len, len. lia. }
  split_and!; try done.
  unfold maximalMatches. rewrite longestMatches_spec, bind_Ok. simpl.
  rewrite Hin.
  set (ms := vm_matches v3) in *. clearbody ms.
  destruct (filter (λ m, items_len m = max_items ms) ms) as [|m0 rest] eqn:El.
  - f_equal. symmetry. apply filter_none.
    destruct ms as [|m ms']; [done|].
    destruct (max_items_attained (m :: ms')) as (m1 & Hm1 & Hl1); [done|].
    assert (Hin1 : m1 ∈ filter (λ x, items_len x = max_items (m :: ms'))
                          (m :: ms')).
    { apply list_elem_of_filter. by split. }
    rewrite El in Hin1. by apply elem_of_nil in Hin1.
  - assert (Hm0 : m0 ∈ filter (λ m, items_len m = max_items ms) ms)
      by (rewrite El; apply list_elem_of_here).
    apply list_elem_of_filter in Hm0 as [Hl0 Hm0].
    pose proof (proj1 (Forall_forall _ _) Hfit m0 Hm0) as Hle.
    simpl in Hle.
    destruct (decide (items_len m0 ≠ len input)) as [Hne|Heq].
    + f_equal. symmetry. apply filter_none. apply Forall_forall.
      intros m Hmin Hlen. pose proof (max_items_ge ms m Hmin). lia.
    + assert (Heq' : max_items ms = len input) by lia.
      by rewrite <- El, Heq'.
Qed.

(** [matches_fit_the_input] on the program of [show] and the word [sh]. *)
Lemma matches_fit_the_input_witness :
  let P := [mkInstr opCmp 0 0 "show" "" None 0;
            mkInstr opMatch 0 0 "" "" None 0] in
  ∃ v, execute 5 P ["sh"%string] (VM.zero false) = Ok v ∧
       maximalMatches v
       = Ok (filter (λ m, items_len m = 1) (vm_matches v)) ∧
       idle v.
Proof.
  intros P.
  assert (HE : ∃ v, execute 5 P ["sh"%string] (VM.zero false) = Ok v)
    by (eexists; vm_compute; reflexivity).
  destruct HE as [v HE]. exists v. split; [exact HE|].
  destruct (matches_fit_the_input P ["sh"%string] false 5 v HE)
    as (_ & Hmax & _ & Hidle).
  split; [exact Hmax|exact Hidle].
Defined.

(** In [execute] the last call, [finishThreads], finds no thread to run:
    the step without a word before it has emptied both lists.  It records
    no match and moves nothing but the generation counter. *)
Theorem finishThreads_finds_no_thread (P : prog) (input : list string)
    (tr : bool) (fuel : nat) (v : vm) :
  execute fuel P input (VM.zero tr) = Ok v →
  ∃ v3, executeWords fuel P input (VM.zero tr) = Ok v3 ∧
        finishThreads fuel v3 = Ok v ∧ idle v3 ∧
        v = set_gen (vm_gen v3 + 1) v3.
Proof.
  rewrite execute_executeWords. intros E.
  apply bind_inv in E as (v3 & E3 & E). exists v3.
  destruct (executeWords_counted _ _ _ _ _ E3) as (_ & Hidle).
  split_and!; try done. by eapply finishThreads_idle.
Qed.

Lemma finishThreads_finds_no_thread_witness :
  let P := [mkInstr opCmp 0 0 "show" "" None 0;
            mkInstr opMatch 0 0 "" "" None 0] in
  ∃ v v3, execute 5 P ["sh"%string] (VM.zero false) = Ok v ∧
          executeWords 5 P ["sh"%string] (VM.zero false) = Ok v3 ∧
          vm_matches v = vm_matches v3.
Proof.
  intros P.
  assert (HE : ∃ v, execute 5 P ["sh"%string] (VM.zero false) = Ok v)
    by (eexists; vm_compute; reflexivity).
  destruct HE as [v HE].
  destruct (finishThreads_finds_no_thread P ["sh"%string] false 5 v HE)
    as (v3 & H3 & _ & _ & ->).
  exists (set_gen (vm_gen v3 + 1) v3), v3. split; [exact HE|].
  split; [exact H3|reflexivity].
Defined.

End CountingFacts.

(** ** The user-input scanner on inputs without quotes, and on an open
    quote *)

Module WordsFacts.
Import CmdScanner CmdScannerFacts Words.

Lemma joined_snoc ws w : joined (ws ++ [w]) = joined ws +:+ w.
Proof.
  induction ws as [|x ws IH]; simpl.
  - by rewrite string_app_nil_r.
  - by rewrite IH, string_app_assoc.
Qed.

Lemma app_nonempty (a b : string) : b ≠ EmptyString → a +:+ b ≠ EmptyString.
Proof.
  intros Hb E. apply (f_equal String.length) in E.
  rewrite string_app_length in E. destruct b; [done|simpl in E; lia].
Qed.

Lemma encodeRune_nonempty r : encodeRune r ≠ EmptyString.
Proof.
  intros E. pose proof (encodeRune_length r) as Hr. rewrite E in Hr.
  simpl in Hr. lia.
Qed.

(** One turn of the loop on a rune that is not a quote. *)
Lemma step_unquoted l r :
  r ≠ dquote → unquoted l →
  unquoted (step l r) ∧
  kept (step l r)
  = kept l +:+ (if IsSpace r then EmptyString else encodeRune r).
Proof.
  destruct l as [st tm [w ws]]. unfold unquoted, kept, step; simpl.
  intros Hq [Hst Hws]. destruct st; [| |done].
  - subst w. destruct (IsSpace r) eqn:Hsp; simpl.
    + split; [done|]. by rewrite !string_app_nil_r.
    + destruct (Z.eqb_spec r dquote) as [|_]; [done|]. simpl. split.
      * split; [|done]. apply encodeRune_nonempty.
      * by rewrite string_app_nil_r.
  - destruct (IsSpace r) eqn:Hsp; simpl.
    + split.
      * split; [done|]. apply Forall_app. split; [done|].
        by apply Forall_singleton.
      * by rewrite joined_snoc, !string_app_nil_r.
    + split.
      * split; [|done]. apply app_nonempty, encodeRune_nonempty.
      * by rewrite string_app_assoc.
Qed.

Lemma foldl_unquoted rs : ∀ l,
  dquote ∉ rs → unquoted l →
  unquoted (foldl step l rs) ∧
  kept (foldl step l rs)
  = kept l +:+ encode (filter (λ r, IsSpace r = false) rs).
Proof.
  induction rs as [|r rs IH]; intros l Hq Hl.
  - simpl. split; [done|]. by rewrite string_app_nil_r.
  - apply not_elem_of_cons in Hq as [Hr Hq].
    assert (Hr' : r ≠ dquote) by (by intros ->).
    destruct (step_unquoted l r Hr' Hl) as [Hl1 Hk1].
    destruct (IH (step l r) Hq Hl1) as [Hl2 Hk2].
    cbn [foldl]. split; [done|]. rewrite Hk2, Hk1, filter_cons.
    destruct (IsSpace r); destruct (decide _); try done.
    + by rewrite string_app_nil_r.
    + by rewrite encode_cons, string_app_assoc.
Qed.

(** On an input without quotes the scanner keeps every rune that is not
    white space, in order, and nothing else; and it returns no empty
    word. *)
Theorem Scan_keeps_what_is_not_space (rs : list rune) :
  dquote ∉ rs →
  joined (Scan rs) = encode (filter (λ r, IsSpace r = false) rs) ∧
  Forall (λ w, w ≠ EmptyString) (Scan rs).
Proof.
  intros Hq. rewrite Scan_after.
  destruct (foldl_unquoted rs (mkLoop Default 0 zero) Hq) as [[Hst Hws] Hk].
  { by split. }
  fold (after rs) in Hst, Hws, Hk.
  unfold kept in Hk. simpl in Hk.
  unfold finish_words, wordIsEmpty.
  destruct (after rs) as [st tm [w ws]]; simpl in *.
  destruct w as [|a w]; simpl.
  - rewrite string_app_nil_r in Hk. by split.
  - split.
    + by rewrite joined_snoc.
    + apply Forall_app. split; [done|]. by apply Forall_singleton.
Qed.

Lemma Scan_keeps_what_is_not_space_witness :
  joined (Scan (runes " this    is a   test  ")) = "thisisatest"%string.
Proof.
  destruct (Scan_keeps_what_is_not_space (runes " this    is a   test  "))
    as [Hj _].
  - vm_compute. intros Hin. repeat (apply elem_of_cons in Hin as [Hin|Hin];
      [discriminate|]). by apply elem_of_nil in Hin.
  - rewrite Hj. reflexivity.
Defined.

(** A quote that is opened between words and never closed: the end of
    the input closes it, and the characters after it make one word,
    white space kept, unless there is none: then nothing is added
    (whereas the closed empty quotes make an empty word). *)
Theorem Scan_open_quote (pre mid : list rune) :
  between_words pre → dquote ∉ mid →
  Scan (pre ++ dquote :: mid)
  = Scan pre ++ (if decide (mid = []) then [] else [encode mid]).
Proof.
  intros Hpre Hq. rewrite (Scan_app pre _ Hpre). f_equal.
  rewrite Scan_after. unfold after. cbn [foldl].
  change (step (mkLoop Default 0 zero) dquote)
    with (mkLoop WaitingForTerminator dquote (mkCmdScanner EmptyString [])).
  rewrite waiting_run by done.
  unfold finish_words, wordIsEmpty. simpl.
  destruct mid as [|r mid]; [done|].
  destruct (decide _) as [|_]; [done|].
  pose proof (encode_nonempty r mid) as Hne.
  destruct (encode (r :: mid)); [done|reflexivity].
Qed.

Lemma Scan_open_quote_witness :
  Scan (runes "say " ++ dquote :: runes "a b") = ["say"; "a b"]%string.
Proof.
  rewrite (Scan_open_quote (runes "say ") (runes "a b")).
  - reflexivity.
  - reflexivity.
  - vm_compute. intros Hin. repeat (apply elem_of_cons in Hin as [Hin|Hin];
      [discriminate|]). by apply elem_of_nil in Hin.
Defined.

End WordsFacts.

(** ** The grammar lexer *)

Module LexingFacts.
Section WithTables.
Context `{Unicode}.
Import Scanner Lexing.

#[local] Arguments index : simpl never.

Lemma ahead_nil s : 0 ≤ scanner_pos s → ahead s = [] → atEnd s = true.
Proof.
  unfold ahead, atEnd, len. intros Hp E.
  apply (f_equal length) in E. rewrite length_drop in E. simpl in E.
  apply Z.leb_le. lia.
Qed.

Lemma ahead_cons s r l :
  0 ≤ scanner_pos s → ahead s = r :: l →
  atEnd s = false ∧ index (scanner_input s) (scanner_pos s) = Ok r ∧
  ahead (set_pos (scanner_pos s + 1) s) = l.
Proof.
  unfold ahead, atEnd, len. intros Hp E.
  assert (Hr : scanner_input s !! Z.to_nat (scanner_pos s) = Some r).
  { rewrite <- (Nat.add_0_r (Z.to_nat _)), <- lookup_drop, E. done. }
  split_and!.
  - apply Z.leb_gt. apply lookup_lt_Some in Hr. lia.
  - by apply VMFacts.index_Ok.
  - simpl. replace (Z.to_nat (scanner_pos s + 1))
      with (S (Z.to_nat (scanner_pos s))) by lia.
    rewrite (drop_S _ _ _ Hr) in E. by injection E.
Qed.

Lemma filter_skip r l :
  invalid r = false →
  filter (λ r, invalid r = true) (r :: l) = filter (λ r, invalid r = true) l.
Proof. intros E. rewrite filter_cons. destruct (decide _); congruence. Qed.

Lemma filter_keep r l :
  invalid r = true →
  filter (λ r, invalid r = true) (r :: l)
  = r :: filter (λ r, invalid r = true) l.
Proof. intros E. rewrite filter_cons. destruct (decide _); congruence. Qed.

Lemma set_pos_set_pos p q s : set_pos p (set_pos q s) = set_pos p s.
Proof. done. Qed.

(** The first loop of [next]: white space goes by. *)
Lemma skipSpace_spec l : ∀ fuel s,
  0 ≤ scanner_pos s → ahead s = l → (length l < fuel)%nat →
  ∃ p', scanner_pos s ≤ p' ∧
    skipSpace fuel s = Ok (head (ahead (set_pos p' s)), set_pos p' s) ∧
    (length (ahead (set_pos p' s)) ≤ length l)%nat ∧
    filter (λ r, invalid r = true) l
    = filter (λ r, invalid r = true) (ahead (set_pos p' s)) ∧
    (∀ r, head (ahead (set_pos p' s)) = Some r → IsSpace r = false).
Proof.
  induction l as [|r l IH]; intros fuel s Hp Hl Hf;
    (destruct fuel as [|fuel]; [simpl in Hf; lia|]); cbn [skipSpace].
  - exists (scanner_pos s).
    assert (Es : set_pos (scanner_pos s) s = s) by (by destruct s).
    rewrite Es, Hl, (ahead_nil s Hp Hl). split_and!; try done; lia.
  - destruct (ahead_cons s r l Hp Hl) as (-> & -> & Hnext).
    rewrite bind_Ok. destruct (IsSpace r) eqn:Hsp; cbn [negb].
    + destruct (IH fuel (set_pos (scanner_pos s + 1) s))
        as (p' & Hp' & -> & Hlen & Hfil & Hhd); [simpl; lia|done|simpl in Hf; lia|].
      rewrite set_pos_set_pos in *. simpl in Hp'.
      exists p'. split_and!; try done; try (simpl; lia).
      rewrite filter_skip; [done|]. unfold invalid. by rewrite Hsp.
    + exists (scanner_pos s).
      assert (Es : set_pos (scanner_pos s) s = s) by (by destruct s).
      rewrite Es, Hl. split_and!; try done; try lia.
      intros r' [= <-]. done.
Qed.

Lemma valid_not_invalid r : isValidWordRune r = true → invalid r = false.
Proof.
  intros E. unfold invalid. rewrite E.
  by destruct (IsSpace r), (isPunct r).
Qed.

Lemma filter_run run l :
  Forall (λ x, isValidWordRune x = true) run →
  filter (λ r, invalid r = true) (run ++ l)
  = filter (λ r, invalid r = true) l.
Proof.
  induction 1 as [|x run Hx _ IH]; [done|]. simpl.
  rewrite filter_skip; [done|]. by apply valid_not_invalid.
Qed.

(** The loop of [word]: a run of word runes goes into the buffer. *)
Lemma wordLoop_spec l : ∀ fuel buf r s,
  0 ≤ scanner_pos s → ahead s = r :: l → (length l < fuel)%nat →
  ∃ run p',
    wordLoop fuel buf r s
    = Ok (mkToken wordTok (buf +:+ encode run) 0, set_pos p' s) ∧
    scanner_pos s ≤ p' ∧
    r :: l = run ++ ahead (set_pos p' s) ∧
    Forall (λ x, isValidWordRune x = true) run ∧
    (isValidWordRune r = true → run ≠ []) ∧
    (∀ x, head (ahead (set_pos p' s)) = Some x → isValidWordRune x = false).
Proof.
  induction l as [|r' l IH]; intros fuel buf r s Hp Hl Hf;
    (destruct fuel as [|fuel]; [simpl in Hf; lia|]); cbn [wordLoop];
    destruct (isValidWordRune r) eqn:Hv.
  - destruct (ahead_cons s r [] Hp Hl) as (_ & _ & Hnext).
    assert (Hp1 : 0 ≤ scanner_pos (set_pos (scanner_pos s + 1) s))
      by (simpl; lia).
    rewrite (ahead_nil _ Hp1 Hnext).
    exists [r], (scanner_pos s + 1). rewrite Hnext.
    split_and!; try done; try lia.
    + simpl. by rewrite CmdScannerFacts.string_app_nil_r.
    + by apply Forall_singleton.
  - exists [], (scanner_pos s).
    assert (Es : set_pos (scanner_pos s) s = s) by (by destruct s).
    rewrite Es, Hl. split_and!; try done; try lia.
    + simpl. by rewrite CmdScannerFacts.string_app_nil_r.
    + intros x [= <-]. done.
  - destruct (ahead_cons s r (r' :: l) Hp Hl) as (_ & _ & Hnext).
    assert (Hp1 : 0 ≤ scanner_pos (set_pos (scanner_pos s + 1) s))
      by (simpl; lia).
    destruct (ahead_cons _ r' l Hp1 Hnext) as (-> & Hi & _).
    simpl in Hi. simpl. rewrite Hi, bind_Ok.
    destruct (IH fuel (buf +:+ encodeRune r) r'
                (set_pos (scanner_pos s + 1) s))
      as (run & p' & -> & Hp' & Hsplit & Hrun & _ & Hhd);
      [simpl; lia|done|simpl in Hf; lia|].
    rewrite set_pos_set_pos in *. simpl in Hp'.
    exists (r :: run), p'. split_and!; try done; try lia.
    + by rewrite CmdScannerFacts.encode_cons,
        CmdScannerFacts.string_app_assoc.
    + simpl. by rewrite Hsplit.
    + by apply Forall_cons.
  - exists [], (scanner_pos s).
    assert (Es : set_pos (scanner_pos s) s = s) by (by destruct s).
    rewrite Es, Hl. split_and!; try done; try lia.
    + simpl. by rewrite CmdScannerFacts.string_app_nil_r.
    + intros x [= <-]. done.
Qed.

Lemma punct_spec typ s s0 r l :
  0 ≤ scanner_pos s → ahead s = r :: l →
  (length (ahead s) ≤ length (ahead s0))%nat →
  filter (λ r, invalid r = true) (ahead s0)
  = filter (λ r, invalid r = true) (ahead s) →
  typ ≠ nilTok → isPunct r = true →
  ∃ i s', punct typ s = Ok (i, s') ∧
          (∃ p', s' = set_pos p' s ∧ 0 ≤ p') ∧ nextSpec s0 i s'.
Proof.
  intros Hp Hl Hlen Hfil Htyp Hpu. unfold punct.
  destruct (ahead_cons s r l Hp Hl) as (_ & _ & Hnext).
  eexists _, _. split; [reflexivity|]. split.
  - eexists. split; [reflexivity|lia].
  - simpl. rewrite Hnext. split_and!; [done| |].
    + rewrite Hl in Hlen. simpl in Hlen. lia.
    + rewrite Hfil, Hl. apply filter_skip. unfold invalid. rewrite Hpu.
      by destruct (IsSpace r).
Qed.

(** One call of [next]. *)
Lemma next_spec fuel s :
  0 ≤ scanner_pos s → (length (ahead s) < fuel)%nat →
  ∃ i s', next fuel s = Ok (i, s') ∧
          (∃ p', s' = set_pos p' s ∧ 0 ≤ p') ∧ nextSpec s i s'.
Proof.
  intros Hp Hf. unfold next.
  destruct (skipSpace_spec (ahead s) fuel s Hp eq_refl Hf)
    as (p1 & Hp1 & -> & Hlen & Hfil & Hhd).
  rewrite bind_Ok. set (s1 := set_pos p1 s) in *.
  assert (Hp1' : 0 ≤ scanner_pos s1) by (simpl; lia).
  destruct (ahead s1) as [|r l] eqn:Hl; cbn [head].
  { exists EOF, s1. split; [done|]. split; [by exists p1; split; [|lia]|].
    simpl. by rewrite Hl. }
  specialize (Hhd r eq_refl).
  assert (Hs1 : ∀ s', (∃ p', s' = set_pos p' s1 ∧ 0 ≤ p') →
                      ∃ p', s' = set_pos p' s ∧ 0 ≤ p').
  { intros s' (p' & -> & Hp'). exists p'. split; [|done]. unfold s1.
    by rewrite set_pos_set_pos. }
  assert (Hl1 : (length (ahead s1) ≤ length (ahead s))%nat)
    by (by rewrite Hl).
  assert (Hf1 : filter (λ r, invalid r = true) (ahead s)
                = filter (λ r, invalid r = true) (ahead s1))
    by (by rewrite Hl).
  assert (Hpunct : ∀ typ, typ ≠ nilTok → isPunct r = true →
    ∃ i s', punct typ s1 = Ok (i, s') ∧
            (∃ p', s' = set_pos p' s ∧ 0 ≤ p') ∧ nextSpec s i s').
  { intros typ Htyp Hpu.
    destruct (punct_spec typ s1 s r l Hp1' Hl Hl1 Hf1 Htyp Hpu)
      as (i & s' & E & Hs' & Hn).
    exists i, s'. split; [done|]. split; [by apply Hs1|done]. }
  unfold isPunct in Hpunct.
  destruct (r =? 60) eqn:E1; [by apply Hpunct|].
  destruct (r =? 62) eqn:E2; [by apply Hpunct|].
  destruct (r =? 124) eqn:E3; [by apply Hpunct|].
  destruct (r =? 42) eqn:E4; [by apply Hpunct|].
  destruct (r =? 43) eqn:E5; [by apply Hpunct|].
  destruct (r =? 63) eqn:E6; [by apply Hpunct|].
  destruct (r =? 40) eqn:E7; [by apply Hpunct|].
  destruct (r =? 41) eqn:E8; [by apply Hpunct|].
  destruct (r =? 58) eqn:E9; [by apply Hpunct|].
  clear Hpunct.
  assert (Hnp : isPunct r = false).
  { unfold isPunct. by rewrite E1, E2, E3, E4, E5, E6, E7, E8, E9. }
  unfold word.
  destruct (ahead_cons s1 r l Hp1' Hl) as (_ & -> & Hnext).
  rewrite bind_Ok. destruct (isValidWordRune r) eqn:Hv; cbn [negb].
  - destruct (wordLoop_spec l fuel EmptyString r s1 Hp1' Hl)
      as (run & p' & -> & Hp' & Hsplit & Hrun & Hne & _).
    { simpl in Hlen. lia. }
    assert (Hshort : (length (ahead (set_pos p' s1)) < length (ahead s))%nat).
    { specialize (Hne Hv).
      apply (f_equal length) in Hsplit. rewrite length_app in Hsplit.
      simpl in Hsplit, Hlen. destruct run; [done|]. simpl in Hsplit. lia. }
    assert (Hsame : filter (λ r, invalid r = true) (ahead s)
                    = filter (λ r, invalid r = true) (ahead (set_pos p' s1))).
    { rewrite Hfil, Hsplit. by apply filter_run. }
    rewrite !bind_Ok. eexists _, _. split; [reflexivity|]. split.
    + apply Hs1. exists p'. split; [done|lia].
    + cbn [nextSpec token_typ]. split_and!; done.
  - assert (Hshort : (length (ahead (set_pos (scanner_pos s1 + 1) s1))
                      < length (ahead s))%nat).
    { rewrite Hnext. simpl in Hlen. lia. }
    assert (Hsame : filter (λ r, invalid r = true) (ahead s)
                    = r :: filter (λ r, invalid r = true)
                             (ahead (set_pos (scanner_pos s1 + 1) s1))).
    { rewrite Hnext, Hfil. apply filter_keep. unfold invalid.
      by rewrite Hhd, Hnp, Hv. }
    rewrite !bind_Ok. eexists _, _. split; [reflexivity|]. split.
    + apply Hs1. eexists. split; [reflexivity|lia].
    + cbn [nextSpec]. split_and!; [done|done|]. by exists r.
Qed.

(** The loop of [Scan]: tokens and errors pile up until the input is
    used up. *)
Lemma scanLoop_spec n : ∀ fuel inner s,
  0 ≤ scanner_pos s → (length (ahead s) ≤ n)%nat → (n < fuel)%nat →
  (length (scanner_input s) < inner)%nat →
  ∃ s' toks,
    scanLoop fuel inner s = Ok s' ∧
    scanner_input s' = scanner_input s ∧ ahead s' = [] ∧
    0 ≤ scanner_pos s' ∧
    scanner_errs s'
    = scanner_errs s
      ++ (invalidMessage <$> filter (λ r, invalid r = true) (ahead s)) ∧
    scanner_tokens s' = scanner_tokens s ++ toks ∧
    length (filter (λ t, isNilTok t = true) toks)
    = length (filter (λ r, invalid r = true) (ahead s)).
Proof.
  induction n as [|n IH]; intros fuel inner s Hp Hn Hf Hin;
    (destruct fuel as [|fuel]; [lia|]); cbn [scanLoop];
    (destruct (next_spec inner s Hp) as (i & s1 & -> & (p' & -> & Hp') & Hspec);
     [unfold ahead in *; rewrite length_drop; lia|]);
    rewrite bind_Ok; destruct i as [t|t e|]; cbn [nextSpec] in Hspec.
  - destruct Hspec as (_ & Hlt & _). lia.
  - destruct Hspec as (_ & Hlt & _). lia.
  - destruct Hspec as (Hend & Hnone). exists (set_pos p' s), [].
    rewrite Hnone. simpl. by rewrite !app_nil_r.
  - destruct Hspec as (Htyp & Hlt & Hsame).
    destruct (IH fuel inner (addToken t (set_pos p' s)))
      as (s' & toks & -> & Hi' & He' & Hpos & Herr & Htok & Hcnt);
      [done|unfold ahead in *; simpl in *; lia|lia|done|].
    exists s', (t :: toks). split_and!; try done.
    + by rewrite Herr, Hsame.
    + rewrite Htok. simpl. by rewrite <- app_assoc.
    + rewrite filter_cons. destruct (decide _) as [Hy|_].
      * unfold isNilTok in Hy. by apply bool_decide_eq_true in Hy.
      * by rewrite Hcnt, Hsame.
  - destruct Hspec as (-> & Hlt & r & -> & Hsame).
    destruct (IH fuel inner (addToken nilToken
                               (addError (invalidMessage r) (set_pos p' s))))
      as (s' & toks & -> & Hi' & He' & Hpos & Herr & Htok & Hcnt);
      [done|unfold ahead in *; simpl in *; lia|lia|done|].
    exists s', (nilToken :: toks). split_and!; try done.
    + rewrite Herr, Hsame. simpl. by rewrite <- app_assoc.
    + rewrite Htok. simpl. by rewrite <- app_assoc.
    + rewrite filter_cons. destruct (decide _) as [_|Hn']; [|done].
      simpl. by rewrite Hcnt, Hsame.
  - destruct Hspec as (Hend & Hnone). exists (set_pos p' s), [].
    rewrite Hnone. simpl. by rewrite !app_nil_r.
Qed.

(** [Scan] from a fresh scanner. *)
Lemma Scan_spec (cmd : list rune) :
  ∃ s,
    Scan cmd zero
    = Ok (scanner_tokens s,
          bool_decide (filter (λ r, invalid r = true) cmd = []), s) ∧
    scanner_errs s = invalidMessage <$> filter (λ r, invalid r = true) cmd ∧
    length (filter (λ t, isNilTok t = true) (scanner_tokens s))
    = length (filter (λ r, invalid r = true) cmd).
Proof.
  unfold Scan. cbn [scanner_pos zero].
  destruct (scanLoop_spec (length cmd) (S (length cmd)) (S (length cmd))
              (mkScanner 0 cmd [] []))
    as (s & toks & -> & _ & _ & _ & Herr & Htok & Hcnt); simpl; try lia.
  { unfold ahead. rewrite length_drop. simpl. lia. }
  change (ahead (mkScanner 0 cmd [] [])) with cmd in *.
  simpl in Herr, Htok. rewrite ?bind_Ok. exists s. rewrite Htok. split_and!.
  - do 3 f_equal. apply bool_decide_ext. rewrite Herr. unfold len.
    rewrite length_fmap. destruct (filter _ cmd); simpl; split; try done; lia.
  - done.
  - done.
Qed.

(** The lexer comes back on every syntax string.  It reports exactly the
    runes that are neither white space, nor one of the nine punctuation
    characters, nor runes of a word: one message each, in their order;
    [ok] tells that there was none; and each of them also leaves a nil
    token among the tokens returned. *)
Theorem Scan_reports_invalid_runes (cmd : list rune) :
  ∃ toks ok s,
    Scan cmd zero = Ok (toks, ok, s) ∧
    (ok = true ↔ Forall (λ r, invalid r = false) cmd) ∧
    scanner_errs s = invalidMessage <$> filter (λ r, invalid r = true) cmd ∧
    length (filter (λ t, isNilTok t = true) toks) = length (scanner_errs s).
Proof.
  destruct (Scan_spec cmd) as (s & HS & Herr & Hcnt).
  eexists _, _, s. split; [exact HS|]. split_and!.
  - rewrite bool_decide_eq_true. split.
    + intros Hnone. apply Forall_forall. intros r Hr.
      destruct (invalid r) eqn:Hi; [|done].
      assert (Hin : r ∈ filter (λ r, invalid r = true) cmd)
        by (apply list_elem_of_filter; by split).
      rewrite Hnone in Hin. by apply elem_of_nil in Hin.
    + intros Hall. clear HS Herr Hcnt.
      induction Hall as [|r l Hr _ IH]; [done|].
      rewrite filter_skip by done. exact IH.
  - exact Herr.
  - by rewrite Herr, length_fmap.
Qed.

Lemma valid_not_punct r c :
  isValidWordRune r = true → isValidWordRune c = false → (r =? c) = false.
Proof.
  intros Hr Hc. destruct (Z.eqb_spec r c) as [->|]; [congruence|done].
Qed.

(** A run of word runes, none of them white space, is one word token
    that starts at rune 0. *)
Lemma Scan_word (rs : list rune) :
  rs ≠ [] →
  Forall (λ r, isValidWordRune r = true ∧ IsSpace r = false) rs →
  ∃ s, Scan rs zero = Ok ([mkToken wordTok (encode rs) 0], true, s).
Proof.
  intros Hne Hrs. destruct rs as [|r l]; [done|]. clear Hne.
  pose proof Hrs as Hall.
  apply Forall_cons in Hrs as [[Hv Hsp] Hl].
  unfold Scan. cbn [scanner_pos zero length].
  set (s0 := mkScanner 0 (r :: l) [] []).
  assert (Hp0 : 0 ≤ scanner_pos s0) by done.
  assert (Ha0 : ahead s0 = r :: l) by done.
  destruct (ahead_cons s0 r l Hp0 Ha0) as (Hend & Hi & _).
  (* the first call of [next]: the whole input is one word *)
  destruct (wordLoop_spec l (S (S (length l))) EmptyString r s0 Hp0 Ha0)
    as (run & p' & Hw & Hp' & Hsplit & Hrun & _ & Hhd); [lia|].
  assert (Hrest : ahead (set_pos p' s0) = []).
  { destruct (ahead (set_pos p' s0)) as [|x rest] eqn:Ex; [done|].
    specialize (Hhd x eq_refl).
    assert (Hx : x ∈ r :: l).
    { rewrite Hsplit. apply elem_of_app. right. apply list_elem_of_here. }
    destruct (proj1 (Forall_forall _ _) Hall x Hx) as [Hvx _]. congruence. }
  rewrite Hrest, app_nil_r in Hsplit. subst run.
  assert (Hnext1 :
    next (S (S (length l))) s0
    = Ok (Tok (mkToken wordTok (encode (r :: l)) 0), set_pos p' s0)).
  { unfold next. cbn [skipSpace]. rewrite Hend, Hi, bind_Ok, Hsp.
    cbn [negb]. rewrite bind_Ok.
    rewrite !(valid_not_punct r _ Hv) by reflexivity.
    unfold word. rewrite Hi, bind_Ok, Hv. cbn [negb].
    rewrite Hw, !bind_Ok. reflexivity. }
  (* the second: the end of the input *)
  assert (Hnext2 :
    next (S (S (length l)))
      (addToken (mkToken wordTok (encode (r :: l)) 0) (set_pos p' s0))
    = Ok (EOF, addToken (mkToken wordTok (encode (r :: l)) 0)
                 (set_pos p' s0))).
  { unfold next. cbn [skipSpace].
    assert (He : atEnd (addToken (mkToken wordTok (encode (r :: l)) 0)
                          (set_pos p' s0)) = true).
    { apply (ahead_nil (set_pos p' s0)); [simpl; lia|done]. }
    by rewrite He, bind_Ok. }
  cbn [scanLoop]. rewrite Hnext1, bind_Ok. cbn [scanLoop].
  rewrite Hnext2, !bind_Ok. eexists. reflexivity.
Qed.

(** Where [Scan] leaves the cursor. *)
Lemma Scan_cursor (cmd : list rune) toks ok s :
  Scan cmd zero = Ok (toks, ok, s) → len cmd ≤ scanner_pos s.
Proof.
  unfold Scan. cbn [scanner_pos zero].
  destruct (scanLoop_spec (length cmd) (S (length cmd)) (S (length cmd))
              (mkScanner 0 cmd [] []))
    as (s' & tk & -> & Hin & Hend & Hpos & _); simpl; try lia.
  { unfold ahead. rewrite length_drop. simpl. lia. }
  rewrite ?bind_Ok. intros [= _ _ <-].
  unfold ahead in Hend. apply (f_equal length) in Hend.
  rewrite length_drop, Hin in Hend. simpl in Hend. unfold len. lia.
Qed.

(** [Scan] sets the input and empties the tokens and the errors, but it
    leaves the cursor where it is.  So a scanner that has scanned one
    string finds nothing in a second one that is not longer: it returns
    no token and [ok], whatever the second string holds. *)
Theorem Scan_again_finds_nothing (cmd0 cmd : list rune) (toks0 : list token)
    (ok0 : bool) (s0 : scanner) :
  Scan cmd0 zero = Ok (toks0, ok0, s0) →
  len cmd ≤ len cmd0 →
  Scan cmd s0 = Ok ([], true, mkScanner (scanner_pos s0) cmd [] []).
Proof.
  intros H0 Hlen. apply Scan_cursor in H0.
  unfold Scan. cbn [scanLoop]. unfold next. cbn [skipSpace].
  assert (He : atEnd (mkScanner (scanner_pos s0) cmd [] []) = true).
  { unfold atEnd. simpl. apply Z.leb_le. lia. }
  rewrite He, !bind_Ok. reflexivity.
Qed.

End WithTables.

(** The scanner that has scanned [show results] finds nothing in
    [a b$]. *)
Lemma Scan_again_finds_nothing_witness :
  ∃ toks0 ok0 s0,
    @Scanner.Scan latin1 (runes "show results") Scanner.zero
    = Ok (toks0, ok0, s0) ∧
    @Scanner.Scan latin1 (runes "a b$") s0
    = Ok ([], true, Scanner.mkScanner (Scanner.scanner_pos s0)
                      (runes "a b$") [] []).
Proof.
  assert (H0 : ∃ toks0 ok0 s0,
    @Scanner.Scan latin1 (runes "show results") Scanner.zero
    = Ok (toks0, ok0, s0)) by (eexists _, _, _; vm_compute; reflexivity).
  destruct H0 as (toks0 & ok0 & s0 & H0). exists toks0, ok0, s0.
  split; [exact H0|].
  apply (@Scan_again_finds_nothing latin1 _ _ _ _ _ H0).
  vm_compute. discriminate.
Defined.

End LexingFacts.

(** ** The facade, end to end *)

Module FacadeFacts.
Section WithTables.
Context `{Unicode}.
Import Cmds Lexing.

(** [Add] always comes back.  A syntax string with a rune the lexer
    rejects is refused with the lexer's messages; one the parser
    rejects, with the parser's; in both cases the command set is left as
    it was.  Otherwise the tree of the command, which holds no [meta]
    node, is registered under a [meta] node of its own. *)
Theorem Add_outcomes (cmd : list rune) (cback : Callback) (c : Cmds) :
  ∃ e c', Add cmd cback c = Ok (e, c') ∧
    match e with
    | Some (ScanError errs) =>
        c' = c ∧ errs ≠ [] ∧
        errs = invalidMessage <$> filter (λ r, invalid r = true) cmd
    | Some (Errors errs) =>
        c' = c ∧ errs ≠ [] ∧ filter (λ r, invalid r = true) cmd = []
    | None =>
        filter (λ r, invalid r = true) cmd = [] ∧
        ∃ t, Parser.no_meta t ∧ c' = addParseTree t cback c
    end.
Proof.
  unfold Add, scanAndParse.
  destruct (LexingFacts.Scan_spec cmd) as (s & -> & Herr & _).
  rewrite bind_Ok.
  destruct (filter (λ r, invalid r = true) cmd) as [|r0 bad] eqn:Ebad.
  - rewrite bool_decide_eq_true_2 by done. cbn [negb].
    destruct (ParserFacts.Parse_spec (Scanner.scanner_tokens s))
      as (tree & p & -> & _ & _ & _ & Hnm).
    rewrite bind_Ok. unfold Parser.nilIfEmpty.
    destruct (decide (len (Parser.parser_errors p) = 0)) as [E0|Hne].
    + rewrite bind_Ok. eexists _, _. split; [reflexivity|].
      split; [done|]. by exists tree.
    + rewrite bind_Ok. eexists _, _. split; [reflexivity|].
      split_and!; try done. intros E. by rewrite E in Hne.
  - rewrite bool_decide_eq_false_2 by done. cbn [negb]. rewrite bind_Ok.
    eexists _, _. split; [reflexivity|]. rewrite Herr. by split_and!.
Qed.

Lemma processWord_idle_Ok fuel w v :
  Safety.idle v →
  ∃ v', VM.processWord (S fuel) w v = Ok v' ∧ Safety.idle v' ∧
        VM.vm_matches v' = VM.vm_matches v ∧
        VM.vm_input v' = VM.vm_input v.
Proof.
  intros [Hc Hn]. unfold VM.processWord. cbv zeta. cbn [VM.run].
  cbn [VM.vm_currentThreads VM.set_gen]. rewrite Hc. cbn [lookup list_lookup].
  rewrite bind_Ok. eexists. split; [reflexivity|].
  unfold Safety.idle. simpl. by rewrite Hn.
Qed.

Lemma eachWord_idle_Ok fuel idx : ∀ v,
  Safety.idle v →
  ∃ v', VM.eachWord (S fuel) idx v = Ok v' ∧ Safety.idle v' ∧
        VM.vm_matches v' = VM.vm_matches v ∧
        VM.vm_input v' = VM.vm_input v.
Proof.
  induction idx as [|i idx IH]; intros v Hv; cbn [VM.eachWord].
  - by exists v.
  - destruct (processWord_idle_Ok fuel (Some i) (VM.set_wordIndex i v))
      as (v1 & -> & Hv1 & Hm1 & Hi1); [done|].
    rewrite bind_Ok. destruct (IH v1 Hv1) as (v2 & -> & Hv2 & Hm2 & Hi2).
    simpl in Hm1, Hi1. exists v2. split_and!; try done; congruence.
Qed.

(** With no command registered, [Compile] leaves the empty program and
    [Parse] returns false on every input without calling anything: no
    thread is ever put on a list.  (A budget of one turn per loop is
    enough.) *)
Theorem Parse_without_commands (w : bool) :
  ∃ c', Compile (TraceExecutionTo w zero) = Ok c' ∧
        Cmds_prog c' = [] ∧
        ∀ fuel input ctx, Parse (S fuel) input ctx c' = Ok (false, []).
Proof.
  eexists. split; [reflexivity|]. split; [reflexivity|].
  intros fuel input ctx. unfold Parse.
  cbn [Cmds_prog Cmds_trace Cmds_parseTree TraceExecutionTo zero
       Compiler.prog_of Compiler.compiler_instr Compiler.zero].
  rewrite DispatchFacts.execute_start.
  set (v0 := VM.mkVm [] (CmdScanner.Scan input) [VM.mkThread 0 [] None]
               [] [] [] 1 None 0 w).
  assert (Ha : VM.addThread VM.Current 0%nat v0 = Ok v0) by reflexivity.
  rewrite Ha, bind_Ok.
  destruct (eachWord_idle_Ok fuel (seq 0 (length (CmdScanner.Scan input))) v0)
    as (v1 & -> & Hv1 & Hm1 & _); [done|].
  rewrite bind_Ok.
  destruct (processWord_idle_Ok fuel None v1 Hv1) as (v2 & -> & Hv2 & Hm2 & _).
  rewrite bind_Ok. unfold VM.finishThreads.
  destruct (processWord_idle_Ok fuel None v2 Hv2) as (v3 & -> & Hv3 & Hm3 & _).
  rewrite bind_Ok.
  assert (Hm : VM.vm_matches v3 = []).
  { rewrite Hm3, Hm2, Hm1. reflexivity. }
  unfold VM.maximalMatches. rewrite VMFacts.longestMatches_spec, !bind_Ok.
  rewrite Hm. reflexivity.
Qed.

(** *** A keyword and its prefixes *)

Lemma encode_app a b : encode (a ++ b) = encode a +:+ encode b.
Proof.
  induction a as [|r a IH]; [done|].
  change (encode ((r :: a) ++ b)) with (encodeRune r +:+ encode (a ++ b)).
  rewrite CmdScannerFacts.encode_cons, IH.
  by rewrite CmdScannerFacts.string_app_assoc.
Qed.

Lemma HasPrefix_app (a b : string) : VM.HasPrefix (a +:+ b) a = true.
Proof.
  induction a as [|x a IH]; [done|].
  rewrite CmdScannerFacts.string_app_cons. simpl.
  by rewrite Ascii.eqb_refl.
Qed.

Lemma run_step f w i v t :
  VM.vm_currentThreads v !! i = Some t →
  VM.run (S f) w i v
  = VM.continu w (VM.set_thread (Some t) v) ≫= VM.run f w (S i).
Proof. simpl. by intros ->. Qed.

Lemma run_done f w i v :
  VM.vm_currentThreads v !! i = None → VM.run (S f) w i v = Ok v.
Proof. simpl. by intros ->. Qed.

(** CMP on a word the keyword has as a prefix (trace off). *)
Lemma continu_cmp v t th i nxt wi s :
  VM.vm_thread v = Some t → VM.vm_heap v !! t = Some th →
  index (VM.vm_prog v) (VM.thread_pc th) = Ok i →
  instr_opcode i = opCmp →
  VM.vm_traceWriter v = false →
  VM.vm_input v !! wi = Some s →
  VM.HasPrefix (instr_strs0 i) s = true →
  index (VM.vm_prog v) (VM.thread_pc th + 1) = Ok nxt →
  instr_gen nxt ≠ VM.vm_gen v →
  VM.continu (Some wi) v
  = Ok (VM.append VM.Next t
          (VM.update t (VM.with_pc (VM.thread_pc th + 1))
             (VM.update t (VM.bind (VM.thread_pc th) wi) v))).
Proof.
  intros Ht Hth Hi Hop Htr Hs Hpre Hnxt Hgen. unfold VM.continu.
  rewrite (StepFacts.currentinstr_at v t th i), bind_Ok by done.
  rewrite StepFacts.trace_off, bind_Ok by done. rewrite Hop.
  unfold VM.doCmp. rewrite (VMFacts.index_lookup _ _ _ Hs), bind_Ok, Hpre.
  unfold VM.current. rewrite Ht, bind_Ok. cbv zeta.
  unfold VM.traceBind. cbn [VM.vm_traceWriter VM.update VM.set_heap].
  rewrite Htr, bind_Ok.
  rewrite (VMFacts.load_update t _ v th Hth), bind_Ok.
  rewrite VMFacts.bind_items. cbn [VM.thread_pc].
  apply (StepFacts.addThread_append _ _ _
           (VM.with_pc (VM.thread_pc th + 1)
              (VM.mkThread (VM.thread_pc th)
                 (VM.thread_items th ++ [VM.mkBinding (VM.thread_pc th) wi])
                 (VM.thread_meta th))) nxt).
  - unfold VM.update; simpl.
    rewrite !list_lookup_alter_eq, Hth. simpl.
    by rewrite VMFacts.bind_items.
  - exact Hnxt.
  - exact Hgen.
Qed.

(** The run of the program of one keyword on one word the keyword has
    as a prefix. *)
Lemma keyword_run (cback : Callback) (kw w : string) (fuel : nat) :
  VM.HasPrefix kw w = true →
  ∃ v,
    VM.execute (S (S (S fuel)))
      [mkInstr opMeta 0 0 "" "" (Some cback) 0;
       mkInstr opCmp 0 0 kw "" None 0;
       mkInstr opMatch 0 0 "" "" None 0] [w] (VM.zero false) = Ok v ∧
    VM.vm_matches v = [VM.mkMatch [VM.keywordValue kw w] (Some cback)] ∧
    VM.vm_input v = [w].
Proof.
  intros Hpre. rewrite DispatchFacts.execute_start.
  set (P := [mkInstr opMeta 0 0 "" "" (Some cback) 0;
             mkInstr opCmp 0 0 kw "" None 0;
             mkInstr opMatch 0 0 "" "" None 0]).
  erewrite (StepFacts.addThread_append VM.Current 0%nat _
              (VM.mkThread 0 [] None)); [|reflexivity|reflexivity|done].
  rewrite bind_Ok. cbn [VM.eachWord seq length].
  unfold VM.finishThreads, VM.processWord. cbv zeta.
  erewrite run_step by reflexivity.
  erewrite (StepFacts.continu_meta _ 0%nat (VM.mkThread 0 [] None));
    [|reflexivity|reflexivity|reflexivity|reflexivity|reflexivity
     |reflexivity|done].
  rewrite bind_Ok.
  erewrite run_step by reflexivity.
  erewrite (continu_cmp _ 0%nat (VM.mkThread 1 [] (Some cback)) _ _ 0%nat w);
    [|reflexivity|reflexivity|reflexivity|reflexivity|reflexivity
     |reflexivity|exact Hpre|reflexivity|done].
  rewrite bind_Ok.
  erewrite run_done by reflexivity.
  rewrite !bind_Ok.
  (* the step without a word: the thread is at MATCH *)
  erewrite run_step by reflexivity.
  erewrite (StepFacts.continu_match _ 0%nat
              (VM.mkThread 2 [VM.mkBinding 1 0%nat] (Some cback)));
    [|reflexivity|reflexivity|reflexivity|reflexivity|reflexivity
     |reflexivity].
  rewrite bind_Ok.
  erewrite run_done by reflexivity.
  rewrite !bind_Ok.
  (* [finishThreads]: nothing left *)
  erewrite run_done by reflexivity.
  rewrite !bind_Ok.
  eexists. split; [reflexivity|]. split; reflexivity.
Qed.

(** CMP on a word the keyword does not have as a prefix: the thread is
    dropped (trace off). *)
Lemma continu_cmp_miss v t th i wi s :
  VM.vm_thread v = Some t → VM.vm_heap v !! t = Some th →
  index (VM.vm_prog v) (VM.thread_pc th) = Ok i →
  instr_opcode i = opCmp →
  VM.vm_traceWriter v = false →
  VM.vm_input v !! wi = Some s →
  VM.HasPrefix (instr_strs0 i) s = false →
  VM.continu (Some wi) v = Ok v.
Proof.
  intros Ht Hth Hi Hop Htr Hs Hpre. unfold VM.continu.
  rewrite (StepFacts.currentinstr_at v t th i), bind_Ok by done.
  rewrite StepFacts.trace_off, bind_Ok by done. rewrite Hop.
  unfold VM.doCmp. by rewrite (VMFacts.index_lookup _ _ _ Hs), bind_Ok, Hpre.
Qed.

Lemma keyword_run_miss (cback : Callback) (kw w : string) (fuel : nat) :
  VM.HasPrefix kw w = false →
  ∃ v,
    VM.execute (S (S (S fuel)))
      [mkInstr opMeta 0 0 "" "" (Some cback) 0;
       mkInstr opCmp 0 0 kw "" None 0;
       mkInstr opMatch 0 0 "" "" None 0] [w] (VM.zero false) = Ok v ∧
    VM.vm_matches v = [] ∧ VM.vm_input v = [w].
Proof.
  intros Hpre. rewrite DispatchFacts.execute_start.
  set (P := [mkInstr opMeta 0 0 "" "" (Some cback) 0;
             mkInstr opCmp 0 0 kw "" None 0;
             mkInstr opMatch 0 0 "" "" None 0]).
  erewrite (StepFacts.addThread_append VM.Current 0%nat _
              (VM.mkThread 0 [] None)); [|reflexivity|reflexivity|done].
  rewrite bind_Ok. cbn [VM.eachWord seq length].
  unfold VM.finishThreads, VM.processWord. cbv zeta.
  erewrite run_step by reflexivity.
  erewrite (StepFacts.continu_meta _ 0%nat (VM.mkThread 0 [] None));
    [|reflexivity|reflexivity|reflexivity|reflexivity|reflexivity
     |reflexivity|done].
  rewrite bind_Ok.
  erewrite run_step by reflexivity.
  erewrite (continu_cmp_miss _ 0%nat (VM.mkThread 1 [] (Some cback)) _ 0%nat w);
    [|reflexivity|reflexivity|reflexivity|reflexivity|reflexivity
     |reflexivity|exact Hpre].
  rewrite bind_Ok.
  erewrite run_done by reflexivity.
  rewrite !bind_Ok.
  erewrite run_done by reflexivity.
  rewrite !bind_Ok.
  erewrite run_done by reflexivity.
  rewrite !bind_Ok.
  eexists. split; [reflexivity|]. split; reflexivity.
Qed.

(** One keyword, registered alone, and an input of one word.  The
    keyword goes through the lexer, the parser and the compiler; the
    input through the user-input scanner and the VM.  [Parse] calls the
    callback, with the keyword and the word as typed, exactly when the
    keyword has the word as a prefix of its bytes, which is the case
    for every non-empty prefix of its runes. *)
Theorem keyword_matches_its_prefixes (k u : list rune) (cback : Callback)
    (ctx fuel : nat) :
  k ≠ [] →
  Forall (λ r, Scanner.isValidWordRune r = true ∧ IsSpace r = false) k →
  u ≠ [] → Forall (λ r, IsSpace r = false) u → head u ≠ Some dquote →
  ∃ c c',
    Add k cback zero = Ok (None, c) ∧
    Compile c = Ok c' ∧
    Parse (S (S (S fuel))) u ctx c'
    = Ok (if VM.HasPrefix (encode k) (encode u)
          then (true,
                [mkCall cback
                   (VM.mkMatch [VM.keywordValue (encode k) (encode u)]
                      (Some cback)) ctx])
          else (false, [])) ∧
    (∀ rest, k = u ++ rest → VM.HasPrefix (encode k) (encode u) = true).
Proof.
  intros Hk Hvalid Hu Hnsp Hq.
  destruct (LexingFacts.Scan_word k Hk Hvalid) as (s & HS).
  set (kw := encode k) in *.
  assert (HP : ∃ p, Parser.Parse [mkToken wordTok kw 0] Parser.zero
                    = Ok (word kw, None, p)).
  { clearbody kw. eexists. vm_compute. reflexivity. }
  destruct HP as (p & HP).
  set (P := [mkInstr opMeta 0 0 "" "" (Some cback) 0;
             mkInstr opCmp 0 0 kw "" None 0;
             mkInstr opMatch 0 0 "" "" None 0]).
  exists (mkCmds (meta (Some cback) (word kw)) [] false),
         (mkCmds (meta (Some cback) (word kw)) P false).
  split_and!.
  - unfold Add, scanAndParse. rewrite HS, bind_Ok. cbn [negb].
    rewrite HP, !bind_Ok. reflexivity.
  - clearbody kw. vm_compute. reflexivity.
  - assert (HU : CmdScanner.Scan u = [encode u]).
    { destruct u as [|r0 run]; [done|].
      apply Forall_cons in Hnsp as [Hr0 Hrun].
      assert (Hr0q : r0 ≠ dquote) by (intros ->; by apply Hq).
      pose proof (CmdScannerFacts.Scan_run r0 run [] Hr0 Hr0q Hrun
                    (or_introl eq_refl)) as HR.
      rewrite app_nil_r in HR. exact HR. }
    unfold Parse. cbn [Cmds_prog Cmds_trace]. rewrite HU. unfold P.
    set (w := encode u).
    destruct (VM.HasPrefix kw w) eqn:Hpre.
    + destruct (keyword_run cback kw w fuel Hpre) as (v & -> & Hm & Hi).
      rewrite bind_Ok. unfold VM.maximalMatches.
      rewrite VMFacts.longestMatches_spec, !bind_Ok, Hm, Hi.
      clearbody kw w. vm_compute. reflexivity.
    + destruct (keyword_run_miss cback kw w fuel Hpre) as (v & -> & Hm & Hi).
      rewrite bind_Ok. unfold VM.maximalMatches.
      rewrite VMFacts.longestMatches_spec, !bind_Ok, Hm, Hi.
      reflexivity.
  - intros rest ->. unfold kw. rewrite encode_app. apply HasPrefix_app.
Qed.

End WithTables.

(** [drop] registered alone, and the input [dr]. *)
Lemma keyword_matches_its_prefixes_witness :
  ∃ c c',
    @Cmds.Add latin1 (runes "drop") 2%nat Cmds.zero = Ok (None, c) ∧
    Cmds.Compile c = Ok c' ∧
    Cmds.Parse 3 (runes "dr") 5 c'
    = Ok (true,
          [Cmds.mkCall 2%nat
             (VM.mkMatch [VM.keywordValue "drop" "dr"] (Some 2%nat)) 5%nat]).
Proof.
  destruct (@keyword_matches_its_prefixes latin1 (runes "drop") (runes "dr")
              2%nat 5%nat 0%nat) as (c & c' & HA & HC & HP & _).
  - discriminate.
  - repeat constructor.
  - discriminate.
  - repeat constructor.
  - discriminate.
  - exists c, c'. split; [exact HA|]. split; [exact HC|]. exact HP.
Defined.

End FacadeFacts.

(** ** The parser and the compiler at their edges *)

Module EdgeFacts.
Import Parser ParserFacts.



Section Compiling.
Import Compiler CompilerFacts.

Lemma countinstr_cases t :
  (compilable t ∧ countinstr t = Ok (count t)) ∨
  (¬ compilable t ∧ countinstr t = Panic).
Proof.
  induction t as [|l IHl r IHr|l IHl r IHr|op t IH|w|nm ty|d t IH]; simpl.
  - right. split; [tauto|reflexivity].
  - destruct IHl as [[Hl ->]|[Hl ->]]; [|right; split; [tauto|done]].
    destruct IHr as [[Hr ->]|[Hr ->]]; [|right; split; [tauto|done]].
    left. by split.
  - destruct IHl as [[Hl ->]|[Hl ->]]; [|right; split; [tauto|done]].
    destruct IHr as [[Hr ->]|[Hr ->]]; [|right; split; [tauto|done]].
    left. by split.
  - destruct op; [by left|..];
      (destruct IH as [[Ht ->]|[Ht ->]];
       [left; split; [done|simpl; f_equal; lia]|right; by split]).
  - by left.
  - by left.
  - destruct IH as [[Ht ->]|[Ht ->]]; [by left|right; by split].
Qed.

(** [compile] never loops, and it panics exactly on a tree that holds a
    nil where [countinstr] looks: below alternatives, terms, a repetition
    with one of its three operators, or a [meta] node.  The nil tree
    itself is skipped. *)
Theorem compile_panics_exactly_on_nil_children (t : node) :
  (compile t zero = Panic ↔ t ≠ nilNode ∧ ¬ compilable t) ∧
  compile t zero ≠ Timeout ∧
  (∀ c, compile t zero = Ok c →
        len (prog_of c) = if is_nil t then 0 else count t + 1).
Proof.
  destruct (is_nil t) eqn:Et.
  { destruct t; try done. split_and!; try done.
    - split; [done|]. by intros [? _].
    - by intros c [= <-]. }
  assert (Hn : t ≠ nilNode) by (by intros ->).
  destruct (countinstr_cases t) as [[Hc Hcount]|[Hc Hcount]].
  - destruct (compile_spec t Hc) as (c1 & c2 & _ & _ & E2 & _).
    rewrite E2. split_and!; try done.
    + split; [done|]. by intros [_ ?].
    + intros c [= <-].
      by destruct (compile_code t c2 Hn E2) as (_ & _ & ? & _).
  - assert (E : compile t zero = Panic).
    { unfold compile, countinstrForProgram. rewrite Hcount. by destruct t. }
    rewrite E. split_and!; done.
Qed.

End Compiling.

Section Saving.
Import VM VMFacts.

#[local] Arguments index : simpl never.

(** A thread at a SAVE instruction, with or without a trace writer (with
    one, the word [input[wordIndex]] that [trace] and [traceBind] print
    has to be there).  With a word, whatever the word is, the thread
    object gets the binding of the instruction to the word, its pc
    advances and it is put aside for the next word; with no word the
    thread is dropped.  The binding, when a match is recorded, becomes the
    item [VarValue] with the name and the type of the instruction and the
    word as value. *)
Theorem save_binds_every_word (v : vm) (t : nat) (th : thread) (i nxt : instr)
    (w : nat) (s : string) :
  vm_thread v = Some t → vm_heap v !! t = Some th →
  index (vm_prog v) (thread_pc th) = Ok i →
  instr_opcode i = opSave →
  (vm_traceWriter v = true → is_Some (vm_input v !! vm_wordIndex v)) →
  index (vm_prog v) (thread_pc th + 1) = Ok nxt →
  instr_gen nxt ≠ vm_gen v →
  vm_input v !! w = Some s →
  (∃ v',
     continu (Some w) v = Ok v' ∧
     vm_heap v' !! t
     = Some (mkThread (thread_pc th + 1)
               (thread_items th ++ [mkBinding (thread_pc th) w])
               (thread_meta th)) ∧
     vm_nextThreads v' = vm_nextThreads v ++ [t] ∧
     vm_currentThreads v' = vm_currentThreads v ∧
     vm_matches v' = vm_matches v ∧
     finalize v' (mkBinding (thread_pc th) w)
     = Ok (VarValue (instr_strs0 i) (instr_strs1 i) s)) ∧
  continu None v = Ok v.
Proof.
  intros Ht Hth Hi Hop Htr Hnxt Hgen Hs.
  assert (Htrace : trace v = Ok ()).
  { unfold trace. destruct (vm_traceWriter v) eqn:Etr; [|done].
    rewrite (StepFacts.currentinstr_at v t th i), bind_Ok by done.
    destruct (Htr eq_refl) as [s' Hs'].
    by rewrite (index_lookup _ _ _ Hs'). }
  split.
  - eexists. split.
    + unfold continu.
      rewrite (StepFacts.currentinstr_at v t th i), bind_Ok by done.
      rewrite Htrace, bind_Ok. rewrite Hop.
      unfold doSave, current. rewrite Ht, bind_Ok. cbv zeta.
      assert (Htb : traceBind (update t (bind (thread_pc th) w) v) = Ok ()).
      { unfold traceBind. change (vm_traceWriter (update _ _ _))
          with (vm_traceWriter v).
        destruct (vm_traceWriter v) eqn:Etr; [|done].
        destruct (Htr eq_refl) as [s' Hs'].
        change (vm_input (update _ _ _)) with (vm_input v).
        change (vm_wordIndex (update _ _ _)) with (vm_wordIndex v).
        by rewrite (index_lookup _ _ _ Hs'). }
      rewrite Htb, bind_Ok.
      rewrite (load_update t _ v th Hth), bind_Ok.
      rewrite bind_items. cbn [thread_pc].
      apply (StepFacts.addThread_append _ _ _
               (with_pc (thread_pc th + 1)
                  (mkThread (thread_pc th)
                     (thread_items th ++ [mkBinding (thread_pc th) w])
                     (thread_meta th))) nxt).
      * unfold update; simpl.
        rewrite !list_lookup_alter_eq, Hth. simpl. by rewrite bind_items.
      * exact Hnxt.
      * exact Hgen.
    + split_and!; try done.
      * unfold update; simpl.
        rewrite !list_lookup_alter_eq, Hth. simpl. by rewrite bind_items.
      * unfold finalize. cbn [binding_instr binding_val append update
          set_nextThreads set_heap vm_prog vm_input].
        rewrite Hi, bind_Ok, (index_lookup _ _ _ Hs), bind_Ok, Hop. done.
  - unfold continu.
    rewrite (StepFacts.currentinstr_at v t th i), bind_Ok by done.
    rewrite Htrace, bind_Ok. by rewrite Hop.
Qed.

Lemma save_binds_every_word_witness :
  let p := [mkInstr opSave 0 0 "file" "str" None 0;
            mkInstr opMatch 0 0 "" "" None 0] in
  let v := mkVm p [""%string] [mkThread 0 [] None] [0%nat] [] [] 2
                (Some 0%nat) 0 true in
  ∃ v', continu (Some 0%nat) v = Ok v' ∧
        vm_nextThreads v' = [0%nat] ∧
        finalize v' (mkBinding 0 0%nat) = Ok (VarValue "file" "str" "").
Proof.
  intros p v.
  destruct (save_binds_every_word v 0%nat (mkThread 0 [] None)
              (mkInstr opSave 0 0 "file" "str" None 0)
              (mkInstr opMatch 0 0 "" "" None 0) 0%nat ""%string)
    as [(v' & Hc & _ & Hn & _ & _ & Hf) _].
  - reflexivity.
  - reflexivity.
  - reflexivity.
  - reflexivity.
  - intros _. exists ""%string. reflexivity.
  - reflexivity.
  - vm_compute. discriminate.
  - reflexivity.
  - exists v'. split; [exact Hc|]. split; [exact Hn|exact Hf].
Defined.

End Saving.

(** A [|] with nothing after it is reported; a [|] with nothing before
    it is not: the parser returns the alternatives with a nil left
    branch and no error, and [Compile] panics on the command set that
    holds them. *)
Theorem pipe_without_left_side_is_accepted `{Unicode} (w : string) (k : Z)
    (cback : Callback) (c : Cmds.Cmds) :
  (∃ p, Parse [mkToken wordTok w 0; mkToken pipeTok EmptyString k] zero
        = Ok (word w,
              Some [diagnostic (k + 1 + 1) "expected more tokens after the |"],
              p)) ∧
  (∃ p, Parse [mkToken pipeTok EmptyString 0; mkToken wordTok w k] zero
        = Ok (alts nilNode (word w), None, p)) ∧
  Cmds.Compile (Cmds.addParseTree (alts nilNode (word w)) cback c) = Panic.
Proof.
  split_and!.
  - eexists. vm_compute. reflexivity.
  - eexists. vm_compute. reflexivity.
  - unfold Cmds.Compile, Cmds.addParseTree.
    destruct (Cmds.Cmds_parseTree c); reflexivity.
Qed.

End EdgeFacts.

(** ** The position a diagnostic carries *)

Module PositionFacts.
Section WithTables.
Context `{Unicode}.
Import Scanner Lexing LexingFacts.

#[local] Arguments index : simpl never.

(** The first loop of [next] over [n] blanks: the cursor moves by [n]. *)
Lemma skipSpace_blanks n : ∀ fuel s r rest,
  0 ≤ scanner_pos s → ahead s = replicate n 32 ++ r :: rest →
  IsSpace r = false → (n < fuel)%nat →
  skipSpace fuel s = Ok (Some r, set_pos (scanner_pos s + Z.of_nat n) s).
Proof.
  induction n as [|n IH]; intros fuel s r rest Hp Ha Hr Hf;
    (destruct fuel as [|fuel]; [lia|]); cbn [skipSpace];
    simpl in Ha; destruct (ahead_cons s _ _ Hp Ha) as (-> & -> & Hnext);
    rewrite bind_Ok.
  - rewrite Hr. cbn [negb]. do 2 f_equal. destruct s; unfold set_pos; simpl.
    f_equal. lia.
  - change (IsSpace 32) with true. cbn [negb].
    rewrite (IH fuel _ r rest); [|simpl; lia|exact Hnext|exact Hr|lia].
    rewrite set_pos_set_pos. do 3 f_equal. simpl. lia.
Qed.

(** The tokens of [n] blanks and a [)]: the one token, at rune [n]. *)
Lemma Scan_blanks_paren n :
  ∃ s, Scan (replicate n 32 ++ [41]) zero
       = Ok ([mkToken rightParenTok EmptyString (Z.of_nat n)], true, s).
Proof.
  unfold Scan. cbn [scanner_pos zero].
  set (cmd := replicate n 32 ++ [41]).
  assert (Hlen : @length rune cmd = S n).
  { unfold cmd. rewrite length_app, length_replicate. simpl. lia. }
  rewrite Hlen. set (s0 := mkScanner 0 cmd [] []).
  assert (Hnext1 :
    next (S (S n)) s0
    = Ok (Tok (mkToken rightParenTok EmptyString (Z.of_nat n)),
          set_pos (Z.of_nat n + 1) s0)).
  { unfold next.
    rewrite (skipSpace_blanks n (S (S n)) s0 41 []); [|done|done|done|lia].
    rewrite bind_Ok. cbn [Z.eqb Pos.eqb]. unfold punct. simpl. done. }
  assert (Hnext2 :
    next (S (S n))
      (addToken (mkToken rightParenTok EmptyString (Z.of_nat n))
         (set_pos (Z.of_nat n + 1) s0))
    = Ok (EOF, addToken (mkToken rightParenTok EmptyString (Z.of_nat n))
                 (set_pos (Z.of_nat n + 1) s0))).
  { unfold next. cbn [skipSpace].
    assert (He : atEnd (addToken
                          (mkToken rightParenTok EmptyString (Z.of_nat n))
                          (set_pos (Z.of_nat n + 1) s0)) = true).
    { unfold atEnd, len. simpl. rewrite Hlen. apply Z.leb_le. lia. }
    by rewrite He, bind_Ok. }
  cbn [scanLoop]. rewrite Hnext1, bind_Ok. cbn [scanLoop].
  rewrite Hnext2, !bind_Ok. eexists. reflexivity.
Qed.

(** A [)] as the first token, wherever it stands: nothing is consumed
    and the one diagnostic carries 2. *)
Lemma Parse_paren (pos : Z) :
  Parser.Parse [mkToken rightParenTok EmptyString pos] Parser.zero
  = Ok (nilNode,
        Some ["At character 2: extra tokens after end of command"%string],
        Parser.mkParser [mkToken rightParenTok EmptyString pos]
          ["At character 2: extra tokens after end of command"%string]
          0 0 0).
Proof. vm_compute. reflexivity. Qed.

(** C7 (the code departs from the claim).  With no token consumed
    [runePosition] returns 1, and [addErrorAtPosition] adds 1 to it as it
    does to the 0-based offset [pos + len] that [runePosition] returns
    once a token is consumed: a diagnostic recorded before any token is
    consumed says [At character 2], not 1.  So [Add] answers the syntax
    string of [n] blanks and a [)], whatever [n] is, with [At character
    2: extra tokens after end of command]: the number does not follow
    the input, and it is also the one [a)] gets, where the word is
    consumed and 2 is the position after it.  The parse of that one
    token is not as the claim words it.  After a word the number counts
    the bytes of the word, not its runes: [é)], with the two-byte [é],
    gets 3. *)
Theorem diagnostic_before_first_token_says_two (n : nat) (cback : Callback)
    (c : Cmds.Cmds) :
  (∀ msg p, Parser.parser_current p = 0 →
     Parser.addErrorAtPosition msg p
     = Ok (Parser.addError (Parser.diagnostic 2 msg) p)) ∧
  Cmds.Add (replicate n 32 ++ [41]) cback c
  = Ok (Some (Cmds.Errors
                ["At character 2: extra tokens after end of command"%string]),
        c) ∧
  Cmds.Add [97; 41] cback c
  = Ok (Some (Cmds.Errors
                ["At character 2: extra tokens after end of command"%string]),
        c) ∧
  Cmds.Add [233; 41] cback c
  = Ok (Some (Cmds.Errors
                ["At character 3: extra tokens after end of command"%string]),
        c) ∧
  ¬ Parser.diagnostics_as_claimed
      [mkToken rightParenTok EmptyString (Z.of_nat n)].
Proof.
  split_and!.
  - intros msg p Hc. unfold Parser.addErrorAtPosition, Parser.runePosition.
    rewrite Hc. reflexivity.
  - unfold Cmds.Add, Cmds.scanAndParse.
    destruct (Scan_blanks_paren n) as (s & ->).
    rewrite bind_Ok. cbn [negb]. rewrite Parse_paren. reflexivity.
  - clear n. vm_compute. reflexivity.
  - clear n. vm_compute. reflexivity.
  - intros Hclaim.
    specialize (Hclaim _ _ _ (Parse_paren (Z.of_nat n))).
    apply Forall_cons in Hclaim as [(k & msg & Hk & He) _].
    cbn [Parser.parser_current] in Hk. assert (k = 0) as -> by lia.
    unfold Parser.K_claimed in He. cbn [Z.eqb] in He.
    vm_compute in He. discriminate He.
Qed.

End WithTables.
End PositionFacts.
